(** * Multi-tenant isolation: tenant wrapper, migration applier, provisioner,
      fleet migrator and health check

    A shallow embedding of the TypeScript sources

      - [db-rls/tenant-wrapper]      ([UUID_REGEX], [withTenant]),
      - [db/script-utils]            ([escapeSchemaName], [setSearchPath],
                                      [schemaExistsInDatabase], ...),
      - [db/migration-utils]         ([applyMigrations]),
      - [db/tenant-schema]           ([validateSchemaName],
                                      [createTenantSchemaWithMigrations],
                                      [migrateAllTenantSchemas]),
      - [db/scripts/health-check]    ([healthCheck], both copies),
      - [db/scripts/migrate-public]  ([migratePublic]),
      - [db/scripts/migrate-tenants] ([main]),
      - [shared/db-utils]            ([tableExists], [checkMigrations]).

    Conventions of the model:

      - JavaScript strings are byte strings in UTF-8, their [length] the
        number of UTF-16 code units; an [async] function is a
        computation in a state-and-exception monad that also emits, in
        order, the statements sent on the database client and the console
        calls (console texts are kept without their decorations: check
        marks, leading blank lines);
      - a mutable local object ([results]) is threaded through the loop that
        updates it;
      - PostgreSQL is not part of the repository: the database is a map from
        schema names to tables, with the rows of the tracking tables; the
        effect of a statement is given by [engine], the effect of the text of
        a migration file is a parameter of the host, and a list of scripted
        faults lets any statement fail as a broken connection would;
      - one connection is in use at a time (every client is made with
        [max: 1] and the calls are sequential); [client.end()] does not
        fail. *)

From Stdlib Require Import ZArith Lia Ascii String List.
From stdpp Require Import base tactics option list strings gmap pretty sorting.

(** ** Characters and strings as JavaScript uses them *)

Module Js.

(** A thrown [Error]: only its [message] is ever inspected by the sources. *)
Inductive error : Type := Error (message : string).

Definition message (e : error) : string := let 'Error m := e in m.

Definition chars (s : string) : list ascii := list_ascii_of_string s.

Definition in_range (lo hi c : ascii) : bool :=
  N.leb (N_of_ascii lo) (N_of_ascii c) && N.leb (N_of_ascii c) (N_of_ascii hi).

Definition is_digit (c : ascii) : bool := in_range "0"%char "9"%char c.
Definition is_lower (c : ascii) : bool := in_range "a"%char "z"%char c.
Definition is_upper (c : ascii) : bool := in_range "A"%char "Z"%char c.

(** [String.prototype.toLowerCase] / [toUpperCase] on a single ASCII unit. *)
Definition lower (c : ascii) : ascii :=
  if is_upper c then ascii_of_N (N_of_ascii c + 32) else c.
Definition upper (c : ascii) : ascii :=
  if is_lower c then ascii_of_N (N_of_ascii c - 32) else c.

Fixpoint toLowerCase (s : string) : string :=
  match s with
  | EmptyString => EmptyString
  | String c r => String (lower c) (toLowerCase r)
  end.

(** [s.replace(/c/g, by)] for a one-character pattern. *)
Fixpoint replaceAll (c : ascii) (by_ : string) (s : string) : string :=
  match s with
  | EmptyString => EmptyString
  | String d r =>
      if Ascii.eqb d c then by_ +:+ replaceAll c by_ r
      else String d (replaceAll c by_ r)
  end.

(** [Array.prototype.includes] on strings. *)
Definition includes (l : list string) (s : string) : bool :=
  existsb (String.eqb s) l.

(** [Array.prototype.join]. *)
Fixpoint join (sep : string) (l : list string) : string :=
  match l with
  | [] => EmptyString
  | [x] => x
  | x :: r => x +:+ sep +:+ join sep r
  end.

(** Truthiness of a string: only the empty string is falsy. *)
Definition truthy (s : string) : bool :=
  match s with EmptyString => false | _ => true end.

(** The UTF-16 code units a byte of a UTF-8 text accounts for: one for an
    ASCII byte and for the first byte of a sequence of two or three, two
    (a surrogate pair) for the first byte of a sequence of four, none for a
    continuation byte. *)
Definition utf16_units (c : ascii) : nat :=
  let n := nat_of_ascii c in
  if n <? 128 then 1 else if n <? 192 then 0 else if n <? 240 then 1 else 2.

(** [String.prototype.length] *)
Fixpoint length (s : string) : nat :=
  match s with
  | EmptyString => 0
  | String c r => utf16_units c + length r
  end.

End Js.

(** ** Regular expressions of the sources

    Both regular expressions are anchored at both ends and made of character
    classes only, so a pattern is a list of one-character tests, possibly
    closed by a starred class. *)

Module Regex.

(** A character class as a list of inclusive ranges. *)
Definition class := list (ascii * ascii).

Definition class_has (cl : class) (c : ascii) : bool :=
  existsb (fun r => Js.in_range (fst r) (snd r) c) cl.

(** Matching under the [i] flag: a unit matches when one of its case variants
    is in the class. *)
Definition class_has_i (cl : class) (c : ascii) : bool :=
  class_has cl (Js.lower c) || class_has cl (Js.upper c).

Definition single (c : ascii) : class := [(c, c)].

(** [^ t1 t2 ... tn $]: every position is consumed by exactly one test. *)
Fixpoint test_seq (tests : list (ascii -> bool)) (s : list ascii) : bool :=
  match tests, s with
  | [], [] => true
  | t :: ts, c :: r => t c && test_seq ts r
  | _, _ => false
  end.

End Regex.

(** ** tenant-wrapper: [UUID_REGEX] *)

Definition hex_class : Regex.class :=
  [("0", "9"); ("a", "f")]%char.
Definition variant_class : Regex.class :=
  [("8", "8"); ("9", "9"); ("a", "a"); ("b", "b")]%char.

Definition is_hex : ascii → bool := Regex.class_has_i hex_class.
Definition is_variant : ascii → bool := Regex.class_has_i variant_class.
Definition is_char (c : ascii) : ascii → bool := Regex.class_has_i (Regex.single c).

(** [/^[0-9a-f]{8}-[0-9a-f]{4}-4[0-9a-f]{3}-[89ab][0-9a-f]{3}-[0-9a-f]{12}$/i] *)
Definition UUID_REGEX : list (ascii → bool) :=
  repeat is_hex 8 ++ is_char "-" ::
  repeat is_hex 4 ++ is_char "-" ::
  is_char "4" :: repeat is_hex 3 ++ is_char "-" ::
  is_variant :: repeat is_hex 3 ++ is_char "-" ::
  repeat is_hex 12.

Definition UUID_REGEX_test (s : string) : bool :=
  Regex.test_seq UUID_REGEX (Js.chars s).

(** The grammar in the words of the specification: five groups of 8, 4, 4, 4
    and 12 hexadecimal digits separated by hyphens, the first digit of the
    third group having value 4 (version) and the first digit of the fourth
    group a value among 8, 9, a, b (variant). *)
Definition hex_value (c : ascii) : option N :=
  if Js.is_digit c then Some (N_of_ascii c - 48)%N
  else if Js.in_range "a"%char "f"%char c then Some (N_of_ascii c - 87)%N
  else if Js.in_range "A"%char "F"%char c then Some (N_of_ascii c - 55)%N
  else None.

Definition hex_group (n : nat) (g : list ascii) : Prop :=
  length g = n ∧ Forall (fun c => is_Some (hex_value c)) g.

Definition first_nibble (g : list ascii) : option N :=
  match g with
  | [] => None
  | c :: _ => hex_value c
  end.

Definition canonical_uuid (s : string) : Prop :=
  ∃ g1 g2 g3 g4 g5 : list ascii,
    Js.chars s = g1 ++ "-"%char :: g2 ++ "-"%char :: g3 ++ "-"%char :: g4
                    ++ "-"%char :: g5
    ∧ hex_group 8 g1 ∧ hex_group 4 g2 ∧ hex_group 4 g3 ∧ hex_group 4 g4
    ∧ hex_group 12 g5
    ∧ first_nibble g3 = Some 4%N
    ∧ (∃ v, first_nibble g4 = Some v ∧ (v = 8 ∨ v = 9 ∨ v = 10 ∨ v = 11)%N).

(** ** script-utils: [escapeSchemaName] *)

Definition dquote : ascii := "034"%char.

(** The name between double quotes, each embedded double quote doubled; the
    literal [public] is returned as it is. *)
Definition escapeSchemaName (schemaName : string) : string :=
  if String.eqb schemaName "public" then "public"
  else
    String dquote
      (Js.replaceAll dquote (String dquote (String dquote EmptyString)) schemaName
         +:+ String dquote EmptyString).

(** ** tenant-schema: [validateSchemaName] *)

(** [/^[a-zA-Z_][a-zA-Z0-9_]*$/] *)
Definition ident_start : Regex.class :=
  [("a", "z"); ("A", "Z"); ("_", "_")]%char.
Definition ident_part : Regex.class :=
  [("a", "z"); ("A", "Z"); ("0", "9"); ("_", "_")]%char.

Definition IDENT_REGEX_test (s : string) : bool :=
  match Js.chars s with
  | [] => false
  | c :: r => Regex.class_has ident_start c && forallb (Regex.class_has ident_part) r
  end.

Definition reservedKeywords : list string :=
  ["public"; "pg_catalog"; "pg_toast"; "information_schema"; "pg_temp";
   "pg_toast_temp"].

(** The function returns nothing or throws: [None] is the normal return. *)
Definition validateSchemaName (schemaName : string) : option Js.error :=
  if negb (Js.truthy schemaName) then
    Some (Js.Error "Schema name must be a non-empty string")
  else if 63 <? Js.length schemaName then
    Some (Js.Error "Schema name must be 63 characters or less")
  else if negb (IDENT_REGEX_test schemaName) then
    Some (Js.Error
      "Schema name must start with a letter or underscore and contain only letters, digits, and underscores")
  else if Js.includes reservedKeywords (Js.toLowerCase schemaName) then
    Some (Js.Error
      ("Schema name cannot be a reserved PostgreSQL keyword: " +:+ schemaName))
  else None.

(** ** The engine's reading of the SQL fragments the sources build

    The statements are sent to PostgreSQL as text.  What the engine makes of
    an identifier token, of a string literal and of a [LIKE] pattern is part
    of the engine, not of the repository; it is modelled here after the
    lexical rules of PostgreSQL. *)

Module Pg.

Definition squote : ascii := "039"%char.
Definition nul : ascii := "000"%char.

(** The text after an opening quote [q]: characters up to the closing quote,
    which must end the token; a doubled quote stands for one quote. *)
Fixpoint unquote (q : ascii) (s : list ascii) : option (list ascii) :=
  match s with
  | [] => None
  | c :: r =>
      if Ascii.eqb c q then
        match r with
        | [] => Some []
        | d :: r' =>
            if Ascii.eqb d q then cons q <$> unquote q r' else None
        end
      else cons c <$> unquote q r
  end.

(** Identifiers are cut to NAMEDATALEN - 1 = 63 bytes. *)
Definition truncate_identifier (l : list ascii) : list ascii := take 63 l.

Definition unquoted_start (c : ascii) : bool :=
  Js.is_lower c || Js.is_upper c || Ascii.eqb c "_"%char.
Definition unquoted_part (c : ascii) : bool :=
  unquoted_start c || Js.is_digit c || Ascii.eqb c "$"%char.

(** The name an identifier token denotes, if the token is well formed:
    a delimited identifier is neither empty nor contains the zero byte, an
    undelimited one is folded to lower case. *)
Definition identifier (tok : string) : option string :=
  match Js.chars tok with
  | [] => None
  | c :: r =>
      if Ascii.eqb c dquote then
        match unquote dquote r with
        | Some [] => None
        | Some body =>
            if existsb (Ascii.eqb nul) body then None
            else Some (string_of_list_ascii (truncate_identifier body))
        | None => None
        end
      else if unquoted_start c && forallb unquoted_part r then
        Some (string_of_list_ascii
                (truncate_identifier (map Js.lower (c :: r))))
      else None
  end.

(** The value of a string constant ['...']. *)
Definition literal (tok : string) : option string :=
  match Js.chars tok with
  | [] => None
  | c :: r =>
      if Ascii.eqb c squote then string_of_list_ascii <$> unquote squote r
      else None
  end.

(** [s LIKE pattern]: [_] stands for any one character, [%] for any
    sequence of characters. *)
Fixpoint like_chars (p : list ascii) (s : list ascii) {struct p} : bool :=
  match p with
  | [] => match s with [] => true | _ => false end
  | c :: p' =>
      if Ascii.eqb c "%"%char then
        (fix skip (s : list ascii) : bool :=
           like_chars p' s ||
           match s with [] => false | _ :: s' => skip s' end) s
      else
        match s with
        | [] => false
        | d :: s' =>
            (Ascii.eqb c "_"%char || Ascii.eqb c d) && like_chars p' s'
        end
  end.

Definition like (s pattern : string) : bool :=
  like_chars (Js.chars pattern) (Js.chars s).

End Pg.

(** ** The database as the sources observe it *)

(** A row of [__drizzle_migrations]: [hash] and [created_at] (the serial [id]
    is the position of the row). *)
Definition migration_row : Type := string * Z.

(** A table is known by its name; rows are kept for the tracking table. *)
Record database := {
  db_schemas : gmap string (gmap string (list migration_row));
  db_tracker : list string;          (* the [name] column of [schema_tracker] *)
  db_search_path : list string;      (* of the connection in use *)
}.

Definition MIGRATIONS_TABLE : string := "__drizzle_migrations".

Definition set_schemas (f : gmap string (gmap string (list migration_row)) →
                            gmap string (gmap string (list migration_row)))
    (d : database) : database :=
  {| db_schemas := f (db_schemas d); db_tracker := db_tracker d;
     db_search_path := db_search_path d |}.

Definition set_search_path (p : list string) (d : database) : database :=
  {| db_schemas := db_schemas d; db_tracker := db_tracker d;
     db_search_path := p |}.

Definition schema_exists (d : database) (n : string) : bool :=
  bool_decide (is_Some (db_schemas d !! n)).

Definition find_table (d : database) (n t : string) : option (list migration_row) :=
  db_schemas d !! n ≫= λ sc, sc !! t.

Definition table_exists (d : database) (n t : string) : bool :=
  bool_decide (is_Some (find_table d n t)).

(** The rows of the tracking table of schema [n], when it exists. *)
Definition tracking (d : database) (n : string) : option (list migration_row) :=
  find_table d n MIGRATIONS_TABLE.

Definition sorted_names (l : list string) : list string :=
  merge_sort String.le l.

(** The statements and queries the sources send. Identifier arguments named
    [ident] are SQL text (the output of [escapeSchemaName]); arguments named
    [schema] or [table] are bound parameters. *)
Inductive command : Type :=
  | SetSearchPath (ident : string)
      (* SET search_path TO <ident>, public *)
  | ShowSearchPath
  | CreateSchemaIfNotExists (ident : string)
  | DropSchemaIfExistsCascade (ident : string)
  | CreateMigrationsTable (ident : string)
      (* CREATE TABLE IF NOT EXISTS <ident>.__drizzle_migrations (...) *)
  | SelectHashes (ident : string)
      (* SELECT hash FROM <ident>.__drizzle_migrations [ORDER BY id] *)
  | CountMigrations (ident : string)
  | RunScript (sql : string)
      (* the text of a migration file *)
  | InsertMigration (ident : string) (hash_literal : string) (created_at : Z)
      (* INSERT INTO <ident>.__drizzle_migrations (hash, created_at)
         VALUES (<hash_literal>, <created_at>) *)
  | SchemaExists (schema : string)
  | TableExists (schema table : string)
  | ListTables (schema : string)
  | ListOrphanCandidates
      (* SELECT schema_name FROM information_schema.schemata
         WHERE schema_name NOT IN (...) AND schema_name NOT LIKE 'pg_%'
         ORDER BY schema_name *)
  | SelectSchemaTracker
  | Begin
  | SetLocalTenant (literal : string)
  | Commit
  | Rollback.

Definition reply (c : command) : Type :=
  match c with
  | ShowSearchPath => string
  | SelectHashes _ => list string
  | CountMigrations _ => nat
  | SchemaExists _ | TableExists _ _ => bool
  | ListTables _ | ListOrphanCandidates | SelectSchemaTracker => list string
  | _ => unit
  end.

Definition ORPHAN_EXCLUDED : list string :=
  ["pg_catalog"; "information_schema"; "pg_toast"; "pg_temp_1";
   "pg_toast_temp_1"; "public"].
Definition ORPHAN_NOT_LIKE : string := "pg_%".

Definition orphan_candidate (n : string) : bool :=
  negb (Js.includes ORPHAN_EXCLUDED n) && negb (Pg.like n ORPHAN_NOT_LIKE).

Definition syntax_error (tok : string) : Js.error :=
  Js.Error ("syntax error at or near " +:+ tok).
Definition no_schema (n : string) : Js.error :=
  Js.Error ("schema " +:+ n +:+ " does not exist").
Definition no_relation (n : string) : Js.error :=
  Js.Error ("relation " +:+ n +:+ "." +:+ MIGRATIONS_TABLE +:+ " does not exist").

(** ** The host: migration files and the engine's execution of their text *)

(** A file with its text and what [JSON.parse] makes of it when it is read as
    a migration journal: [None] when parsing throws, [Some None] when the
    object has no (or a falsy) [entries] field, [Some (Some tags)] for the
    [tag]s of its entries in order. *)
Record file := {
  file_text : string;
  file_journal : option (option (list string));
}.

Record host := {
  files : gmap string file;
  cwd : string;
  (* the effect of executing the text of a migration file; the connection's
     search path is part of the database value it receives *)
  exec_script : string → database → Js.error + database;
}.

Definition with_ident {A} (ident : string) (k : string → Js.error + A) :
    Js.error + A :=
  match Pg.identifier ident with
  | Some n => k n
  | None => inl (syntax_error ident)
  end.

Definition engine (h : host) (c : command) (d : database) :
    Js.error + (reply c * database) :=
  match c return Js.error + (reply c * database) with
  | SetSearchPath ident =>
      with_ident ident (λ n, inr (tt, set_search_path [n; "public"] d))
  | ShowSearchPath => inr (Js.join ", " (db_search_path d), d)
  | CreateSchemaIfNotExists ident =>
      with_ident ident (λ n,
        match db_schemas d !! n with
        | Some _ => inr (tt, d)
        | None => inr (tt, set_schemas (insert n ∅) d)
        end)
  | DropSchemaIfExistsCascade ident =>
      with_ident ident (λ n, inr (tt, set_schemas (delete n) d))
  | CreateMigrationsTable ident =>
      with_ident ident (λ n,
        match db_schemas d !! n with
        | None => inl (no_schema n)
        | Some sc =>
            match sc !! MIGRATIONS_TABLE with
            | Some _ => inr (tt, d)
            | None =>
                inr (tt, set_schemas (insert n (<[MIGRATIONS_TABLE := []]> sc)) d)
            end
        end)
  | SelectHashes ident =>
      with_ident ident (λ n,
        match tracking d n with
        | Some rows => inr (rows.*1, d)
        | None => inl (no_relation n)
        end)
  | CountMigrations ident =>
      with_ident ident (λ n,
        match tracking d n with
        | Some rows => inr (length rows, d)
        | None => inl (no_relation n)
        end)
  | RunScript sql =>
      match exec_script h sql d with
      | inl e => inl e
      | inr d' => inr (tt, d')
      end
  | InsertMigration ident lit now =>
      with_ident ident (λ n,
        match Pg.literal lit, db_schemas d !! n with
        | None, _ => inl (syntax_error lit)
        | Some hash, Some sc =>
            match sc !! MIGRATIONS_TABLE with
            | Some rows =>
                inr (tt, set_schemas
                           (insert n (<[MIGRATIONS_TABLE := rows ++ [(hash, now)]]> sc)) d)
            | None => inl (no_relation n)
            end
        | Some _, None => inl (no_relation n)
        end)
  | SchemaExists n => inr (schema_exists d n, d)
  | TableExists n t => inr (table_exists d n t, d)
  | ListTables n =>
      inr (sorted_names (elements (dom (default ∅ (db_schemas d !! n)))), d)
  | ListOrphanCandidates =>
      inr (filter (λ n, orphan_candidate n = true)
             (sorted_names (elements (dom (db_schemas d)))), d)
  | SelectSchemaTracker => inr (db_tracker d, d)
  | Begin | SetLocalTenant _ | Commit | Rollback => inr (tt, d)
  end.

(** ** Computations: state, exceptions, emitted calls *)

Inductive outcome (A : Type) : Type :=
  | Ok (a : A)
  | Throw (e : Js.error)
  | Exit (code : Z).        (* [process.exit(code)] *)
Arguments Ok {A} a.
Arguments Throw {A} e.
Arguments Exit {A} code.

Inductive console_arg : Type :=
  | Str (s : string)
  | Strs (l : list string)
  | Err (e : Js.error).

Inductive event : Type :=
  | Call (c : command)                       (* a statement reaches the client *)
  | NewClient                                (* [createPostgresClient()] *)
  | EndClient                                (* [client.end()] *)
  | ConsoleLog (args : list console_arg)
  | ConsoleWarn (args : list console_arg)
  | ConsoleError (args : list console_arg).

(** [st_faults] scripts the failures of the connection itself: the n-th
    statement sent fails with the given message when the n-th entry is
    [Some]; past the end of the list the connection is sound. *)
Record state := {
  st_db : database;
  st_faults : list (option string);
  st_clock : Z;                              (* [Date.now()] *)
}.

Definition M (A : Type) : Type := state → outcome A * state * list event.

Definition ret {A} (a : A) : M A := λ s, (Ok a, s, []).
Definition throw {A} (e : Js.error) : M A := λ s, (Throw e, s, []).
Definition process_exit {A} (code : Z) : M A := λ s, (Exit code, s, []).
Definition emit (e : event) : M unit := λ s, (Ok tt, s, [e]).

Definition bind {A B} (m : M A) (k : A → M B) : M B := λ s,
  match m s with
  | (Ok a, s1, e1) => let '(r, s2, e2) := k a s1 in (r, s2, e1 ++ e2)
  | (Throw e, s1, e1) => (Throw e, s1, e1)
  | (Exit c, s1, e1) => (Exit c, s1, e1)
  end.

Declare Scope js_scope.
Delimit Scope js_scope with js.
Notation "'let!' x ':=' m 'in' k" := (bind m (λ x, k))
  (at level 10, x pattern, m at level 100, k at level 200) : js_scope.
Notation "'do!' m 'in' k" := (bind m (λ _, k))
  (at level 10, m at level 100, k at level 200) : js_scope.
Open Scope js_scope.

(** [try { m } catch (e) { handler e }] *)
Definition try_catch {A} (m : M A) (handler : Js.error → M A) : M A := λ s,
  match m s with
  | (Throw e, s1, e1) => let '(r, s2, e2) := handler e s1 in (r, s2, e1 ++ e2)
  | r => r
  end.

(** [try { m } finally { f }]; the process is gone after [process.exit]. *)
Definition try_finally {A} (m : M A) (f : M unit) : M A := λ s,
  match m s with
  | (Exit c, s1, e1) => (Exit c, s1, e1)
  | (r, s1, e1) =>
      match f s1 with
      | (Ok _, s2, e2) => (r, s2, e1 ++ e2)
      | (Throw e, s2, e2) => (Throw e, s2, e1 ++ e2)
      | (Exit c, s2, e2) => (Exit c, s2, e1 ++ e2)
      end
  end.

Definition when (b : bool) (m : M unit) : M unit := if b then m else ret tt.

(** [array.forEach(f)] *)
Fixpoint for_each {A} (f : A → M unit) (l : list A) : M unit :=
  match l with
  | [] => ret tt
  | x :: r => do! f x in for_each f r
  end.

Definition console_log (args : list console_arg) : M unit := emit (ConsoleLog args).
Definition console_warn (args : list console_arg) : M unit := emit (ConsoleWarn args).
Definition console_error (args : list console_arg) : M unit := emit (ConsoleError args).

Definition Date_now : M Z := λ s, (Ok (st_clock s), s, []).

Definition set_db (d : database) (s : state) : state :=
  {| st_db := d; st_faults := st_faults s; st_clock := st_clock s |}.
Definition set_faults (f : list (option string)) (s : state) : state :=
  {| st_db := st_db s; st_faults := f; st_clock := st_clock s |}.

Section Host.

Context (h : host).

(** One statement on the client: it is recorded, then either the connection
    fails as scripted or the engine answers. *)
Definition call (c : command) : M (reply c) := λ s,
  let s1 := set_faults (tail (st_faults s)) s in
  match st_faults s with
  | Some msg :: _ => (Throw (Js.Error msg), s1, [Call c])
  | _ =>
      match engine h c (st_db s) with
      | inl e => (Throw e, s1, [Call c])
      | inr (r, d) => (Ok r, set_db d s1, [Call c])
      end
  end.

(** [createPostgresClient()]: a client of its own, one connection, the
    default search path. *)
Definition createPostgresClient : M unit := λ s,
  (Ok tt, set_db (set_search_path ["public"] (st_db s)) s, [NewClient]).

Definition client_end : M unit := emit EndClient.

(** [path.join] on already normal segments. *)
Definition path_join (a b : string) : string := a +:+ "/" +:+ b.

Definition existsSync (p : string) : bool := bool_decide (is_Some (files h !! p)).

(** [fs.readFileSync(p, 'utf-8')] *)
Definition enoent (p : string) : Js.error :=
  Js.Error ("ENOENT: no such file or directory, open " +:+ p).

Definition readFileSync (p : string) : M string :=
  match files h !! p with
  | Some f => ret (file_text f)
  | None => throw (enoent p)
  end.

(** [JSON.parse(fs.readFileSync(p, 'utf-8'))] followed by [.entries || []]
    and the [tag] of each entry. *)
Definition read_journal_entries (p : string) : M (list string) :=
  match files h !! p with
  | Some f =>
      match file_journal f with
      | Some entries => ret (default [] entries)
      | None => throw (Js.Error "Unexpected token in JSON")
      end
  | None => throw (enoent p)
  end.

(** *** script-utils *)

Definition setSearchPath (schemaName : string) : M unit :=
  let escapedSchemaName := escapeSchemaName schemaName in
  call (SetSearchPath escapedSchemaName).

Definition schemaExistsInDatabase (schemaName : string) : M bool :=
  call (SchemaExists schemaName).

Definition tableExistsInSchema (schemaName tableName : string) : M bool :=
  call (TableExists schemaName tableName).

Definition journal_not_found (journalPath : string) : Js.error :=
  Js.Error ("Migration journal not found at " +:+ journalPath).

Definition getExpectedMigrations (migrationsFolder : string) : M (list string) :=
  let metaFolder := path_join migrationsFolder "meta" in
  let journalPath := path_join metaFolder "_journal.json" in
  if negb (existsSync journalPath) then throw (journal_not_found journalPath)
  else read_journal_entries journalPath.

Definition getAppliedMigrations (schemaName : string) : M (list string) :=
  let escapedSchemaName := escapeSchemaName schemaName in
  call (SelectHashes escapedSchemaName).

Definition handleScriptError {A} (error : Js.error) (context : string) : M A :=
  do! console_error [Str context] in
  do! console_error [Str ("  " +:+ Js.message error)] in
  process_exit 1.

(** *** migration-utils: [applyMigrations] *)

Definition file_not_found (migrationFile : string) : Js.error :=
  Js.Error ("Migration file not found: " +:+ migrationFile).

Definition hash_literal (tag : string) : string :=
  String Pg.squote (tag +:+ String Pg.squote EmptyString).

(** The [for (const migration of migrations)] loop; [appliedCount] is the
    local counter of the function. *)
Fixpoint apply_loop (escapedSchemaName migrationsFolder logPrefix : string)
    (appliedHashes : list string) (migrations : list string)
    (appliedCount : nat) : M nat :=
  match migrations with
  | [] => ret appliedCount
  | tag :: rest =>
      let migrationFile := path_join migrationsFolder (tag +:+ ".sql") in
      if negb (existsSync migrationFile) then
        throw (file_not_found migrationFile)
      else if Js.includes appliedHashes tag then
        do! when (Js.truthy logPrefix)
              (console_log
                 [Str (logPrefix +:+ "Skipping already applied migration: " +:+ tag)]) in
        apply_loop escapedSchemaName migrationsFolder logPrefix appliedHashes
          rest appliedCount
      else
        do! when (Js.truthy logPrefix)
              (console_log [Str (logPrefix +:+ "Applying migration: " +:+ tag)]) in
        let! sql := readFileSync migrationFile in
        do! call (RunScript sql) in
        let! now := Date_now in
        do! call (InsertMigration escapedSchemaName (hash_literal tag) now) in
        apply_loop escapedSchemaName migrationsFolder logPrefix appliedHashes
          rest (S appliedCount)
  end.

(** The function resolves to no value ([Promise<void>]). *)
Definition applyMigrations (schemaName migrationsFolder logPrefix : string) :
    M unit :=
  let escapedSchemaName := escapeSchemaName schemaName in
  do! call (SetSearchPath escapedSchemaName) in
  let! searchPathCheck := call ShowSearchPath in
  do! when (Js.truthy logPrefix)
        (console_log [Str (logPrefix +:+ "Search path set to: " +:+ searchPathCheck)]) in
  let metaFolder := path_join migrationsFolder "meta" in
  let journalPath := path_join metaFolder "_journal.json" in
  if negb (existsSync journalPath) then throw (journal_not_found journalPath)
  else
    let! migrations := read_journal_entries journalPath in
    if length migrations =? 0 then
      when (Js.truthy logPrefix)
        (console_log [Str (logPrefix +:+ "No migrations to apply")])
    else
      do! call (CreateMigrationsTable escapedSchemaName) in
      let! appliedMigrations := call (SelectHashes escapedSchemaName) in
      let appliedHashes := appliedMigrations in
      let! appliedCount :=
        apply_loop escapedSchemaName migrationsFolder logPrefix appliedHashes
          migrations 0 in
      when (Js.truthy logPrefix && (0 <? appliedCount))
        (console_log
           [Str (logPrefix +:+ "Applied " +:+ pretty appliedCount +:+ " migration(s)")]).

(** *** tenant-schema: [createTenantSchemaWithMigrations] *)

Definition tenant_migrations_folder : string :=
  path_join (path_join (path_join (cwd h) "db") "migrations") "tenant".

Definition DUMMY_TABLE : string := "dummy_table".

Definition missing_table_message (schemaName : string)
    (tablesInSchema : list string) : string :=
  "dummy_table was not created in tenant schema " +:+ schemaName +:+ ". " +:+
  "Migration execution may have failed. " +:+
  "Tables found in schema: " +:+ Js.join ", " tablesInSchema.

Definition MISROUTED_NOTE : string :=
  " Note: dummy_table exists in public schema instead.".

(** The second half of the [try] block: what is checked once the
    migrations have been applied. *)
Definition verify_tables (schemaName : string) : M unit :=
  let! tablesInSchema := call (ListTables schemaName) in
  do! console_log
        [Str ("Tables in schema " +:+ schemaName +:+ ":"); Strs tablesInSchema] in
  let! tableCheck := call (TableExists schemaName DUMMY_TABLE) in
  if negb tableCheck then
    let! publicTableCheck := call (TableExists "public" DUMMY_TABLE) in
    let errorMsg := missing_table_message schemaName tablesInSchema in
    if publicTableCheck then throw (Js.Error (errorMsg +:+ MISROUTED_NOTE))
    else throw (Js.Error errorMsg)
  else ret tt.

(** The first half of the [try] block: the schema, then the migrations. *)
Definition create_and_migrate (schemaName : string) : M unit :=
  let escapedSchemaName := escapeSchemaName schemaName in
  do! call (CreateSchemaIfNotExists escapedSchemaName) in
  let migrationsFolder := tenant_migrations_folder in
  applyMigrations schemaName migrationsFolder "  ".

(** The body of the [try] block. *)
Definition provision (schemaName : string) : M unit :=
  do! create_and_migrate schemaName in
  verify_tables schemaName.

(** The body of the [catch] block: best-effort drop, then the caught error
    is thrown again. *)
Definition cleanup_and_rethrow (schemaName : string) (error : Js.error) :
    M unit :=
  do! try_catch
        (let escapedSchemaName := escapeSchemaName schemaName in
         call (DropSchemaIfExistsCascade escapedSchemaName))
        (λ cleanupError,
           console_error
             [Str ("Failed to cleanup schema " +:+ schemaName +:+ ":");
              Err cleanupError]) in
  throw error.

Definition createTenantSchemaWithMigrations (schemaName : string) : M unit :=
  match validateSchemaName schemaName with
  | Some e => throw e
  | None =>
      do! createPostgresClient in
      try_finally
        (try_catch (provision schemaName) (cleanup_and_rethrow schemaName))
        client_end
  end.

(** *** tenant-schema: [migrateAllTenantSchemas] *)

Record migrate_results := {
  success : nat;
  failures : nat;
  errors : list (string * string);        (* schema, error *)
}.

(** One turn of [for (const { name } of schemas)]. *)
Definition migrate_one (name : string) (results : migrate_results) :
    M migrate_results :=
  try_catch
    (do! console_log [Str ("Migrating schema: " +:+ name)] in
     do! createTenantSchemaWithMigrations name in
     do! console_log [Str ("Successfully migrated schema: " +:+ name)] in
     ret {| success := S (success results); failures := failures results;
            errors := errors results |})
    (λ error,
       let errorMessage := Js.message error in
       do! console_error
             [Str ("Failed to migrate schema " +:+ name +:+ ":"); Str errorMessage] in
       ret {| success := success results; failures := S (failures results);
              errors := errors results ++ [(name, errorMessage)] |}).

Fixpoint migrate_loop (schemas : list string) (results : migrate_results) :
    M migrate_results :=
  match schemas with
  | [] => ret results
  | name :: rest =>
      let! results' := migrate_one name results in
      migrate_loop rest results'
  end.

Definition migrateAllTenantSchemas : M migrate_results :=
  do! createPostgresClient in
  let results := {| success := 0; failures := 0; errors := [] |} in
  try_finally
    (let! schemas := call SelectSchemaTracker in
     if length schemas =? 0 then
       do! console_log [Str "No tenant schemas found in schema_tracker"] in
       ret results
     else
       do! console_log
             [Str ("Found " +:+ pretty (length schemas) +:+ " tenant schema(s) to migrate")] in
       let! results := migrate_loop schemas results in
       do! console_log
             [Str ("Migration summary: " +:+ pretty (success results) +:+
                   " succeeded, " +:+ pretty (failures results) +:+ " failed")] in
       ret results)
    client_end.

(** *** scripts/health-check: [healthCheck] *)

Record health_results := {
  totalSchemas : nat;
  healthySchemas : list string;
  unhealthySchemas : list (string * string);     (* schema, issue *)
  orphanedSchemas : list string;
}.

Definition push_unhealthy (name issue : string) (r : health_results) :
    health_results :=
  {| totalSchemas := totalSchemas r; healthySchemas := healthySchemas r;
     unhealthySchemas := unhealthySchemas r ++ [(name, issue)];
     orphanedSchemas := orphanedSchemas r |}.

Definition push_healthy (name : string) (r : health_results) : health_results :=
  {| totalSchemas := totalSchemas r;
     healthySchemas := healthySchemas r ++ [name];
     unhealthySchemas := unhealthySchemas r;
     orphanedSchemas := orphanedSchemas r |}.

Definition push_orphaned (name : string) (r : health_results) : health_results :=
  {| totalSchemas := totalSchemas r; healthySchemas := healthySchemas r;
     unhealthySchemas := unhealthySchemas r;
     orphanedSchemas := orphanedSchemas r ++ [name] |}.

Definition ISSUE_NO_SCHEMA : string := "Schema does not exist in database".
Definition ISSUE_NO_TABLE : string := "dummy_table does not exist".
Definition ISSUE_NO_TRACKING : string := "__drizzle_migrations table does not exist".

Definition missing_of (expectedMigrations appliedMigrations : list string) :
    list string :=
  List.filter (λ m, negb (Js.includes appliedMigrations m)) expectedMigrations.

Definition extra_of (expectedMigrations appliedMigrations : list string) :
    list string :=
  List.filter (λ m, negb (Js.includes expectedMigrations m)) appliedMigrations.

Definition mismatch_issues (missingMigrations extraMigrations : list string) :
    list string :=
  (if 0 <? length missingMigrations
   then ["Missing migrations: " +:+ Js.join ", " missingMigrations] else []) ++
  (if 0 <? length extraMigrations
   then ["Extra migrations: " +:+ Js.join ", " extraMigrations] else []).

(** How a block of the loop body ends: with [continue], or by falling
    through to the statement after it. *)
Inductive flow : Type := Continue | FallThrough.

(** The inner [try] of the loop body (migration status). *)
Definition migration_status (expectedMigrations : list string) (name : string)
    (results : health_results) : M (flow * health_results) :=
  try_catch
    (let! migrationsTableExists := tableExistsInSchema name MIGRATIONS_TABLE in
     if negb migrationsTableExists then
       do! console_log [Str (name +:+ ": Migration tracking table missing")] in
       ret (Continue, push_unhealthy name ISSUE_NO_TRACKING results)
     else
       let! appliedMigrations := getAppliedMigrations name in
       let missingMigrations := missing_of expectedMigrations appliedMigrations in
       let extraMigrations := extra_of expectedMigrations appliedMigrations in
       if (0 <? length missingMigrations) || (0 <? length extraMigrations) then
         let issues := mismatch_issues missingMigrations extraMigrations in
         do! console_log [Str (name +:+ ": " +:+ Js.join "; " issues)] in
         ret (Continue,
              push_unhealthy name ("Migration mismatch: " +:+ Js.join "; " issues)
                results)
       else
         do! when (0 <? length expectedMigrations)
               (console_log
                  [Str (name +:+ ": All " +:+ pretty (length expectedMigrations)
                          +:+ " migration(s) applied")]) in
         ret (FallThrough, results))
    (λ migrationError,
       do! console_log [Str (name +:+ ": Migration check failed")] in
       ret (Continue,
            push_unhealthy name
              ("Migration check failed: " +:+ Js.message migrationError) results)).

(** One turn of [for (const { name } of trackedSchemas)]. Every [push] of
    the outer [try] is followed by [continue], so the handler of the outer
    [catch] starts from the results the turn started with. *)
Definition check_schema (expectedMigrations : list string) (name : string)
    (results : health_results) : M health_results :=
  try_catch
    (let! schemaExists := schemaExistsInDatabase name in
     if negb schemaExists then
       do! console_log [Str (name +:+ ": Schema does not exist")] in
       ret (push_unhealthy name ISSUE_NO_SCHEMA results)
     else
       do! setSearchPath name in
       let! tableExists := tableExistsInSchema name DUMMY_TABLE in
       if negb tableExists then
         do! console_log [Str (name +:+ ": dummy_table missing")] in
         ret (push_unhealthy name ISSUE_NO_TABLE results)
       else
         let! status := migration_status expectedMigrations name results in
         match status with
         | (Continue, results) => ret results
         | (FallThrough, results) =>
             do! console_log [Str (name +:+ ": Healthy")] in
             ret (push_healthy name results)
         end)
    (λ error,
       do! console_log [Str (name +:+ ": " +:+ Js.message error)] in
       ret (push_unhealthy name (Js.message error) results)).

Fixpoint check_loop (expectedMigrations : list string)
    (trackedSchemas : list string) (results : health_results) :
    M health_results :=
  match trackedSchemas with
  | [] => ret results
  | name :: rest =>
      let! results' := check_schema expectedMigrations name results in
      check_loop expectedMigrations rest results'
  end.

(** The orphan scan: schemas of the engine that pass the exclusion filter of
    the query and are not tracked. *)
Definition orphan_scan (trackedSchemas : list string) (results : health_results) :
    M health_results :=
  do! console_log [Str "Checking for orphaned schemas..."] in
  let! allSchemas := call ListOrphanCandidates in
  let trackedNames := trackedSchemas in
  let results :=
    fold_left
      (λ r schema_name,
         if negb (Js.includes trackedNames schema_name)
         then push_orphaned schema_name r else r)
      allSchemas results in
  do! (if 0 <? length (orphanedSchemas results) then
         do! console_log
               [Str ("Found " +:+ pretty (length (orphanedSchemas results)) +:+
                     " orphaned schema(s):")] in
         for_each (λ name, console_log [Str ("  - " +:+ name)])
           (orphanedSchemas results)
       else console_log [Str "No orphaned schemas found"]) in
  ret results.

(** The audit proper: everything [healthCheck] does before it prints the
    summary. *)
Definition healthCheck_results : M health_results :=
  do! console_log [Str "=== Tenant Schema Health Check ==="] in
  let! trackedSchemas := call SelectSchemaTracker in
  let results :=
    {| totalSchemas := length trackedSchemas; healthySchemas := [];
       unhealthySchemas := []; orphanedSchemas := [] |} in
  do! console_log
        [Str ("Found " +:+ pretty (length trackedSchemas) +:+ " tracked schema(s)")] in
  let tenantMigrationsFolder := tenant_migrations_folder in
  let! expectedMigrations :=
    try_catch
      (let! expectedMigrations := getExpectedMigrations tenantMigrationsFolder in
       do! console_log
             [Str ("Expected tenant migrations: " +:+
                   pretty (length expectedMigrations))] in
       do! console_log
             [Str (if 0 <? length expectedMigrations
                   then "  " +:+ Js.join ", " expectedMigrations
                   else "  (no migrations)")] in
       ret expectedMigrations)
      (λ error,
         do! console_warn
               [Str ("Warning: Could not read migration journal: " +:+
                     Js.message error)] in
         ret []) in
  let! results := check_loop expectedMigrations trackedSchemas results in
  orphan_scan trackedSchemas results.

Definition print_summary (results : health_results) : M unit :=
  do! console_log [Str "=== Health Check Summary ==="] in
  do! console_log [Str ("Total tracked schemas: " +:+ pretty (totalSchemas results))] in
  do! console_log [Str ("Healthy: " +:+ pretty (length (healthySchemas results)))] in
  do! console_log [Str ("Unhealthy: " +:+ pretty (length (unhealthySchemas results)))] in
  do! console_log [Str ("Orphaned: " +:+ pretty (length (orphanedSchemas results)))] in
  do! when (0 <? length (unhealthySchemas results))
        (do! console_log [Str "Unhealthy schemas:"] in
         for_each
           (λ entry : string * string,
              console_log [Str ("  - " +:+ entry.1 +:+ ": " +:+ entry.2)])
           (unhealthySchemas results)) in
  when (0 <? length (orphanedSchemas results))
    (do! console_log [Str "Orphaned schemas (exist in DB but not tracked):"] in
     for_each (λ name, console_log [Str ("  - " +:+ name)])
       (orphanedSchemas results)).

Definition healthCheck : M unit :=
  do! createPostgresClient in
  try_finally
    (try_catch
       (let! results := healthCheck_results in
        do! print_summary results in
        if (0 <? length (unhealthySchemas results)) ||
           (0 <? length (orphanedSchemas results))
        then process_exit 1
        else
          do! console_log [Str "All schemas are healthy!"] in
          process_exit 0)
       (λ error, handleScriptError error "Health check failed"))
    client_end.

(** *** db-rls/tenant-wrapper: [withTenant] *)

Definition invalid_tenant (tenantId : string) : Js.error :=
  Js.Error ("Invalid tenantId: must be a valid UUID, got: " +:+ tenantId).

(** Modelled from the spec: [appDb.transaction] is the function of the
    library (drizzle-orm over postgres.js), which is not in the repository.
    After the specification of the tenant wrapper: the transaction is
    opened, the callback is invoked, on success the transaction is
    committed, on an error of the callback it is rolled back and the error
    is propagated; a rolled-back transaction leaves the database as it was.
    The statements about [withTenant] use of it only that it opens with
    [BEGIN] and that what it runs is the callback it is given. *)
Definition transaction {T} (cb : M T) : M T := λ s,
  match call Begin s with
  | (Ok _, s1, e1) =>
      match cb s1 with
      | (Ok t, s2, e2) =>
          match call Commit s2 with
          | (Ok _, s3, e3) => (Ok t, s3, e1 ++ e2 ++ e3)
          | (Throw e, s3, e3) => (Throw e, set_db (st_db s1) s3, e1 ++ e2 ++ e3)
          | (Exit c, s3, e3) => (Exit c, s3, e1 ++ e2 ++ e3)
          end
      | (Throw e, s2, e2) =>
          let '(_, s3, e3) := call Rollback s2 in
          (Throw e, set_db (st_db s1) s3, e1 ++ e2 ++ e3)
      | (Exit c, s2, e2) => (Exit c, s2, e1 ++ e2)
      end
  | (Throw e, s1, e1) => (Throw e, s1, e1)
  | (Exit c, s1, e1) => (Exit c, s1, e1)
  end.

Definition tenant_literal (tenantId : string) : string :=
  String Pg.squote (tenantId +:+ String Pg.squote EmptyString).

Definition withTenant {T} (tenantId : string) (operation : M T) : M T :=
  if negb (UUID_REGEX_test tenantId) then throw (invalid_tenant tenantId)
  else
    transaction
      (do! call (SetLocalTenant (tenant_literal tenantId)) in
       operation).

End Host.

(** ** The older copy of the health check ([db/scripts/health-check.ts])

    It runs the same first three checks inline and counts the rows of the
    tracking table without comparing them with the journal. *)

Module Legacy.
Section Host.

Context (h : host).

Definition raw_quoted (name : string) : string :=
  String dquote (name +:+ String dquote EmptyString).

Definition migration_status (name : string) (results : health_results) :
    M (flow * health_results) :=
  try_catch
    (let! migrationsTableExists := call h (TableExists name MIGRATIONS_TABLE) in
     if negb migrationsTableExists then
       do! console_log [Str (name +:+ ": Migration tracking table missing")] in
       ret (Continue, push_unhealthy name ISSUE_NO_TRACKING results)
     else
       let! appliedMigrations := call h (CountMigrations (raw_quoted name)) in
       ret (FallThrough, results))
    (λ migrationError,
       do! console_log [Str (name +:+ ": Migration check failed")] in
       ret (Continue,
            push_unhealthy name
              ("Migration check failed: " +:+ Js.message migrationError) results)).

Definition check_schema (name : string) (results : health_results) :
    M health_results :=
  try_catch
    (let! schemaExists := call h (SchemaExists name) in
     if negb schemaExists then
       do! console_log [Str (name +:+ ": Schema does not exist")] in
       ret (push_unhealthy name ISSUE_NO_SCHEMA results)
     else
       do! setSearchPath h name in
       let! tableExists := call h (TableExists name DUMMY_TABLE) in
       if negb tableExists then
         do! console_log [Str (name +:+ ": dummy_table missing")] in
         ret (push_unhealthy name ISSUE_NO_TABLE results)
       else
         let! status := migration_status name results in
         match status with
         | (Continue, results) => ret results
         | (FallThrough, results) =>
             do! console_log [Str (name +:+ ": Healthy")] in
             ret (push_healthy name results)
         end)
    (λ error,
       do! console_log [Str (name +:+ ": " +:+ Js.message error)] in
       ret (push_unhealthy name (Js.message error) results)).

End Host.
End Legacy.

(** Names the engine keeps whole: not empty, at most 63 bytes, no zero byte. *)
Definition storable (s : string) : Prop :=
  s ≠ EmptyString ∧ String.length s ≤ 63 ∧
  existsb (Ascii.eqb Pg.nul) (Js.chars s) = false.

(** ** What a run sent to the engine *)

Definition calls_of (evs : list event) : list command :=
  omap (λ e, match e with Call c => Some c | _ => None end) evs.

(** The texts of the migration files executed, in order. *)
Definition scripts_of (evs : list event) : list string :=
  omap (λ c, match c with RunScript sql => Some sql | _ => None end) (calls_of evs).

(** The hash literals of the tracking records inserted, in order. *)
Definition inserts_of (evs : list event) : list string :=
  omap (λ c, match c with InsertMigration _ lit _ => Some lit | _ => None end)
    (calls_of evs).

(** The lines a function prints when it has a log prefix. *)
Definition prefixed (logPrefix : string) (lines : list string) : list event :=
  if Js.truthy logPrefix
  then (λ line, ConsoleLog [Str (logPrefix +:+ line)]) <$> lines else [].

(** ** Vocabulary of the statements about migrations *)

(** The tags the journal of a migrations folder lists, when the journal is
    there and parses. *)
Definition journal_of (h : host) (migrationsFolder : string) : option (list string) :=
  f ← files h !! path_join (path_join migrationsFolder "meta") "_journal.json";
  default [] <$> file_journal f.

Definition migration_path (migrationsFolder tag : string) : string :=
  path_join migrationsFolder (tag +:+ ".sql").

Definition script_text (h : host) (migrationsFolder tag : string) : string :=
  default EmptyString (file_text <$> files h !! migration_path migrationsFolder tag).

(** The hashes recorded in the tracking table of a schema (none when the
    table is not there). *)
Definition applied_tags (d : database) (n : string) : list string :=
  (default [] (tracking d n)).*1.

(** The entries of a sequence that are not recorded as applied. *)
Definition pending (d : database) (n : string) (sequence : list string) : list string :=
  List.filter (λ tag, negb (Js.includes (applied_tags d n) tag)) sequence.

(** A tag that can stand between single quotes as it is. *)
Definition quote_free (tag : string) : Prop :=
  existsb (Ascii.eqb Pg.squote) (Js.chars tag) = false.

(** What a call of [applyMigrations] sends and prints when it skips every
    entry of the journal: the two statements on the search path, and for a
    journal with entries the two statements on the tracking table, each
    followed by its lines. *)
Definition skipping_run (n logPrefix : string) (sequence : list string) :
    list event :=
  [Call (SetSearchPath (escapeSchemaName n)); Call ShowSearchPath] ++
  prefixed logPrefix ["Search path set to: " +:+ Js.join ", " [n; "public"]] ++
  (if decide (sequence = []) then prefixed logPrefix ["No migrations to apply"]
   else
     [Call (CreateMigrationsTable (escapeSchemaName n));
      Call (SelectHashes (escapeSchemaName n))] ++
     prefixed logPrefix
       ((λ tag, "Skipping already applied migration: " +:+ tag) <$> sequence)).

(** ** Vocabulary of the statements about runs *)

(** A computation that never ends in [process.exit]. *)
Definition no_exit {A} (m : M A) : Prop :=
  ∀ s c s' evs, m s ≠ (Exit c, s', evs).

(** The outcome of a loop that is stopped by a throw when it would go on. *)
Definition then_throw {A} (e : Js.error) (r : outcome A * state * list event) :
    outcome A * state * list event :=
  match r with
  | (Ok _, s, evs) => (Throw e, s, evs)
  | r => r
  end.

(** A run that throws having executed and recorded no more than the given
    scripts and records, in their order. *)
Definition fails_within {A} (scripts inserts : list string)
    (run : outcome A * state * list event) : Prop :=
  (∃ e, run.1.1 = Throw e) ∧
  scripts_of run.2 `prefix_of` scripts ∧ inserts_of run.2 `prefix_of` inserts.

(** The state a function starts from once it has made its client. *)
Definition fresh_client (s : state) : state :=
  set_db (set_search_path ["public"] (st_db s)) s.

(** What [createTenantSchemaWithMigrations] does for each name of a list,
    one after the other: the name with the outcome of its call. *)
Fixpoint attempts (h : host) (schemas : list string) (s : state) :
    list (string * outcome unit) :=
  match schemas with
  | [] => []
  | name :: rest =>
      let run := createTenantSchemaWithMigrations h name s in
      (name, run.1.1) :: attempts h rest run.1.2
  end.

(** The state the attempts leave: each call starts where the one before
    ended. *)
Fixpoint attempts_end (h : host) (schemas : list string) (s : state) : state :=
  match schemas with
  | [] => s
  | name :: rest =>
      attempts_end h rest (createTenantSchemaWithMigrations h name s).1.2
  end.

(** The line [migrateAllTenantSchemas] prints after an attempt. *)
Definition attempt_line (name : string) (o : outcome unit) : list event :=
  match o with
  | Ok _ => [ConsoleLog [Str ("Successfully migrated schema: " +:+ name)]]
  | Throw error =>
      [ConsoleError
         [Str ("Failed to migrate schema " +:+ name +:+ ":"); Str (Js.message error)]]
  | Exit _ => []
  end.

(** What the attempts send and print: for each name its announcement, all
    the events of its call, and the line of its outcome. *)
Fixpoint attempts_log (h : host) (schemas : list string) (s : state) : list event :=
  match schemas with
  | [] => []
  | name :: rest =>
      let run := createTenantSchemaWithMigrations h name s in
      [ConsoleLog [Str ("Migrating schema: " +:+ name)]] ++ run.2 ++
      attempt_line name run.1.1 ++ attempts_log h rest run.1.2
  end.

Definition succeeded (a : string * outcome unit) : bool :=
  match a.2 with Ok _ => true | _ => false end.

(** The report entry of a failed attempt. *)
Definition failure_entry (a : string * outcome unit) : option (string * string) :=
  match a.2 with
  | Throw e => Some (a.1, Js.message e)
  | _ => None
  end.

(** What the [catch] block writes to the console after its drop. *)
Definition cleanup_log (name : string) (r : outcome unit * state * list event) :
    list event :=
  match r with
  | (Throw cleanupError, _, _) =>
      [ConsoleError
         [Str ("Failed to cleanup schema " +:+ name +:+ ":"); Err cleanupError]]
  | _ => []
  end.

(** The report [migrate_loop] keeps: one more success or one more entry. *)
Definition tally (results : migrate_results) (a : list (string * outcome unit)) :
    migrate_results :=
  {| success := success results + length (List.filter succeeded a);
     failures := failures results + length (omap failure_entry a);
     errors := errors results ++ omap failure_entry a |}.

(** ** The audit in the words of the specification

    For a registered name: (a) the namespace exists, (b) the expected table
    exists under it, (c) the tracking table exists, (d) the applied tags are
    the expected tags; the first check that fails gives the defect. *)

Inductive defect : Type :=
  | NamespaceMissing
  | TableMissing
  | TrackingTableMissing
  | MigrationMismatch (missing extra : list string).

Definition audit_schema (d : database) (expectedTags : list string)
    (name : string) : option defect :=
  if negb (schema_exists d name) then Some NamespaceMissing
  else if negb (table_exists d name DUMMY_TABLE) then Some TableMissing
  else
    match tracking d name with
    | None => Some TrackingTableMissing
    | Some rows =>
        let appliedTags := rows.*1 in
        match missing_of expectedTags appliedTags,
              extra_of expectedTags appliedTags with
        | [], [] => None
        | missing, extra => Some (MigrationMismatch missing extra)
        end
    end.

(** The issue text [healthCheck] reports for a defect. *)
Definition issue_of (d : defect) : string :=
  match d with
  | NamespaceMissing => ISSUE_NO_SCHEMA
  | TableMissing => ISSUE_NO_TABLE
  | TrackingTableMissing => ISSUE_NO_TRACKING
  | MigrationMismatch missing extra =>
      "Migration mismatch: " +:+ Js.join "; " (mismatch_issues missing extra)
  end.

Definition report (name : string) (verdict : option defect)
    (results : health_results) : health_results :=
  match verdict with
  | None => push_healthy name results
  | Some d => push_unhealthy name (issue_of d) results
  end.

(** ** A small installation to run the functions on *)

Module Demo.

(** [CREATE TABLE] in a given schema, which must exist. *)
Definition create_in (n t : string) (d : database) : Js.error + database :=
  match db_schemas d !! n with
  | Some sc => inr (set_schemas (insert n (<[t := []]> sc)) d)
  | None => inl (no_schema n)
  end.

(** [CREATE TABLE] in the first schema of the search path that exists. *)
Definition create_in_path (t : string) (d : database) : Js.error + database :=
  match List.find (schema_exists d) (db_search_path d) with
  | Some n => create_in n t d
  | None => inl (Js.Error "no schema has been selected to create in")
  end.

Definition SQL_CREATE : string := "CREATE TABLE dummy_table (id uuid PRIMARY KEY)".
Definition SQL_ALTER : string := "ALTER TABLE dummy_table ADD COLUMN description text".
Definition SQL_CREATE_PUBLIC : string :=
  "CREATE TABLE public.dummy_table (id uuid PRIMARY KEY)".

Definition exec (sql : string) (d : database) : Js.error + database :=
  if String.eqb sql SQL_CREATE then create_in_path "dummy_table" d
  else if String.eqb sql SQL_CREATE_PUBLIC then create_in "public" "dummy_table" d
  else if String.eqb sql SQL_ALTER then inr d
  else inl (Js.Error "syntax error").

Definition plain (text : string) : file :=
  {| file_text := text; file_journal := None |}.
Definition journal (tags : list string) : file :=
  {| file_text := "{ entries }"; file_journal := Some (Some tags) |}.

Definition JOURNAL : string := "/app/db/migrations/tenant/meta/_journal.json".
Definition FILE_0000 : string := "/app/db/migrations/tenant/0000_init.sql".
Definition FILE_0001 : string := "/app/db/migrations/tenant/0001_description.sql".

(** Both migrations and their files. *)
Definition host_full : host :=
  {| files := list_to_map
       [(JOURNAL, journal ["0000_init"; "0001_description"]);
        (FILE_0000, plain SQL_CREATE); (FILE_0001, plain SQL_ALTER)];
     cwd := "/app"; exec_script := exec |}.

(** The journal names a second migration whose file is not there. *)
Definition host_missing_file : host :=
  {| files := list_to_map
       [(JOURNAL, journal ["0000_init"; "0001_description"]);
        (FILE_0000, plain SQL_CREATE)];
     cwd := "/app"; exec_script := exec |}.

(** The one migration names its table with the schema [public]. *)
Definition host_misrouted : host :=
  {| files := list_to_map
       [(JOURNAL, journal ["0000_init"]); (FILE_0000, plain SQL_CREATE_PUBLIC)];
     cwd := "/app"; exec_script := exec |}.

(** One migration, whose tag holds two single quotes. *)
Definition QUOTED_TAG : string := "a''b".
Definition FILE_QUOTED : string := "/app/db/migrations/tenant/a''b.sql".
Definition host_quoted : host :=
  {| files := list_to_map
       [(JOURNAL, journal [QUOTED_TAG]); (FILE_QUOTED, plain SQL_ALTER)];
     cwd := "/app"; exec_script := exec |}.

(** A journal without entries. *)
Definition host_empty_journal : host :=
  {| files := list_to_map [(JOURNAL, journal [])];
     cwd := "/app"; exec_script := exec |}.

Definition db_of (schemas : list (string * list (string * list migration_row)))
    (tracker : list string) : database :=
  {| db_schemas := list_to_map (prod_map id list_to_map <$> schemas);
     db_tracker := tracker; db_search_path := ["public"] |}.

Definition state_of (d : database) (faults : list (option string)) : state :=
  {| st_db := d; st_faults := faults; st_clock := 1700000000000 |}.

Definition fresh : state := state_of (db_of [("public", [])] []) [].

Definition TENANT : string := "tenant_001".
Definition FOLDER : string := "/app/db/migrations/tenant".
Definition SEQUENCE : list string := ["0000_init"; "0001_description"].

(** Three registered tenants and a connection that breaks at its
    thirteenth statement, the first one sent for the second tenant. *)
Definition fleet : state :=
  state_of (db_of [("public", [])] ["tenant_a"; "tenant_b"; "tenant_c"])
    (replicate 12 None ++ [Some "connection lost"]).

Definition NO_RESULTS : health_results :=
  {| totalSchemas := 0; healthySchemas := []; unhealthySchemas := [];
     orphanedSchemas := [] |}.

Definition ROW_0000 : migration_row := ("0000_init", 1700000000000%Z).
Definition ROW_0001 : migration_row := ("0001_description", 1700000000000%Z).

(** The tenant has its table; its tracking table lacks the second tag. *)
Definition half_migrated : state :=
  state_of
    (db_of [("public", []);
            (TENANT, [("dummy_table", []); (MIGRATIONS_TABLE, [ROW_0000])])]
       [TENANT]) [].

(** Three registered names: one up to date, one behind, one whose schema
    was dropped; and two schemas nobody registered. *)
Definition audited : state :=
  state_of
    (db_of [("public", []);
            ("tenant_001", [("dummy_table", []);
                            (MIGRATIONS_TABLE, [ROW_0000; ROW_0001])]);
            ("tenant_002", [("dummy_table", []); (MIGRATIONS_TABLE, [ROW_0000])]);
            ("legacy_tenant", [("dummy_table", [])]);
            ("pgboss", [])]
       ["tenant_001"; "tenant_002"; "tenant_003"]) [].

(** The schema of the tenant is there, empty, and registered. *)
Definition ready : state :=
  state_of (db_of [("public", []); (TENANT, [])] [TENANT]) [].

End Demo.

(** * Further functions of the sources *)

Section Scripts.

Context (h : host).

(** ** scripts/migrate-public: [migratePublic] *)

Definition public_migrations_folder : string :=
  path_join (path_join (path_join (cwd h) "db") "migrations") "public".

Definition migratePublic : M unit :=
  do! createPostgresClient in
  try_finally
    (try_catch
       (do! console_log
              [Str "Applying migrations to public schema (schema_tracker only)..."] in
        let migrationsFolder := public_migrations_folder in
        do! applyMigrations h "public" migrationsFolder "  " in
        do! console_log [Str "Public schema migrations applied successfully"] in
        console_log [Str "Only schema_tracker table exists in public schema"])
       (λ error, handleScriptError error "Error applying public schema migrations"))
    client_end.

(** ** scripts/migrate-tenants: [main] *)

Definition migrate_tenants_main : M unit :=
  do! console_log [Str "Starting tenant schema migrations..."] in
  try_catch
    (let! results := migrateAllTenantSchemas h in
     if 0 <? failures results then
       do! console_error [Str "Some migrations failed:"] in
       do! for_each
             (λ entry : string * string,
                console_error [Str ("  - " +:+ entry.1 +:+ ": " +:+ entry.2)])
             (errors results) in
       process_exit 1
     else if success results =? 0 then
       do! console_log [Str "No tenant schemas found to migrate."] in
       process_exit 0
     else
       do! console_log [Str "All tenant schema migrations completed successfully"] in
       process_exit 0)
    (λ error, handleScriptError error "Fatal error during migration").

(** ** shared/db-utils: [tableExists], [checkMigrations] *)

(** The two kinds of connection the functions take: a raw postgres client
    or a Drizzle database ([isPostgresClient]). *)
Inductive connection : Type := PostgresClient | DrizzleDb.

Definition isPostgresClient (c : connection) : bool :=
  match c with PostgresClient => true | DrizzleDb => false end.

Definition tableExists (c : connection) (schemaName tableName : string) : M bool :=
  try_catch
    (if isPostgresClient c then call h (TableExists schemaName tableName)
     else call h (TableExists schemaName tableName))
    (λ error, ret false).

Definition checkMigrations (c : connection)
    (schemaName tableName migrationCommand : string) : M unit :=
  try_catch
    (let! exists_ := tableExists c schemaName tableName in
     if negb exists_ then
       do! console_error [Str "Error: Migrations have not been run."] in
       do! console_error
             [Str ("   The " +:+ tableName +:+ " table does not exist in " +:+
                   schemaName +:+ " schema.")] in
       do! console_error [Str "   Please run migrations first:"] in
       do! console_error [Str ("   " +:+ migrationCommand)] in
       process_exit 1
     else ret tt)
    (λ error,
       do! console_error [Str "Error checking migrations:"; Err error] in
       do! console_error [Str "   Please ensure migrations are run:"] in
       do! console_error [Str ("   " +:+ migrationCommand)] in
       process_exit 1).

End Scripts.

(** ** Vocabulary of the further statements *)

(** A computation whose events all satisfy [P] and which takes a state to
    one related by [R], whatever its outcome. *)
Definition within {A} (P : event → Prop) (R : relation state) (m : M A) : Prop :=
  ∀ s, Forall P (m s).2 ∧ R s (m s).1.2.

Definition any_state (s s' : state) : Prop := True.

(** Databases with the same schemas, tables, rows and registry. *)
Definition same_data (d d' : database) : Prop :=
  db_schemas d' = db_schemas d ∧ db_tracker d' = db_tracker d.

(** States with the same data, the later on a sound connection if the
    earlier was. *)
Definition undisturbed (s s' : state) : Prop :=
  same_data (st_db s) (st_db s') ∧ (st_faults s = [] → st_faults s' = []).

(** What [applyMigrations] does: six kinds of statement, and console lines. *)
Definition applier_event (e : event) : bool :=
  match e with
  | Call (SetSearchPath _ | ShowSearchPath | CreateMigrationsTable _
         | SelectHashes _ | RunScript _ | InsertMigration _ _ _) => true
  | ConsoleLog _ => true
  | _ => false
  end.

(** What [healthCheck] does: a client, queries, [SET search_path], console
    lines. *)
Definition audit_event (e : event) : bool :=
  match e with
  | Call (SelectSchemaTracker | ListOrphanCandidates | SchemaExists _
         | TableExists _ _ | SetSearchPath _ | SelectHashes _) => true
  | NewClient | ConsoleLog _ | ConsoleWarn _ | ConsoleError _ => true
  | _ => false
  end.

(** The answer of [tableExists] in a state: a failed query reads as an
    absent table. *)
Definition table_found (s : state) (schemaName tableName : string) : bool :=
  match st_faults s with
  | Some _ :: _ => false
  | _ => table_exists (st_db s) schemaName tableName
  end.

(** A computation that never returns a value, and one that always ends the
    process. *)
Definition never_returns {A} (m : M A) : Prop := ∀ s a, (m s).1.1 ≠ Ok a.
Definition always_exits {A} (m : M A) : Prop := ∀ s, ∃ c, (m s).1.1 = Exit c.

(** Anything but [DROP SCHEMA]. *)
Definition not_a_drop (e : event) : Prop :=
  ∀ ident, e ≠ Call (DropSchemaIfExistsCascade ident).

(** The first three checks of the audit, which are all the older copy of
    the health check makes. *)
Definition legacy_audit (d : database) (name : string) : option defect :=
  if negb (schema_exists d name) then Some NamespaceMissing
  else if negb (table_exists d name DUMMY_TABLE) then Some TableMissing
  else if negb (table_exists d name MIGRATIONS_TABLE) then Some TrackingTableMissing
  else None.

(** The whole audit as a function of the database: the registered names
    whose four checks pass, the others with the issue of their first failed
    check, and the schemas that pass the filter of the orphan query and are
    not registered. *)
Definition healthy_in (d : database) (expected : list string) (name : string) : bool :=
  match audit_schema d expected name with None => true | Some _ => false end.

Definition issue_in (d : database) (expected : list string) (name : string) :
    option (string * string) :=
  match audit_schema d expected name with
  | None => None
  | Some defect => Some (name, issue_of defect)
  end.

Definition audit_all (d : database) (expected tracked : list string) : health_results :=
  {| totalSchemas := length tracked;
     healthySchemas := List.filter (healthy_in d expected) tracked;
     unhealthySchemas := omap (issue_in d expected) tracked;
     orphanedSchemas :=
       List.filter (λ n, negb (Js.includes tracked n))
         (filter (λ n, orphan_candidate n = true)
            (sorted_names (elements (dom (db_schemas d))))) |}.

(** A tenant as [createTenantSchemaWithMigrations] leaves it: a valid name,
    [dummy_table] in its schema, every entry of the journal with its file
    and its record. *)
Definition provisioned (h : host) (seq : list string) (d : database)
    (name : string) : Prop :=
  validateSchemaName name = None ∧
  table_exists d name DUMMY_TABLE = true ∧
  (seq ≠ [] → is_Some (tracking d name)) ∧
  Forall (λ tag,
            existsSync h (migration_path (tenant_migrations_folder h) tag) = true ∧
            Js.includes (applied_tags d name) tag = true) seq.

(** * Properties *)

Ltac each_ascii c := destruct c as [[] [] [] [] [] [] [] []].

(** ** Strings *)

Lemma app_String (c : ascii) (a b : string) : String c a +:+ b = String c (a +:+ b).
Proof. done. Qed.

Lemma app_empty_l (b : string) : EmptyString +:+ b = b.
Proof. done. Qed.

Lemma chars_string (c : ascii) (s : string) : Js.chars (String c s) = c :: Js.chars s.
Proof. done. Qed.

Lemma chars_app (a b : string) : Js.chars (a +:+ b) = Js.chars a ++ Js.chars b.
Proof.
  induction a as [|c a IH]; [done|].
  by rewrite app_String, !chars_string, IH.
Qed.

Lemma of_chars (s : string) : string_of_list_ascii (Js.chars s) = s.
Proof. apply string_of_list_ascii_of_string. Qed.

Lemma chars_length (s : string) : length (Js.chars s) = String.length s.
Proof. unfold Js.chars. induction s; cbn; congruence. Qed.

Lemma app_length_string (a b : string) :
  String.length (a +:+ b) = String.length a + String.length b.
Proof.
  induction a as [|c a IH]; [done|].
  rewrite app_String. cbn. by rewrite IH.
Qed.

(** Replacing a character that does not occur changes nothing. *)
Lemma replaceAll_absent (c : ascii) (by_ s : string) :
  existsb (Ascii.eqb c) (Js.chars s) = false → Js.replaceAll c by_ s = s.
Proof.
  induction s as [|d s IH]; [done|]. cbn. intros H.
  apply orb_false_iff in H as [Hd Hs]. rewrite Ascii.eqb_sym, Hd.
  f_equal. auto.
Qed.

(** ** The engine reads back what [escapeSchemaName] writes *)

Lemma unquote_escaped (q : ascii) (s : string) :
  Pg.unquote q
    (Js.chars (Js.replaceAll q (String q (String q EmptyString)) s) ++ [q])
  = Some (Js.chars s).
Proof.
  induction s as [|d s IH].
  - cbn. by rewrite Ascii.eqb_refl.
  - cbn [Js.replaceAll]. destruct (Ascii.eqb d q) eqn:Hd.
    + apply Ascii.eqb_eq in Hd as ->.
      rewrite !app_String, app_empty_l, !chars_string. cbn [app Pg.unquote].
      rewrite !Ascii.eqb_refl, IH. done.
    + rewrite !chars_string. cbn [app Pg.unquote]. rewrite Hd, IH. done.
Qed.

Lemma escapeSchemaName_quoted (s : string) :
  s ≠ "public" →
  escapeSchemaName s =
    String dquote
      (Js.replaceAll dquote (String dquote (String dquote EmptyString)) s
         +:+ String dquote EmptyString).
Proof.
  intros Hs. unfold escapeSchemaName.
  destruct (String.eqb s "public") eqn:E; [|done].
  by apply String.eqb_eq in E.
Qed.

Lemma identifier_escaped (s : string) :
  storable s → Pg.identifier (escapeSchemaName s) = Some s.
Proof.
  intros (Hne & Hlen & Hnul).
  destruct (decide (s = "public")) as [->|Hp]; [done|].
  rewrite escapeSchemaName_quoted by done.
  unfold Pg.identifier. rewrite chars_string, Ascii.eqb_refl, chars_app.
  change (Js.chars (String dquote EmptyString)) with [dquote].
  rewrite unquote_escaped.
  destruct (Js.chars s) as [|c r] eqn:Hc.
  { destruct s; [done | discriminate]. }
  rewrite Hnul. unfold Pg.truncate_identifier.
  rewrite take_ge by (rewrite <- Hc, chars_length; lia).
  by rewrite <- Hc, of_chars.
Qed.

(** ** Names accepted by [validateSchemaName] *)

Lemma ident_part_plain (c : ascii) :
  Regex.class_has ident_part c = true →
  Ascii.eqb dquote c = false ∧ Ascii.eqb Pg.nul c = false.
Proof. each_ascii c; vm_compute; intros; (done || split; reflexivity). Qed.

Lemma ident_start_part (c : ascii) :
  Regex.class_has ident_start c = true → Regex.class_has ident_part c = true.
Proof. each_ascii c; vm_compute; done. Qed.

Lemma ident_chars (s : string) :
  IDENT_REGEX_test s = true →
  Forall (λ c, Regex.class_has ident_part c = true) (Js.chars s).
Proof.
  unfold IDENT_REGEX_test. destruct (Js.chars s) as [|c r]; [done|].
  intros [Hc Hr]%andb_true_iff. constructor.
  - by apply ident_start_part.
  - apply Forall_forall. intros x Hx%list_elem_of_In.
    rewrite forallb_forall in Hr. by apply Hr.
Qed.

Lemma existsb_absent (q : ascii) (l : list ascii) :
  Forall (λ c, Ascii.eqb q c = false) l → existsb (Ascii.eqb q) l = false.
Proof. induction 1 as [|c l Hc _ IH]; cbn; [done|]. by rewrite Hc, IH. Qed.

Lemma ident_part_unit (c : ascii) :
  Regex.class_has ident_part c = true → Js.utf16_units c = 1.
Proof. each_ascii c; vm_compute; done. Qed.

(** A text of identifier characters has as many UTF-16 units as bytes. *)
Lemma length_ident (s : string) :
  Forall (λ c, Regex.class_has ident_part c = true) (Js.chars s) →
  Js.length s = String.length s.
Proof.
  induction s as [|c s IH]; [done|]. rewrite chars_string.
  intros [Hc Hs]%Forall_cons. cbn [Js.length String.length].
  by rewrite (ident_part_unit c Hc), IH.
Qed.

Lemma validated_name (s : string) :
  validateSchemaName s = None →
  storable s ∧ s ≠ "public" ∧ existsb (Ascii.eqb dquote) (Js.chars s) = false.
Proof.
  unfold validateSchemaName.
  destruct (Js.truthy s) eqn:Ht; [|done]. cbn [negb].
  destruct (63 <? Js.length s) eqn:Hl; [done|].
  destruct (IDENT_REGEX_test s) eqn:Hi; [|done]. cbn [negb].
  destruct (Js.includes reservedKeywords (Js.toLowerCase s)) eqn:Hr; [done|].
  intros _. apply ident_chars in Hi. rewrite (length_ident s Hi) in Hl.
  assert (s ≠ "public") as Hp by (intros ->; vm_compute in Hr; done).
  apply Nat.ltb_ge in Hl.
  repeat split; try done.
  - intros ->. done.
  - apply existsb_absent. eapply Forall_impl; [exact Hi|].
    intros c Hc. by apply ident_part_plain.
  - apply existsb_absent. eapply Forall_impl; [exact Hi|].
    intros c Hc. by apply ident_part_plain.
Qed.

(** C10, as amended. [escapeSchemaName] returns [public] for the input
    [public] and otherwise the input between double quotes with every
    embedded double quote doubled. For every input that is not empty, at
    most 63 bytes long and free of the zero byte the result is an identifier
    token that PostgreSQL reads back as exactly the input; for every name
    accepted by [validateSchemaName] the result is the name between double
    quotes, no character altered. *)
Theorem escapeSchemaName_denotes (s : string) :
  escapeSchemaName "public" = "public" ∧
  (s ≠ "public" →
     escapeSchemaName s =
       String dquote
         (Js.replaceAll dquote (String dquote (String dquote EmptyString)) s
            +:+ String dquote EmptyString)) ∧
  (storable s → Pg.identifier (escapeSchemaName s) = Some s) ∧
  (validateSchemaName s = None →
     escapeSchemaName s = String dquote (s +:+ String dquote EmptyString) ∧
     Pg.identifier (escapeSchemaName s) = Some s).
Proof.
  split; [done|]. split; [apply escapeSchemaName_quoted|].
  split; [apply identifier_escaped|].
  intros (Hst & Hp & Hq)%validated_name. split.
  - rewrite escapeSchemaName_quoted by done.
    by rewrite replaceAll_absent.
  - by apply identifier_escaped.
Qed.

Lemma escapeSchemaName_denotes_witness :
  escapeSchemaName "tenant_001" =
    String dquote ("tenant_001" +:+ String dquote EmptyString) ∧
  Pg.identifier (escapeSchemaName "tenant_001") = Some "tenant_001".
Proof.
  destruct (escapeSchemaName_denotes "tenant_001") as (_ & _ & _ & H).
  apply H. reflexivity.
Defined.

(** C10 as stated fails on the empty name: the result is the zero-length
    delimited identifier, which is not an identifier of PostgreSQL. *)
Lemma escapeSchemaName_empty_rejected :
  escapeSchemaName EmptyString = String dquote (String dquote EmptyString) ∧
  Pg.identifier (escapeSchemaName EmptyString) = None.
Proof. split; reflexivity. Qed.

(** A name with a zero byte is no identifier either. *)
Lemma escapeSchemaName_nul_rejected :
  Pg.identifier (escapeSchemaName (String Pg.nul "a")) = None.
Proof. reflexivity. Qed.

(** A name of 64 bytes is read back cut to 63. *)
Lemma escapeSchemaName_long_truncated :
  let name := "a123456789b123456789c123456789d123456789e123456789f123456789g123" in
  String.length name = 64 ∧
  Pg.identifier (escapeSchemaName name) ≠ Some name.
Proof. split; [reflexivity|]. vm_compute. discriminate. Qed.

(** ** [UUID_REGEX] accepts exactly the canonical UUID grammar *)

Lemma is_hex_value (c : ascii) : is_hex c = true ↔ is_Some (hex_value c).
Proof.
  each_ascii c; vm_compute; split; intros H; try done; try (by eexists);
    by destruct H.
Qed.

Lemma is_dash (c : ascii) : is_char "-" c = true ↔ c = "-"%char.
Proof. each_ascii c; vm_compute; split; intros H; done. Qed.

Lemma is_version (c : ascii) : is_char "4" c = true ↔ hex_value c = Some 4%N.
Proof. each_ascii c; vm_compute; split; intros H; done. Qed.

Lemma is_variant_value (c : ascii) :
  is_variant c = true ↔
  ∃ v, hex_value c = Some v ∧ (v = 8 ∨ v = 9 ∨ v = 10 ∨ v = 11)%N.
Proof.
  each_ascii c; vm_compute; split; intros H; try done;
    try (eexists; split; [reflexivity|]; tauto);
    destruct H as (v & Hv & Hd); simplify_eq; intuition discriminate.
Qed.

Lemma test_seq_app (t1 t2 : list (ascii → bool)) (l : list ascii) :
  Regex.test_seq (t1 ++ t2) l = true ↔
  ∃ l1 l2, l = l1 ++ l2 ∧ Regex.test_seq t1 l1 = true ∧ Regex.test_seq t2 l2 = true.
Proof.
  revert l. induction t1 as [|t t1 IH]; intros l; cbn [app Regex.test_seq].
  - split.
    + intros H. by exists [], l.
    + intros (l1 & l2 & -> & H1 & H2). by destruct l1.
  - destruct l as [|c r].
    + split; [done|]. intros (l1 & l2 & Hl & H1 & _).
      destruct l1; [done|discriminate].
    + rewrite andb_true_iff, IH. split.
      * intros (Hc & l1 & l2 & -> & H1 & H2). exists (c :: l1), l2.
        cbn [Regex.test_seq]. by rewrite Hc, H1.
      * intros (l1 & l2 & Hl & H1 & H2). destruct l1 as [|c' l1]; [done|].
        cbn [Regex.test_seq] in H1. apply andb_true_iff in H1 as [Hc H1].
        simplify_eq/=. eauto 10.
Qed.

Lemma test_seq_cons (t : ascii → bool) (ts : list (ascii → bool)) (l : list ascii) :
  Regex.test_seq (t :: ts) l = true ↔
  ∃ c r, l = c :: r ∧ t c = true ∧ Regex.test_seq ts r = true.
Proof.
  destruct l as [|c r]; cbn [Regex.test_seq].
  - split; [done|]. by intros (? & ? & ? & _).
  - rewrite andb_true_iff. split; [eauto 10|].
    by intros (? & ? & [= <- <-] & ? & ?).
Qed.

Lemma test_seq_hex (n : nat) (l : list ascii) :
  Regex.test_seq (repeat is_hex n) l = true ↔ hex_group n l.
Proof.
  unfold hex_group. revert l. induction n as [|n IH]; intros l; cbn [repeat].
  - destruct l; cbn; split; try done; [by intros [? _]].
  - rewrite test_seq_cons. split.
    + intros (c & r & -> & Hc & Hr). apply IH in Hr as [<- Hr].
      split; [done|]. constructor; [by apply is_hex_value|done].
    + intros [Hlen Hall]. destruct l as [|c r]; [done|].
      inversion Hall; subst. exists c, r. split; [done|].
      split; [by apply is_hex_value|]. apply IH. split; [|done].
      cbn in Hlen. lia.
Qed.

Lemma UUID_REGEX_canonical (s : string) :
  UUID_REGEX_test s = true ↔ canonical_uuid s.
Proof.
  unfold UUID_REGEX_test, canonical_uuid, UUID_REGEX. split.
  - intros H.
    apply test_seq_app in H as (g1 & r1 & E1 & H1 & H).
    apply test_seq_cons in H as (d1 & r1' & -> & ->%is_dash & H).
    apply test_seq_app in H as (g2 & r2 & -> & H2 & H).
    apply test_seq_cons in H as (d2 & r2' & -> & ->%is_dash & H).
    apply test_seq_cons in H as (v & r3 & -> & Hv & H).
    apply test_seq_app in H as (g3 & r3' & -> & H3 & H).
    apply test_seq_cons in H as (d3 & r3'' & -> & ->%is_dash & H).
    apply test_seq_cons in H as (w & r4 & -> & Hw & H).
    apply test_seq_app in H as (g4 & r4' & -> & H4 & H).
    apply test_seq_cons in H as (d4 & g5 & -> & ->%is_dash & H5).
    apply test_seq_hex in H1, H2, H3, H4, H5.
    exists g1, g2, (v :: g3), (w :: g4), g5.
    apply is_version in Hv. pose proof Hw as Hw'. apply is_variant_value in Hw.
    destruct H1 as [L1 F1], H2 as [L2 F2], H3 as [L3 F3], H4 as [L4 F4],
      H5 as [L5 F5], Hw as (x & Hx & Hd).
    repeat split; try done.
    + cbn. by rewrite L3.
    + constructor; [by rewrite Hv|done].
    + cbn. by rewrite L4.
    + constructor; [by rewrite Hx|done].
    + cbn. eauto.
  - intros (g1 & g2 & g3 & g4 & g5 & E & H1 & H2 & H3 & H4 & H5 & Hv & Hw).
    rewrite E. destruct g3 as [|v g3]; [done|]. destruct g4 as [|w g4].
    { by destruct Hw as (? & ? & _). }
    cbn in Hv, Hw.
    apply test_seq_app. exists g1, ("-"%char :: g2 ++ "-"%char :: (v :: g3) ++ "-"%char :: (w :: g4) ++ "-"%char :: g5).
    split; [done|]. split; [by apply test_seq_hex|].
    apply test_seq_cons. eexists _, _. split; [done|]. split; [by apply is_dash|].
    apply test_seq_app. eexists _, _. split; [done|]. split; [by apply test_seq_hex|].
    apply test_seq_cons. eexists _, _. split; [done|]. split; [by apply is_dash|].
    apply test_seq_cons. eexists _, _. split; [done|]. split; [by apply is_version|].
    destruct H3 as [L3 F3], H4 as [L4 F4]. inversion F3; inversion F4; subst.
    apply test_seq_app. eexists _, _. split; [done|].
    split; [apply test_seq_hex; split; [cbn in L3; lia|done]|].
    apply test_seq_cons. eexists _, _. split; [done|]. split; [by apply is_dash|].
    apply test_seq_cons. eexists _, _. split; [done|].
    split; [by apply is_variant_value|].
    apply test_seq_app. eexists _, _. split; [done|].
    split; [apply test_seq_hex; split; [cbn in L4; lia|done]|].
    apply test_seq_cons. eexists _, _. split; [done|]. split; [by apply is_dash|].
    by apply test_seq_hex.
Qed.

(** ** [withTenant] *)

Lemma transaction_begins {T} (h : host) (cb : M T) (s : state) :
  ∃ evs, (transaction h cb s).2 = Call Begin :: evs.
Proof.
  unfold transaction.
  assert (∃ r s1, call h Begin s = (r, s1, [Call Begin])) as (r & s1 & ->).
  { unfold call. destruct (st_faults s) as [|[msg|] fs]; cbn; eauto. }
  destruct r as [[]|e|c]; cbn; eauto.
  destruct (cb s1) as [[[t|e|c] s2] e2]; cbn; eauto.
  - destruct (call h Commit s2) as [[[?|?|?] ?] ?]; cbn; eauto.
  - destruct (call h Rollback s2) as [[? ?] ?]; cbn; eauto.
Qed.

(** C1. A tenant id outside the canonical UUID grammar makes [withTenant]
    throw the invalid-tenant error with nothing sent and the state
    untouched; for an id inside the grammar the validation does not throw:
    the call is the transaction, whose first act is to open it. *)
Theorem withTenant_validates {T : Type} (h : host) (tenantId : string)
    (operation : M T) (s : state) :
  (¬ canonical_uuid tenantId →
     withTenant h tenantId operation s = (Throw (invalid_tenant tenantId), s, [])) ∧
  (canonical_uuid tenantId →
     withTenant h tenantId operation s =
       transaction h
         (do! call h (SetLocalTenant (tenant_literal tenantId)) in operation) s ∧
     ∃ evs, (withTenant h tenantId operation s).2 = Call Begin :: evs).
Proof.
  unfold withTenant. split; intros H.
  - destruct (UUID_REGEX_test tenantId) eqn:E; [|done].
    by apply UUID_REGEX_canonical in E.
  - apply UUID_REGEX_canonical in H. rewrite H. split; [done|].
    apply transaction_begins.
Qed.

Lemma withTenant_validates_witness :
  withTenant Demo.host_full "1 OR 1=1" (ret tt) Demo.fresh
    = (Throw (invalid_tenant "1 OR 1=1"), Demo.fresh, []) ∧
  ∃ evs,
    (withTenant Demo.host_full "11111111-1111-4111-8111-111111111111" (ret tt)
       Demo.fresh).2 = Call Begin :: evs.
Proof.
  split.
  - apply (withTenant_validates Demo.host_full "1 OR 1=1" (ret tt) Demo.fresh).
    intros H%UUID_REGEX_canonical. vm_compute in H. discriminate.
  - apply (withTenant_validates Demo.host_full
             "11111111-1111-4111-8111-111111111111" (ret tt) Demo.fresh).
    apply UUID_REGEX_canonical. reflexivity.
Defined.

(** ** Reasoning about computations *)

Lemma bind_Ok_inv {A B} (m : M A) (k : A → M B) s b s' evs :
  bind m k s = (Ok b, s', evs) →
  ∃ a s1 e1 e2, m s = (Ok a, s1, e1) ∧ k a s1 = (Ok b, s', e2) ∧ evs = e1 ++ e2.
Proof.
  unfold bind. destruct (m s) as [[[a|e|c] s1] e1]; [|done..].
  destruct (k a s1) as [[r s2] e2] eqn:Hk. intros [= -> -> <-]. eauto 10.
Qed.

Lemma bind_Ok {A B} (m : M A) (k : A → M B) s a s1 e1 :
  m s = (Ok a, s1, e1) →
  bind m k s = (let '(r, s2, e2) := k a s1 in (r, s2, e1 ++ e2)).
Proof. unfold bind. by intros ->. Qed.

Lemma bind_Throw {A B} (m : M A) (k : A → M B) s e s1 e1 :
  m s = (Throw e, s1, e1) → bind m k s = (Throw e, s1, e1).
Proof. unfold bind. by intros ->. Qed.

Lemma set_faults_same (s : state) : set_faults (st_faults s) s = s.
Proof. by destruct s. Qed.

Lemma call_Ok_inv (h : host) (c : command) s r s1 evs :
  call h c s = (Ok r, s1, evs) →
  ∃ d, engine h c (st_db s) = inr (r, d) ∧
       s1 = set_db d (set_faults (tail (st_faults s)) s) ∧ evs = [Call c].
Proof.
  unfold call. destruct (st_faults s) as [|[msg|] fs]; [|done|];
    (destruct (engine h c (st_db s)) as [e|[r' d]]; [done|];
     intros [= -> <- <-]; eauto).
Qed.

(** On a sound connection a statement has the effect the engine gives it. *)
Lemma call_sound (h : host) (c : command) (s : state) :
  st_faults s = [] →
  call h c s =
    match engine h c (st_db s) with
    | inl e => (Throw e, s, [Call c])
    | inr (r, d) => (Ok r, set_db d s, [Call c])
    end.
Proof.
  intros Hf. unfold call. rewrite Hf. cbn [tail].
  rewrite <- Hf, set_faults_same. done.
Qed.

Lemma when_calls (b : bool) args s :
  ∃ evs, when b (console_log args) s = (Ok tt, s, evs) ∧ calls_of evs = [] ∧
         scripts_of evs = [] ∧ inserts_of evs = [].
Proof. destruct b; cbn; eauto. Qed.

Lemma when_prefixed (lp line : string) (s : state) :
  when (Js.truthy lp) (console_log [Str (lp +:+ line)]) s =
    (Ok tt, s, prefixed lp [line]).
Proof. unfold prefixed. by destruct (Js.truthy lp). Qed.

Lemma prefixed_cons (lp line : string) (lines : list string) :
  prefixed lp (line :: lines) = prefixed lp [line] ++ prefixed lp lines.
Proof. unfold prefixed. by destruct (Js.truthy lp). Qed.

Lemma prefixed_elem (lp : string) (lines : list string) (e : event) :
  e ∈ prefixed lp lines →
  ∃ line, line ∈ lines ∧ e = ConsoleLog [Str (lp +:+ line)].
Proof.
  unfold prefixed. destruct (Js.truthy lp); [|by intros ?%elem_of_nil].
  intros (line & -> & Hin)%list_elem_of_fmap. eauto.
Qed.

Lemma calls_of_prefixed (lp : string) (lines : list string) :
  calls_of (prefixed lp lines) = [].
Proof.
  unfold prefixed. destruct (Js.truthy lp); [|done].
  induction lines as [|l ls IH]; [done|]. done.
Qed.

Lemma append_inv_head (p a b : string) : p +:+ a = p +:+ b → a = b.
Proof. induction p as [|c p IH]; [done|]. intros [= H]. by apply IH. Qed.

Lemma calls_of_app e1 e2 : calls_of (e1 ++ e2) = calls_of e1 ++ calls_of e2.
Proof. apply omap_app. Qed.
Lemma scripts_of_app e1 e2 : scripts_of (e1 ++ e2) = scripts_of e1 ++ scripts_of e2.
Proof. unfold scripts_of. by rewrite calls_of_app, omap_app. Qed.
Lemma inserts_of_app e1 e2 : inserts_of (e1 ++ e2) = inserts_of e1 ++ inserts_of e2.
Proof. unfold inserts_of. by rewrite calls_of_app, omap_app. Qed.

(** ** The tracking table under the statements of [applyMigrations] *)

Lemma tracking_set_search_path p d n :
  tracking (set_search_path p d) n = tracking d n.
Proof. done. Qed.

Lemma tracking_insert d n sc rows :
  tracking (set_schemas (insert n (<[MIGRATIONS_TABLE := rows]> sc)) d) n = Some rows.
Proof.
  unfold tracking, find_table, set_schemas. cbn.
  rewrite lookup_insert_eq. cbn. by rewrite lookup_insert_eq.
Qed.

Lemma tracking_Some d n rows :
  tracking d n = Some rows →
  ∃ sc, db_schemas d !! n = Some sc ∧ sc !! MIGRATIONS_TABLE = Some rows.
Proof.
  unfold tracking, find_table. destruct (db_schemas d !! n) as [sc|]; [|done].
  cbn. eauto.
Qed.

Lemma literal_hash (tag : string) :
  quote_free tag → Pg.literal (hash_literal tag) = Some tag.
Proof.
  intros Hq. unfold Pg.literal, hash_literal.
  rewrite chars_string, Ascii.eqb_refl, chars_app.
  change (Js.chars (String Pg.squote EmptyString)) with [Pg.squote].
  rewrite <- (replaceAll_absent Pg.squote
                (String Pg.squote (String Pg.squote EmptyString)) tag) at 1 by done.
  rewrite unquote_escaped. cbn. by rewrite of_chars.
Qed.

Section Applier.

Context (h : host) (n folder lp : string).
Hypothesis Hident : Pg.identifier (escapeSchemaName n) = Some n.

Let esc := escapeSchemaName n.

Lemma engine_set_search_path d :
  engine h (SetSearchPath esc) d = inr (tt, set_search_path [n; "public"] d).
Proof. cbn. unfold with_ident. subst esc. by rewrite Hident. Qed.

Lemma engine_create_table d :
  engine h (CreateMigrationsTable esc) d =
    match db_schemas d !! n with
    | None => inl (no_schema n)
    | Some sc =>
        match sc !! MIGRATIONS_TABLE with
        | Some _ => inr (tt, d)
        | None => inr (tt, set_schemas (insert n (<[MIGRATIONS_TABLE := []]> sc)) d)
        end
    end.
Proof. cbn. unfold with_ident. subst esc. by rewrite Hident. Qed.

Lemma engine_select_hashes d :
  engine h (SelectHashes esc) d =
    match tracking d n with
    | Some rows => inr (rows.*1, d)
    | None => inl (no_relation n)
    end.
Proof. cbn. unfold with_ident. subst esc. by rewrite Hident. Qed.

Lemma engine_insert d tag now :
  quote_free tag →
  engine h (InsertMigration esc (hash_literal tag) now) d =
    match tracking d n with
    | Some rows =>
        inr (tt, set_schemas
                   (insert n (<[MIGRATIONS_TABLE := rows ++ [(tag, now)]]>
                                (default ∅ (db_schemas d !! n)))) d)
    | None => inl (no_relation n)
    end.
Proof.
  intros Hq. cbn [engine]. unfold with_ident. subst esc. rewrite Hident.
  rewrite literal_hash by done. unfold tracking, find_table.
  destruct (db_schemas d !! n) as [sc|]; [|done]. cbn.
  by destruct (sc !! MIGRATIONS_TABLE).
Qed.

(** A run of the loop that completes: what it executed and recorded. *)
Lemma apply_loop_Ok (applied : list string) (migs : list string) :
  Forall quote_free migs →
  (∀ sql d d', exec_script h sql d = inr d' → tracking d' n = tracking d n) →
  ∀ k s k' s' evs rows,
    tracking (st_db s) n = Some rows →
    apply_loop h esc folder lp applied migs k s = (Ok k', s', evs) →
    let new := List.filter (λ tag, negb (Js.includes applied tag)) migs in
    k' = k + length new ∧
    scripts_of evs = script_text h folder <$> new ∧
    inserts_of evs = hash_literal <$> new ∧
    Forall (λ tag, existsSync h (migration_path folder tag) = true) migs ∧
    ∃ added, tracking (st_db s') n = Some (rows ++ added) ∧ added.*1 = new.
Proof.
  intros Hq Hscr. induction Hq as [|tag rest Htag Hrest IH];
    intros k s k' s' evs rows Hrows Hrun.
  - cbn in Hrun. injection Hrun as <- <- <-. cbn.
    split; [lia|]. do 3 (split; [done|]). exists []. by rewrite app_nil_r.
  - cbn [apply_loop] in Hrun. fold (migration_path folder tag) in Hrun.
    destruct (existsSync h (migration_path folder tag)) eqn:Hex; [|done].
    cbn [negb] in Hrun. cbn [List.filter].
    destruct (Js.includes applied tag) eqn:Hin; cbn [negb].
    + apply bind_Ok_inv in Hrun as (? & ? & ? & ? & Hw & Hloop & ->).
      destruct (when_calls (Js.truthy lp)
                  [Str (lp +:+ "Skipping already applied migration: " +:+ tag)] s)
        as (evs' & Hw' & _ & Hs & Hi).
      rewrite Hw' in Hw. injection Hw as <- <- <-.
      destruct (IH _ _ _ _ _ _ Hrows Hloop) as (-> & Hsc & Hins & Hfiles & Hadd).
      rewrite scripts_of_app, inserts_of_app, Hs, Hi. cbn [app].
      repeat split; try done. by constructor.
    + apply bind_Ok_inv in Hrun as (? & ? & ? & ? & Hw & Hrun & ->).
      destruct (when_calls (Js.truthy lp)
                  [Str (lp +:+ "Applying migration: " +:+ tag)] s)
        as (evs' & Hw' & _ & Hs & Hi).
      rewrite Hw' in Hw. injection Hw as <- <- <-.
      apply bind_Ok_inv in Hrun as (sql & ? & ? & ? & Hread & Hrun & ->).
      unfold readFileSync in Hread. unfold existsSync in Hex.
      apply bool_decide_eq_true in Hex as [f Hf]. rewrite Hf in Hread.
      injection Hread as <- <- <-.
      apply bind_Ok_inv in Hrun as ([] & ? & ? & ? & Hscript & Hrun & ->).
      apply call_Ok_inv in Hscript as (d1 & Heng & -> & ->).
      cbn in Heng. destruct (exec_script h (file_text f) (st_db s)) as [|d1'] eqn:Hexec;
        [done|]. injection Heng as <-.
      apply Hscr in Hexec. rewrite Hrows in Hexec.
      apply bind_Ok_inv in Hrun as (now & ? & ? & ? & Hnow & Hrun & ->).
      injection Hnow as <- <- <-.
      apply bind_Ok_inv in Hrun as ([] & ? & ? & ? & Hins & Hloop & ->).
      apply call_Ok_inv in Hins as (d2 & Heng & -> & ->).
      rewrite engine_insert in Heng by done. cbn [st_db set_db set_faults] in Heng.
      rewrite Hexec in Heng. injection Heng as <-.
      eapply IH in Hloop as (-> & Hsc & Hins & Hfiles & added & Hadd & Hadded);
        [|cbn [st_db set_db]; apply tracking_insert].
      rewrite !scripts_of_app, !inserts_of_app, Hs, Hi, Hsc, Hins.
      cbn [length fmap list_fmap app scripts_of inserts_of calls_of omap list_omap].
      repeat split; try done.
      * lia.
      * unfold script_text. by rewrite Hf.
      * constructor; [|done]. unfold existsSync. apply bool_decide_eq_true.
        by rewrite Hf.
      * exists ((tag, st_clock s) :: added). rewrite Hadd, <- app_assoc.
        split; [done|]. cbn. by rewrite Hadded.
Qed.

(** A run of the loop over entries that are all recorded: nothing is sent. *)
Lemma apply_loop_skip (applied : list string) (migs : list string) k s :
  Forall (λ tag, existsSync h (migration_path folder tag) = true ∧
                 Js.includes applied tag = true) migs →
  ∃ evs, apply_loop h esc folder lp applied migs k s = (Ok k, s, evs) ∧
         calls_of evs = [].
Proof.
  induction 1 as [|tag rest [Hex Hin] _ (evs & IH & Hc)].
  - by exists [].
  - cbn [apply_loop]. fold (migration_path folder tag). rewrite Hex, Hin.
    cbn [negb].
    destruct (when_calls (Js.truthy lp)
                [Str (lp +:+ "Skipping already applied migration: " +:+ tag)] s)
      as (evs' & Hw & Hc' & _).
    erewrite bind_Ok by exact Hw. rewrite IH. exists (evs' ++ evs).
    split; [done|]. by rewrite calls_of_app, Hc, Hc'.
Qed.

(** The same run with what it prints. *)
Lemma apply_loop_skips (applied : list string) (migs : list string) k s :
  Forall (λ tag, existsSync h (migration_path folder tag) = true ∧
                 Js.includes applied tag = true) migs →
  apply_loop h esc folder lp applied migs k s =
    (Ok k, s,
     prefixed lp ((λ tag, "Skipping already applied migration: " +:+ tag) <$> migs)).
Proof.
  induction 1 as [|tag rest [Hex Hin] _ IH].
  - unfold prefixed. by destruct (Js.truthy lp).
  - cbn [apply_loop]. fold (migration_path folder tag). rewrite Hex, Hin.
    cbn [negb]. erewrite bind_Ok by apply when_prefixed. rewrite IH.
    symmetry. f_equal. apply (prefixed_cons lp).
Qed.

End Applier.

Lemma set_db_same (s : state) : set_db (st_db s) s = s.
Proof. by destruct s. Qed.

Lemma includes_true (l : list string) (x : string) :
  Js.includes l x = true ↔ x ∈ l.
Proof.
  unfold Js.includes. rewrite existsb_exists. split.
  - intros (y & Hy%list_elem_of_In & ->%String.eqb_eq). done.
  - intros Hx. exists x. split; [by apply list_elem_of_In|apply String.eqb_refl].
Qed.

Lemma filter_none {A} (f : A → bool) (l : list A) :
  (∀ x, In x l → f x = false) → List.filter f l = [].
Proof.
  induction l as [|x l IH]; [done|]. intros H. cbn.
  rewrite (H x) by by left. apply IH. intros y Hy. apply H. by right.
Qed.

Lemma journal_of_read (h : host) (folder : string) (seq : list string) :
  journal_of h folder = Some seq →
  let journalPath := path_join (path_join folder "meta") "_journal.json" in
  existsSync h journalPath = true ∧
  ∀ s, read_journal_entries h journalPath s = (Ok seq, s, []).
Proof.
  unfold journal_of, existsSync, read_journal_entries. cbn zeta.
  destruct (files h !! _) as [f|] eqn:Hf; [|done]. cbn [mbind option_bind].
  destruct (file_journal f) as [entries|]; [|done]. cbn.
  intros [= <-]. split; done.
Qed.

Section Idempotence.

Context (h : host) (n folder lp : string) (seq : list string).
Hypothesis Hident : Pg.identifier (escapeSchemaName n) = Some n.
Hypothesis Hjournal : journal_of h folder = Some seq.

(** When every entry of the journal is recorded already, [applyMigrations]
    sets the search path, looks at the tracking table and returns. *)
Lemma applyMigrations_nothing_pending (s : state) :
  st_faults s = [] →
  (seq ≠ [] → is_Some (tracking (st_db s) n)) →
  Forall (λ tag, existsSync h (migration_path folder tag) = true ∧
                 Js.includes (applied_tags (st_db s) n) tag = true) seq →
  ∃ evs,
    applyMigrations h n folder lp s
      = (Ok tt, set_db (set_search_path [n; "public"] (st_db s)) s, evs) ∧
    calls_of evs =
      [SetSearchPath (escapeSchemaName n); ShowSearchPath] ++
      (if decide (seq = []) then []
       else [CreateMigrationsTable (escapeSchemaName n);
             SelectHashes (escapeSchemaName n)]).
Proof.
  intros Hf Htr Hall. unfold applyMigrations.
  set (sA := set_db (set_search_path [n; "public"] (st_db s)) s).
  assert (st_faults sA = []) as HfA by done.
  erewrite bind_Ok;
    [|rewrite call_sound by done; by rewrite engine_set_search_path]. fold sA.
  erewrite bind_Ok; [|rewrite call_sound by done; cbn [engine]; by rewrite set_db_same].
  destruct (when_calls (Js.truthy lp)
              [Str (lp +:+ "Search path set to: " +:+
                    Js.join ", " (db_search_path (st_db sA)))] sA)
    as (e3 & Hw3 & Hc3 & _).
  erewrite bind_Ok by exact Hw3.
  destruct (journal_of_read _ _ _ Hjournal) as [Hex Hread]. cbn zeta in Hex, Hread.
  rewrite Hex. cbn [negb]. erewrite bind_Ok by apply Hread.
  destruct seq as [|tag0 rest] eqn:Hseq.
  - cbn [length Nat.eqb].
    destruct (when_calls (Js.truthy lp) [Str (lp +:+ "No migrations to apply")] sA)
      as (e4 & Hw4 & Hc4 & _).
    rewrite Hw4. eexists. split; [done|].
    rewrite !calls_of_app, Hc3, Hc4. done.
  - cbn [length Nat.eqb]. rewrite <- Hseq in *.
    destruct Htr as [rows Hrows]; [by rewrite Hseq|].
    assert (tracking (st_db sA) n = Some rows) as HrowsA by done.
    destruct (tracking_Some _ _ _ HrowsA) as (sc & Hsc & Hmig).
    erewrite bind_Ok;
      [|rewrite call_sound by done; rewrite engine_create_table by done;
        rewrite Hsc, Hmig; by rewrite set_db_same].
    erewrite bind_Ok;
      [|rewrite call_sound by done; rewrite engine_select_hashes by done;
        rewrite HrowsA; by rewrite set_db_same].
    destruct (apply_loop_skip h n folder lp (rows.*1) seq 0 sA) as (e5 & Hloop & Hc5).
    { eapply Forall_impl; [exact Hall|]. intros tag [? Hin]. split; [done|].
      unfold applied_tags in Hin. by rewrite Hrows in Hin. }
    erewrite bind_Ok by exact Hloop. rewrite andb_false_r. cbn [when ret].
    eexists. split; [done|].
    rewrite !calls_of_app, Hc3, Hc5. rewrite Hseq. done.
Qed.

(** The same call with all it sends and prints. *)
Lemma applyMigrations_skips (s : state) :
  st_faults s = [] →
  (seq ≠ [] → is_Some (tracking (st_db s) n)) →
  Forall (λ tag, existsSync h (migration_path folder tag) = true ∧
                 Js.includes (applied_tags (st_db s) n) tag = true) seq →
  applyMigrations h n folder lp s
    = (Ok tt, set_db (set_search_path [n; "public"] (st_db s)) s,
       skipping_run n lp seq).
Proof.
  intros Hf Htr Hall. unfold applyMigrations, skipping_run.
  set (sA := set_db (set_search_path [n; "public"] (st_db s)) s).
  assert (st_faults sA = []) as HfA by done.
  erewrite bind_Ok;
    [|rewrite call_sound by done; by rewrite engine_set_search_path]. fold sA.
  erewrite bind_Ok; [|rewrite call_sound by done; cbn [engine]; by rewrite set_db_same].
  erewrite bind_Ok by apply when_prefixed.
  destruct (journal_of_read _ _ _ Hjournal) as [Hex Hread]. cbn zeta in Hex, Hread.
  rewrite Hex. cbn [negb]. erewrite bind_Ok by apply Hread.
  destruct seq as [|tag0 rest] eqn:Hseq.
  - cbn [length Nat.eqb]. rewrite when_prefixed. done.
  - cbn [length Nat.eqb]. rewrite <- Hseq in *.
    destruct Htr as [rows Hrows]; [by rewrite Hseq|].
    assert (tracking (st_db sA) n = Some rows) as HrowsA by done.
    destruct (tracking_Some _ _ _ HrowsA) as (sc & Hsc & Hmig).
    erewrite bind_Ok;
      [|rewrite call_sound by done; rewrite engine_create_table by done;
        rewrite Hsc, Hmig; by rewrite set_db_same].
    erewrite bind_Ok;
      [|rewrite call_sound by done; rewrite engine_select_hashes by done;
        rewrite HrowsA; by rewrite set_db_same].
    erewrite bind_Ok.
    2:{ apply apply_loop_skips. eapply Forall_impl; [exact Hall|].
        intros tag [? Hin]. split; [done|].
        unfold applied_tags in Hin. by rewrite Hrows in Hin. }
    rewrite andb_false_r. cbn [when ret].
    rewrite decide_False by (by rewrite Hseq). by rewrite app_nil_r.
Qed.

Lemma skipping_run_sends (k : nat) :
  scripts_of (skipping_run n lp seq) = [] ∧
  inserts_of (skipping_run n lp seq) = [] ∧
  ConsoleLog [Str (lp +:+ "Applied " +:+ pretty k +:+ " migration(s)")]
    ∉ skipping_run n lp seq.
Proof.
  unfold skipping_run.
  split; [|split].
  - unfold scripts_of. rewrite !calls_of_app, calls_of_prefixed.
    destruct (decide (seq = [])); by rewrite ?calls_of_app, !calls_of_prefixed.
  - unfold inserts_of. rewrite !calls_of_app, calls_of_prefixed.
    destruct (decide (seq = [])); by rewrite ?calls_of_app, !calls_of_prefixed.
  - assert (∀ lines,
              Forall (λ line, ∃ c r, line = String c r ∧ c ≠ "A"%char) lines →
              ConsoleLog [Str (lp +:+ "Applied " +:+ pretty k +:+ " migration(s)")]
                ∉ prefixed lp lines) as Hlines.
    { intros lines Hall (line & Hin & [= Heq%append_inv_head])%prefixed_elem.
      rewrite Forall_forall in Hall.
      destruct (Hall _ Hin) as (c & r & -> & Hc). by injection Heq as <- _. }
    rewrite !elem_of_app, !elem_of_cons, elem_of_nil.
    intros [[|[|[]]]|[Hin|Hin]]; [done|done| |].
    + revert Hin. apply Hlines. repeat constructor. by do 2 eexists.
    + destruct (decide (seq = [])).
      * revert Hin. apply Hlines. repeat constructor. by do 2 eexists.
      * rewrite !elem_of_app, !elem_of_cons, elem_of_nil in Hin.
        destruct Hin as [[|[|[]]]|Hin]; [done|done|].
        revert Hin. apply Hlines. apply Forall_fmap, Forall_true.
        intros tag. cbn. by do 2 eexists.
Qed.

Hypothesis Htags : Forall quote_free seq.
Hypothesis Hscripts :
  ∀ sql d d', exec_script h sql d = inr d' → tracking d' n = tracking d n.

(** C2. Let the tags of the journal [seq] hold no single quote, the schema
    name be one the engine reads back from its quoted form, and the migration
    texts leave the tracking table of the schema alone. Let a first call of
    [applyMigrations] complete. It executed and recorded exactly the entries
    not recorded before, in order; the function returns no value, and with a
    log prefix and at least one such entry its last line is
    [Applied N migration(s)], [N] their number. A second call right after
    it, on a sound connection, completes having skipped every entry: all it
    sends and prints is [skipping_run], with no migration text, no tracking
    record and no [Applied] line; nothing is pending and the schemas are as
    the first call left them. *)
Theorem applyMigrations_idempotent (s s1 : state) (evs1 : list event) :
  applyMigrations h n folder lp s = (Ok tt, s1, evs1) →
  st_faults s1 = [] →
  let newly := pending (st_db s) n seq in
  (scripts_of evs1 = script_text h folder <$> newly ∧
   inserts_of evs1 = hash_literal <$> newly ∧
   applied_tags (st_db s1) n = applied_tags (st_db s) n ++ newly ∧
   (Js.truthy lp = true → newly ≠ [] →
      last evs1 =
        Some (ConsoleLog [Str (lp +:+ "Applied " +:+ pretty (length newly)
                                 +:+ " migration(s)")]))) ∧
  applyMigrations h n folder lp s1 =
    (Ok tt, set_db (set_search_path [n; "public"] (st_db s1)) s1,
     skipping_run n lp seq) ∧
  scripts_of (skipping_run n lp seq) = [] ∧
  inserts_of (skipping_run n lp seq) = [] ∧
  (∀ k : nat,
     ConsoleLog [Str (lp +:+ "Applied " +:+ pretty k +:+ " migration(s)")]
       ∉ skipping_run n lp seq) ∧
  pending (st_db s1) n seq = [].
Proof.
  intros Hrun Hsound newly.
  destruct (journal_of_read _ _ _ Hjournal) as [Hex Hread]. cbn zeta in Hex, Hread.
  pose proof Hrun as Hrun0. unfold applyMigrations in Hrun.
  apply bind_Ok_inv in Hrun as ([] & ? & ? & ? & Hset & Hrun & ->).
  apply call_Ok_inv in Hset as (dA & Heng & -> & ->).
  rewrite engine_set_search_path in Heng by done. injection Heng as <-.
  apply bind_Ok_inv in Hrun as (sp & ? & ? & ? & Hshow & Hrun & ->).
  apply call_Ok_inv in Hshow as (dB & Heng & -> & ->).
  cbn [engine st_db set_db] in Heng. injection Heng as <- <-.
  apply bind_Ok_inv in Hrun as ([] & ? & e3 & ? & Hw & Hrun & ->).
  match type of Hw with when ?b (console_log ?a) ?st = _ =>
    destruct (when_calls b a st) as (e3' & Hw' & Hc3 & Hs3 & Hi3) end.
  rewrite Hw' in Hw. injection Hw as <- <-.
  rewrite Hex in Hrun. cbn [negb] in Hrun.
  apply bind_Ok_inv in Hrun as (migs & ? & ? & ? & Hrd & Hrun & ->).
  rewrite Hread in Hrd. injection Hrd as <- <- <-.
  destruct (length seq =? 0) eqn:Hlen.
  - (* an empty journal *)
    apply Nat.eqb_eq, length_zero_iff_nil in Hlen.
    match type of Hrun with when ?b (console_log ?a) ?st = _ =>
      destruct (when_calls b a st) as (e4 & Hw4 & Hc4 & Hs4 & Hi4) end.
    rewrite Hw4 in Hrun. injection Hrun as <- <-.
    split.
    { subst newly. rewrite Hlen. cbn [pending List.filter fmap list_fmap length].
      rewrite !scripts_of_app, !inserts_of_app, Hs3, Hi3, Hs4, Hi4, !app_nil_r.
      by repeat split. }
    split; [apply (applyMigrations_skips _ Hsound); [done|by rewrite Hlen]|].
    split; [apply (skipping_run_sends 0)|]. split; [apply (skipping_run_sends 0)|].
    split; [intros k; apply (skipping_run_sends k)|]. by rewrite Hlen.
  - (* a journal with entries *)
    apply bind_Ok_inv in Hrun as ([] & ? & ? & ? & Hcreate & Hrun & ->).
    apply call_Ok_inv in Hcreate as (dC & Heng & -> & ->).
    rewrite engine_create_table in Heng by done.
    cbn [st_db set_db set_faults set_schemas set_search_path db_schemas] in Heng.
    apply bind_Ok_inv in Hrun as (applied & ? & ? & ? & Hsel & Hrun & ->).
    apply call_Ok_inv in Hsel as (dD & Heng' & -> & ->).
    rewrite engine_select_hashes in Heng' by done. cbn [st_db set_db] in Heng'.
    assert (∃ rows, tracking dC n = Some rows ∧
                    rows.*1 = applied_tags (st_db s) n) as (rows & Hrows & Happ).
    { unfold applied_tags, tracking, find_table.
      destruct (db_schemas (st_db s) !! n) as [sc|] eqn:Hsc; [|done]. cbn.
      destruct (sc !! MIGRATIONS_TABLE) as [rows|] eqn:Hmig.
      - injection Heng as <-. exists rows. unfold tracking, find_table. cbn.
        by rewrite Hsc.
      - injection Heng as <-. exists []. split; [|done].
        change (tracking (set_schemas (insert n (<[MIGRATIONS_TABLE := []]> sc))
                            (set_search_path [n; "public"] (st_db s))) n = Some []).
        apply tracking_insert. }
    rewrite Hrows in Heng'. injection Heng' as <- <-. rewrite Happ in Hrun.
    apply bind_Ok_inv in Hrun as (k' & s' & e5 & e6 & Hloop & Hrun & ->).
    eapply apply_loop_Ok in Hloop
      as (Hk & Hsc & Hins & Hfiles & added & Hadd & Hadded);
      [|done|done|done|cbn [st_db set_db]; exact Hrows].
    fold (pending (st_db s) n seq) in Hk, Hsc, Hins, Hadded. fold newly in Hk, Hsc, Hins, Hadded.
    match type of Hrun with when ?b (console_log ?a) ?st = _ =>
      pose proof (when_calls b a st) as (e6' & Hw6 & Hc6 & Hs6 & Hi6) end.
    rewrite Hw6 in Hrun. injection Hrun as Hs1 <-. subst s'.
    assert (applied_tags (st_db s1) n = applied_tags (st_db s) n ++ newly) as Hnow.
    { unfold applied_tags at 1. rewrite Hadd. cbn. by rewrite fmap_app, Happ, Hadded. }
    split.
    + rewrite !scripts_of_app, !inserts_of_app, Hs3, Hi3, Hs6, Hi6, Hsc, Hins.
      cbn [scripts_of inserts_of calls_of omap list_omap app]. rewrite !app_nil_r.
      repeat split; try done.
      intros Hlp Hne. rewrite Hlp, Hk in Hw6. cbn [andb Nat.add] in Hw6.
      destruct newly as [|t0 newly'] eqn:Hnew; [done|].
      cbn [length Nat.ltb Nat.leb when] in Hw6. unfold console_log, emit in Hw6.
      injection Hw6 as <-. cbn [length].
      rewrite !app_comm_cons, !app_assoc. apply last_snoc.
    + assert (Forall (λ tag, existsSync h (migration_path folder tag) = true ∧
                            Js.includes (applied_tags (st_db s1) n) tag = true) seq)
        as Hall.
      { apply Forall_forall. intros tag Htag. split.
        - rewrite Forall_forall in Hfiles. by apply Hfiles.
        - rewrite Hnow. apply includes_true. apply elem_of_app.
          destruct (Js.includes (applied_tags (st_db s) n) tag) eqn:Hin.
          + left. by apply includes_true.
          + right. subst newly. unfold pending. apply list_elem_of_In, filter_In.
            split; [by apply list_elem_of_In|]. by rewrite Hin. }
      split; [apply (applyMigrations_skips _ Hsound); [by rewrite Hadd|done]|].
      split; [apply (skipping_run_sends 0)|]. split; [apply (skipping_run_sends 0)|].
      split; [intros k; apply (skipping_run_sends k)|].
      unfold pending. apply filter_none. intros tag Htag%list_elem_of_In.
      rewrite Forall_forall in Hall. destruct (Hall _ Htag) as [_ ->]. done.
Qed.

End Idempotence.

(** The migration texts of the demonstration leave tracking tables alone. *)
Lemma demo_create_keeps_tracking (n n0 : string) (d d' : database) :
  Demo.create_in n0 "dummy_table" d = inr d' → tracking d' n = tracking d n.
Proof.
  unfold Demo.create_in. destruct (db_schemas d !! n0) as [sc|] eqn:Hsc; [|done].
  intros [= <-]. unfold tracking, find_table, set_schemas. cbn.
  destruct (decide (n0 = n)) as [->|Hne].
  - rewrite lookup_insert_eq, Hsc. cbn. by rewrite lookup_insert_ne.
  - by rewrite lookup_insert_ne.
Qed.

Lemma demo_exec_keeps_tracking (n sql : string) (d d' : database) :
  Demo.exec sql d = inr d' → tracking d' n = tracking d n.
Proof.
  unfold Demo.exec.
  destruct (String.eqb sql Demo.SQL_CREATE).
  { unfold Demo.create_in_path.
    destruct (List.find (schema_exists d) (db_search_path d)); [|done].
    apply demo_create_keeps_tracking. }
  destruct (String.eqb sql Demo.SQL_CREATE_PUBLIC).
  { apply demo_create_keeps_tracking. }
  destruct (String.eqb sql Demo.SQL_ALTER); [by intros [= <-]|done].
Qed.

Lemma applyMigrations_idempotent_witness :
  let run1 := applyMigrations Demo.host_full Demo.TENANT Demo.FOLDER "  " Demo.ready in
  let newly := pending (st_db Demo.ready) Demo.TENANT Demo.SEQUENCE in
  (scripts_of run1.2 = script_text Demo.host_full Demo.FOLDER <$> newly ∧
   inserts_of run1.2 = hash_literal <$> newly ∧
   applied_tags (st_db run1.1.2) Demo.TENANT =
     applied_tags (st_db Demo.ready) Demo.TENANT ++ newly ∧
   (Js.truthy "  " = true → newly ≠ [] →
      last run1.2 =
        Some (ConsoleLog [Str ("  " +:+ "Applied " +:+ pretty (length newly)
                                 +:+ " migration(s)")]))) ∧
  applyMigrations Demo.host_full Demo.TENANT Demo.FOLDER "  " run1.1.2 =
    (Ok tt,
     set_db (set_search_path [Demo.TENANT; "public"] (st_db run1.1.2)) run1.1.2,
     skipping_run Demo.TENANT "  " Demo.SEQUENCE) ∧
  scripts_of (skipping_run Demo.TENANT "  " Demo.SEQUENCE) = [] ∧
  inserts_of (skipping_run Demo.TENANT "  " Demo.SEQUENCE) = [] ∧
  (∀ k : nat,
     ConsoleLog [Str ("  " +:+ "Applied " +:+ pretty k +:+ " migration(s)")]
       ∉ skipping_run Demo.TENANT "  " Demo.SEQUENCE) ∧
  pending (st_db run1.1.2) Demo.TENANT Demo.SEQUENCE = [].
Proof.
  apply (applyMigrations_idempotent Demo.host_full Demo.TENANT Demo.FOLDER "  "
           Demo.SEQUENCE).
  - reflexivity.
  - reflexivity.
  - repeat constructor.
  - apply demo_exec_keeps_tracking.
  - vm_compute. reflexivity.
  - reflexivity.
Defined.

(** The same run, evaluated: two migrations the first time, none the second. *)
Example applyMigrations_twice :
  let run1 := applyMigrations Demo.host_full Demo.TENANT Demo.FOLDER "  " Demo.ready in
  let run2 := applyMigrations Demo.host_full Demo.TENANT Demo.FOLDER "  " run1.1.2 in
  run1.1.1 = Ok tt ∧ scripts_of run1.2 = [Demo.SQL_CREATE; Demo.SQL_ALTER] ∧
  last run1.2 = Some (ConsoleLog [Str "  Applied 2 migration(s)"]) ∧
  run2.1.1 = Ok tt ∧ scripts_of run2.2 = [] ∧ inserts_of run2.2 = [] ∧
  last run2.2 =
    Some (ConsoleLog [Str "  Skipping already applied migration: 0001_description"]).
Proof. vm_compute. repeat split. Qed.

(** A tag with single quotes is recorded as the text its literal denotes,
    which is not the tag: the first call returns having recorded [a'b], and
    the second call, on the same sound connection, finds [a''b] unrecorded,
    executes its migration text and inserts its record again. *)
Lemma applyMigrations_quoted_tag_reapplied :
  let run1 :=
    applyMigrations Demo.host_quoted Demo.TENANT Demo.FOLDER "  " Demo.ready in
  let run2 :=
    applyMigrations Demo.host_quoted Demo.TENANT Demo.FOLDER "  " run1.1.2 in
  journal_of Demo.host_quoted Demo.FOLDER = Some [Demo.QUOTED_TAG] ∧
  run1.1.1 = Ok tt ∧ st_faults run1.1.2 = [] ∧
  applied_tags (st_db run1.1.2) Demo.TENANT = ["a'b"] ∧
  run2.1.1 = Ok tt ∧
  scripts_of run2.2 = [Demo.SQL_ALTER] ∧
  inserts_of run2.2 = [hash_literal Demo.QUOTED_TAG] ∧
  last run2.2 = Some (ConsoleLog [Str "  Applied 1 migration(s)"]) ∧
  applied_tags (st_db run2.1.2) Demo.TENANT = ["a'b"; "a'b"].
Proof. vm_compute. repeat split. Qed.

(** ** Computations that never leave the process *)

Create HintDb no_exit discriminated.

Lemma no_exit_ret {A} (a : A) : no_exit (ret a).
Proof. by intros s c s' evs. Qed.
Lemma no_exit_throw {A} (e : Js.error) : no_exit (@throw A e).
Proof. by intros s c s' evs. Qed.
Lemma no_exit_emit (e : event) : no_exit (emit e).
Proof. by intros s c s' evs. Qed.
Lemma no_exit_Date_now : no_exit Date_now.
Proof. by intros s c s' evs. Qed.

Lemma no_exit_bind {A B} (m : M A) (k : A → M B) :
  no_exit m → (∀ a, no_exit (k a)) → no_exit (bind m k).
Proof.
  intros Hm Hk s c s' evs. unfold bind.
  destruct (m s) as [[[a|e|c'] s1] e1] eqn:Hms; [|done|by apply Hm in Hms].
  destruct (k a s1) as [[r s2] e2] eqn:Hks. intros [= -> -> <-].
  by apply Hk in Hks.
Qed.

Lemma no_exit_try_catch {A} (m : M A) (handler : Js.error → M A) :
  no_exit m → (∀ e, no_exit (handler e)) → no_exit (try_catch m handler).
Proof.
  intros Hm Hh s c s' evs. unfold try_catch.
  destruct (m s) as [[[a|e|c'] s1] e1] eqn:Hms; [done| |by apply Hm in Hms].
  destruct (handler e s1) as [[r s2] e2] eqn:Hhs. intros [= -> -> <-].
  by apply Hh in Hhs.
Qed.

Lemma no_exit_try_finally {A} (m : M A) (f : M unit) :
  no_exit m → no_exit f → no_exit (try_finally m f).
Proof.
  intros Hm Hf s c s' evs. unfold try_finally.
  destruct (m s) as [[[a|e|c'] s1] e1] eqn:Hms; [| |by apply Hm in Hms];
    (destruct (f s1) as [[[[]|e'|c''] s2] e2] eqn:Hfs; [done|done|by apply Hf in Hfs]).
Qed.

Lemma no_exit_when (b : bool) (m : M unit) : no_exit m → no_exit (when b m).
Proof. destruct b; [done|]. intros _. apply no_exit_ret. Qed.

Lemma no_exit_for_each {A} (f : A → M unit) (l : list A) :
  (∀ x, no_exit (f x)) → no_exit (for_each f l).
Proof.
  intros Hf. induction l as [|x l IH]; cbn [for_each]; [apply no_exit_ret|].
  apply no_exit_bind; [apply Hf|by intros ?].
Qed.

Lemma call_cases (h : host) (c : command) (s : state) :
  (∃ r s', call h c s = (Ok r, s', [Call c])) ∨
  (∃ e s', call h c s = (Throw e, s', [Call c])).
Proof.
  unfold call. destruct (st_faults s) as [|[msg|] fs]; eauto;
    destruct (engine h c (st_db s)) as [e|[r d]]; eauto.
Qed.

Lemma no_exit_call (h : host) (c : command) : no_exit (call h c).
Proof.
  intros s c' s' evs.
  by destruct (call_cases h c s) as [(r & s1 & ->)|(e & s1 & ->)].
Qed.

Lemma no_exit_readFileSync (h : host) (p : string) : no_exit (readFileSync h p).
Proof. unfold readFileSync. intros s. by destruct (files h !! p). Qed.

Lemma no_exit_read_journal (h : host) (p : string) :
  no_exit (read_journal_entries h p).
Proof.
  unfold read_journal_entries. intros s.
  destruct (files h !! p) as [f|]; [|done]. by destruct (file_journal f).
Qed.

Lemma no_exit_createPostgresClient : no_exit createPostgresClient.
Proof. by intros s c s' evs. Qed.

#[export] Hint Resolve no_exit_ret no_exit_throw no_exit_emit no_exit_Date_now
  no_exit_when no_exit_call no_exit_readFileSync no_exit_read_journal
  no_exit_createPostgresClient : no_exit.

Ltac no_exit_step :=
  first
    [ apply no_exit_bind; [|intros ?]
    | apply no_exit_try_catch; [|intros ?]
    | apply no_exit_try_finally
    | apply no_exit_when
    | apply no_exit_for_each; intros ?
    | progress (unfold console_log, console_warn, console_error, client_end,
                setSearchPath, schemaExistsInDatabase, tableExistsInSchema,
                getAppliedMigrations)
    | solve [auto with no_exit]
    | match goal with
      | |- no_exit (if ?b then _ else _) => destruct b
      | |- no_exit (match ?x with _ => _ end) => destruct x
      end ].

Ltac no_exit := repeat no_exit_step.

Lemma no_exit_apply_loop (h : host) esc folder lp applied migs k :
  no_exit (apply_loop h esc folder lp applied migs k).
Proof.
  revert k. induction migs as [|tag rest IH]; intros k; cbn [apply_loop]; no_exit.
Qed.

#[export] Hint Resolve no_exit_apply_loop : no_exit.

Lemma no_exit_applyMigrations (h : host) n folder lp :
  no_exit (applyMigrations h n folder lp).
Proof. unfold applyMigrations. no_exit. Qed.

#[export] Hint Resolve no_exit_applyMigrations : no_exit.

Lemma no_exit_provision (h : host) n : no_exit (provision h n).
Proof. unfold provision, create_and_migrate, verify_tables. no_exit. Qed.

Lemma no_exit_cleanup (h : host) n e : no_exit (cleanup_and_rethrow h n e).
Proof. unfold cleanup_and_rethrow. no_exit. Qed.

#[export] Hint Resolve no_exit_provision no_exit_cleanup : no_exit.

Lemma no_exit_createTenantSchemaWithMigrations (h : host) n :
  no_exit (createTenantSchemaWithMigrations h n).
Proof. unfold createTenantSchemaWithMigrations. no_exit. Qed.

#[export] Hint Resolve no_exit_createTenantSchemaWithMigrations : no_exit.

(** ** [applyMigrations] on an empty journal *)

(** C9. With a journal of zero entries, on a sound connection and for a
    schema name the engine can read, [applyMigrations] returns normally
    having sent only [SET search_path] and [SHOW search_path]: the schemas
    of the database are what they were, no tracking table is created. *)
Theorem applyMigrations_empty_journal (h : host) (n n0 folder lp : string)
    (s : state) :
  Pg.identifier (escapeSchemaName n) = Some n0 →
  journal_of h folder = Some [] →
  st_faults s = [] →
  ∃ s' evs,
    applyMigrations h n folder lp s = (Ok tt, s', evs) ∧
    calls_of evs = [SetSearchPath (escapeSchemaName n); ShowSearchPath] ∧
    db_schemas (st_db s') = db_schemas (st_db s) ∧
    (∀ m, tracking (st_db s') m = tracking (st_db s) m).
Proof.
  intros Hid Hj Hf. unfold applyMigrations.
  set (sA := set_db (set_search_path [n0; "public"] (st_db s)) s).
  assert (st_faults sA = []) as HfA by done.
  erewrite bind_Ok;
    [|rewrite call_sound by done; cbn [engine]; unfold with_ident; by rewrite Hid].
  fold sA.
  erewrite bind_Ok; [|rewrite call_sound by done; cbn [engine]; by rewrite set_db_same].
  match goal with |- context [when ?b (console_log ?a)] =>
    destruct (when_calls b a sA) as (e3 & Hw3 & Hc3 & _) end.
  erewrite bind_Ok by exact Hw3.
  destruct (journal_of_read _ _ _ Hj) as [Hex Hread]. cbn zeta in Hex, Hread.
  rewrite Hex. cbn [negb]. erewrite bind_Ok by apply Hread. cbn [length Nat.eqb].
  destruct (when_calls (Js.truthy lp) [Str (lp +:+ "No migrations to apply")] sA)
    as (e4 & Hw4 & Hc4 & _).
  rewrite Hw4. exists sA. eexists. split; [done|].
  rewrite !calls_of_app, Hc3, Hc4. done.
Qed.

Lemma applyMigrations_empty_journal_witness :
  ∃ s' evs,
    applyMigrations Demo.host_empty_journal Demo.TENANT Demo.FOLDER "  " Demo.ready
      = (Ok tt, s', evs) ∧
    calls_of evs = [SetSearchPath (escapeSchemaName Demo.TENANT); ShowSearchPath] ∧
    db_schemas (st_db s') = db_schemas (st_db Demo.ready) ∧
    (∀ m, tracking (st_db s') m = tracking (st_db Demo.ready) m).
Proof.
  apply (applyMigrations_empty_journal Demo.host_empty_journal Demo.TENANT
           Demo.TENANT Demo.FOLDER "  " Demo.ready); reflexivity.
Defined.

(** Provisioning against an empty journal: no tracking table, no
    [dummy_table], so the verification throws and the schema is dropped. *)
Example provision_empty_journal :
  let run := createTenantSchemaWithMigrations Demo.host_empty_journal Demo.TENANT
               Demo.fresh in
  let esc := escapeSchemaName Demo.TENANT in
  run.1.1 = Throw (Js.Error (missing_table_message Demo.TENANT [])) ∧
  calls_of run.2 =
    [CreateSchemaIfNotExists esc; SetSearchPath esc; ShowSearchPath;
     ListTables Demo.TENANT; TableExists Demo.TENANT DUMMY_TABLE;
     TableExists "public" DUMMY_TABLE; DropSchemaIfExistsCascade esc] ∧
  schema_exists (st_db run.1.2) Demo.TENANT = false.
Proof. vm_compute. done. Qed.

(** ** [applyMigrations] when a migration file is missing *)

Lemma bind_then_throw {A B} (e : Js.error) (m : M A) (k1 k2 : A → M B) s :
  (∀ a s1, k1 a s1 = then_throw e (k2 a s1)) →
  bind m k1 s = then_throw e (bind m k2 s).
Proof.
  intros Hk. unfold bind. destruct (m s) as [[[a|e'|c] s1] e1]; [|done..].
  rewrite Hk. by destruct (k2 a s1) as [[[b|e'|c] s2] e2].
Qed.

(** The loop over a sequence whose entry [tag] has no file behaves as the
    loop over the entries before it, then throws. *)
Lemma apply_loop_missing (h : host) esc folder lp applied pre tag rest :
  Forall (λ t, existsSync h (migration_path folder t) = true) pre →
  existsSync h (migration_path folder tag) = false →
  ∀ k s,
    apply_loop h esc folder lp applied (pre ++ tag :: rest) k s =
    then_throw (file_not_found (migration_path folder tag))
      (apply_loop h esc folder lp applied pre k s).
Proof.
  intros Hpre Htag. induction Hpre as [|t pre Ht _ IH]; intros k s.
  - cbn [app apply_loop]. fold (migration_path folder tag). by rewrite Htag.
  - cbn [app apply_loop]. fold (migration_path folder t). rewrite Ht. cbn [negb].
    destruct (Js.includes applied t).
    + apply bind_then_throw. intros _ s1. apply IH.
    + apply bind_then_throw. intros _ s1.
      apply bind_then_throw. intros sql s2.
      apply bind_then_throw. intros _ s3.
      apply bind_then_throw. intros now s4.
      apply bind_then_throw. intros _ s5. apply IH.
Qed.

(** Whatever its outcome, the loop executes and records entries in order,
    the not yet recorded ones only. *)
Lemma apply_loop_prefix (h : host) esc folder lp applied migs :
  ∀ k s,
    let run := apply_loop h esc folder lp applied migs k s in
    let new := List.filter (λ tag, negb (Js.includes applied tag)) migs in
    scripts_of run.2 `prefix_of` (script_text h folder <$> new) ∧
    inserts_of run.2 `prefix_of` (hash_literal <$> new).
Proof.
  induction migs as [|tag rest IH]; intros k s; cbn zeta.
  - cbn. split; apply prefix_nil.
  - cbn [apply_loop List.filter]. fold (migration_path folder tag).
    destruct (existsSync h (migration_path folder tag)) eqn:Hex; cbn [negb];
      [|split; apply prefix_nil].
    destruct (Js.includes applied tag); cbn [negb].
    + match goal with |- context [when ?b (console_log ?a)] =>
        destruct (when_calls b a s) as (e1 & Hw & _ & Hs1 & Hi1) end.
      erewrite bind_Ok by exact Hw. specialize (IH k s). cbn zeta in IH.
      destruct (apply_loop h esc folder lp applied rest k s) as [[r s2] e2].
      cbn [snd] in *. by rewrite scripts_of_app, inserts_of_app, Hs1, Hi1.
    + match goal with |- context [when ?b (console_log ?a)] =>
        destruct (when_calls b a s) as (e1 & Hw & _ & Hs1 & Hi1) end.
      erewrite bind_Ok by exact Hw.
      unfold existsSync in Hex. apply bool_decide_eq_true in Hex as [f Hf].
      assert (readFileSync h (migration_path folder tag) s = (Ok (file_text f), s, []))
        as Hread by (unfold readFileSync; by rewrite Hf).
      erewrite bind_Ok by exact Hread.
      cbn [fmap list_fmap].
      assert (script_text h folder tag = file_text f) as ->
        by (unfold script_text; by rewrite Hf).
      destruct (call_cases h (RunScript (file_text f)) s)
        as [([] & s1 & Hc)|(e & s1 & Hc)].
      2:{ erewrite bind_Throw by exact Hc. cbn [snd].
          rewrite !scripts_of_app, !inserts_of_app, Hs1, Hi1. cbn.
          split; [apply prefix_cons, prefix_nil|apply prefix_nil]. }
      erewrite bind_Ok by exact Hc.
      erewrite bind_Ok by reflexivity.
      destruct (call_cases h (InsertMigration esc (hash_literal tag) (st_clock s1)) s1)
        as [([] & s2 & Hc')|(e & s2 & Hc')].
      2:{ erewrite bind_Throw by exact Hc'. cbn [snd].
          rewrite !scripts_of_app, !inserts_of_app, Hs1, Hi1. cbn.
          split; apply prefix_cons, prefix_nil. }
      erewrite bind_Ok by exact Hc'.
      specialize (IH (S k) s2). cbn zeta in IH.
      destruct (apply_loop h esc folder lp applied rest (S k) s2) as [[r s3] e3].
      cbn [snd] in *. rewrite !scripts_of_app, !inserts_of_app, Hs1, Hi1. cbn.
      destruct IH as [IH1 IH2]. split; by apply prefix_cons.
Qed.

Lemma bind_fails_within {A B} (S I : list string) (m : M A) (k : A → M B) s :
  no_exit m →
  scripts_of (m s).2 = [] ∧ inserts_of (m s).2 = [] →
  (∀ a s1 e1, m s = (Ok a, s1, e1) → fails_within S I (k a s1)) →
  fails_within S I (bind m k s).
Proof.
  intros Hne [Hs Hi] Hk. unfold bind, fails_within in *.
  destruct (m s) as [[[a|e|c] s1] e1] eqn:Hm; cbn [snd] in Hs, Hi.
  - destruct (Hk _ _ _ eq_refl) as ((e & He) & H1 & H2).
    destruct (k a s1) as [[r s2] e2]. cbn [fst snd] in *.
    split; [eauto|]. by rewrite scripts_of_app, inserts_of_app, Hs, Hi.
  - split; [by eexists|]. cbn [snd]. rewrite Hs, Hi. split; apply prefix_nil.
  - by apply Hne in Hm.
Qed.

Lemma call_quiet (h : host) (c : command) (s : state) :
  scripts_of [Call c] = [] → inserts_of [Call c] = [] →
  scripts_of (call h c s).2 = [] ∧ inserts_of (call h c s).2 = [].
Proof.
  intros Hs Hi.
  by destruct (call_cases h c s) as [(r & s1 & ->)|(e & s1 & ->)].
Qed.

Lemma when_quiet (b : bool) args s :
  scripts_of (when b (console_log args) s).2 = [] ∧
  inserts_of (when b (console_log args) s).2 = [].
Proof. by destruct b. Qed.

(** C3, as amended. When the journal lists an entry whose file is missing,
    [applyMigrations] throws. The files are looked up entry by entry as the
    loop reaches them: what the call executes and records is an initial
    part of the not yet recorded entries that come before the first entry
    without a file; that entry and the later ones are neither executed nor
    recorded. The loop is the loop over the earlier entries followed by
    the throw of [Migration file not found]. *)
Theorem applyMigrations_missing_file (h : host) (n folder lp : string)
    (pre : list string) (tag : string) (rest : list string) (s : state) :
  Pg.identifier (escapeSchemaName n) = Some n →
  journal_of h folder = Some (pre ++ tag :: rest) →
  Forall (λ t, existsSync h (migration_path folder t) = true) pre →
  existsSync h (migration_path folder tag) = false →
  let before := pending (st_db s) n pre in
  fails_within (script_text h folder <$> before) (hash_literal <$> before)
    (applyMigrations h n folder lp s) ∧
  ∀ esc applied k s0,
    apply_loop h esc folder lp applied (pre ++ tag :: rest) k s0 =
    then_throw (file_not_found (migration_path folder tag))
      (apply_loop h esc folder lp applied pre k s0).
Proof.
  intros Hid Hj Hpre Htag before.
  split; [|intros; by apply apply_loop_missing].
  destruct (journal_of_read _ _ _ Hj) as [Hex Hread]. cbn zeta in Hex, Hread.
  unfold applyMigrations.
  apply bind_fails_within; [auto with no_exit|by apply call_quiet|].
  intros [] sA eA HA. apply call_Ok_inv in HA as (dA & Heng & -> & _).
  rewrite engine_set_search_path in Heng by done. injection Heng as <-.
  apply bind_fails_within; [auto with no_exit|by apply call_quiet|].
  intros sp sB eB HB. apply call_Ok_inv in HB as (dB & Heng & -> & _).
  cbn [engine st_db set_db] in Heng. injection Heng as <- <-.
  apply bind_fails_within; [no_exit|apply when_quiet|].
  intros [] sC eC HC.
  match type of HC with when ?b (console_log ?a) ?st = _ =>
    destruct (when_calls b a st) as (e3' & Hw' & _) end.
  rewrite Hw' in HC. injection HC as <- _.
  rewrite Hex. cbn [negb].
  apply bind_fails_within; [auto with no_exit|by rewrite Hread|].
  intros migs sD eD HD. rewrite Hread in HD. injection HD as <- <- _.
  rewrite length_app. cbn [length]. rewrite Nat.add_succ_r. cbn [Nat.eqb].
  apply bind_fails_within; [auto with no_exit|by apply call_quiet|].
  intros [] sE eE HE. apply call_Ok_inv in HE as (dE & Heng & -> & _).
  rewrite engine_create_table in Heng by done.
  cbn [st_db set_db set_faults set_schemas set_search_path db_schemas] in Heng.
  apply bind_fails_within; [auto with no_exit|by apply call_quiet|].
  intros applied sF eF HF. apply call_Ok_inv in HF as (dF & Heng' & -> & _).
  rewrite engine_select_hashes in Heng' by done. cbn [st_db set_db] in Heng'.
  assert (applied = applied_tags (st_db s) n) as ->.
  { unfold applied_tags, tracking, find_table in *.
    destruct (db_schemas (st_db s) !! n) as [sc|] eqn:Hsc; [|done]. cbn in *.
    destruct (sc !! MIGRATIONS_TABLE) as [rows|] eqn:Hmig.
    - injection Heng as <-. cbn in Heng'. rewrite Hsc in Heng'. cbn in Heng'.
      rewrite Hmig in Heng'. by injection Heng' as <- _.
    - injection Heng as <-. cbn in Heng'. rewrite lookup_insert_eq in Heng'.
      cbn in Heng'. rewrite lookup_insert_eq in Heng'. by injection Heng' as <- _. }
  unfold fails_within, bind. rewrite apply_loop_missing by done.
  match goal with |- context [apply_loop h ?esc folder lp ?ap pre 0 ?st] =>
    pose proof (apply_loop_prefix h esc folder lp ap pre 0 st) as Hp;
    pose proof (no_exit_apply_loop h esc folder lp ap pre 0 st) as Hne;
    destruct (apply_loop h esc folder lp ap pre 0 st) as [[[k'|e|c] s'] evs]
  end; cbn zeta in Hp; cbn [fst snd then_throw] in *.
  - split; [by eexists|done].
  - split; [by eexists|done].
  - by destruct (Hne c s' evs).
Qed.

(** C3 as stated fails: with a second entry whose file is missing, the
    first entry is executed and recorded before the call throws. *)
Lemma applyMigrations_partial_on_missing_file :
  let run := applyMigrations Demo.host_missing_file Demo.TENANT Demo.FOLDER "  "
               Demo.ready in
  journal_of Demo.host_missing_file Demo.FOLDER = Some Demo.SEQUENCE ∧
  existsSync Demo.host_missing_file Demo.FILE_0001 = false ∧
  run.1.1 = Throw (file_not_found Demo.FILE_0001) ∧
  scripts_of run.2 = [Demo.SQL_CREATE] ∧
  inserts_of run.2 = [hash_literal "0000_init"] ∧
  applied_tags (st_db Demo.ready) Demo.TENANT = [] ∧
  applied_tags (st_db run.1.2) Demo.TENANT = ["0000_init"] ∧
  table_exists (st_db run.1.2) Demo.TENANT DUMMY_TABLE = true.
Proof. vm_compute. done. Qed.

Lemma applyMigrations_missing_file_witness :
  let before := pending (st_db Demo.ready) Demo.TENANT ["0000_init"] in
  fails_within (script_text Demo.host_missing_file Demo.FOLDER <$> before)
    (hash_literal <$> before)
    (applyMigrations Demo.host_missing_file Demo.TENANT Demo.FOLDER "  " Demo.ready) ∧
  ∀ esc applied k s0,
    apply_loop Demo.host_missing_file esc Demo.FOLDER "  " applied
      (["0000_init"] ++ "0001_description" :: []) k s0 =
    then_throw (file_not_found (migration_path Demo.FOLDER "0001_description"))
      (apply_loop Demo.host_missing_file esc Demo.FOLDER "  " applied
         ["0000_init"] k s0).
Proof.
  apply (applyMigrations_missing_file Demo.host_missing_file Demo.TENANT
           Demo.FOLDER "  " ["0000_init"] "0001_description" [] Demo.ready).
  - reflexivity.
  - reflexivity.
  - repeat constructor.
  - reflexivity.
Defined.

(** ** Provisioning: cleanup and the error that reaches the caller *)

(** When the [try] block throws, the function drops the schema, logs a
    failure of the drop, ends the client and throws what the block threw. *)
Lemma createTenant_rethrows (h : host) (name : string) (s s1 : state)
    (e : Js.error) (ev1 : list event) :
  validateSchemaName name = None →
  provision h name (fresh_client s) = (Throw e, s1, ev1) →
  let drop := call h (DropSchemaIfExistsCascade (escapeSchemaName name)) s1 in
  createTenantSchemaWithMigrations h name s =
    (Throw e, drop.1.2,
     [NewClient] ++
     (ev1 ++ ([Call (DropSchemaIfExistsCascade (escapeSchemaName name))] ++
              cleanup_log name drop) ++ []) ++ [EndClient]).
Proof.
  intros Hv Hp. cbn zeta. unfold createTenantSchemaWithMigrations. rewrite Hv.
  unfold bind at 1. cbn [createPostgresClient]. fold (fresh_client s).
  unfold try_finally, try_catch at 1. rewrite Hp.
  unfold cleanup_and_rethrow, bind, try_catch.
  destruct (call_cases h (DropSchemaIfExistsCascade (escapeSchemaName name)) s1)
    as [([] & s2 & ->)|(ce & s2 & ->)]; cbn; by rewrite ?app_nil_r.
Qed.

(** C5. Whenever the provisioning steps (schema creation, migrations,
    verification of the tables) throw, [createTenantSchemaWithMigrations]
    sends [DROP SCHEMA IF EXISTS ... CASCADE] and then throws the very error
    of the provisioning steps: when the drop itself fails, its error is
    written to the console and does not replace the original one. *)
Theorem provisioning_failure_surfaces_original (h : host) (name : string)
    (s s1 : state) (e : Js.error) (ev1 : list event) :
  validateSchemaName name = None →
  provision h name (fresh_client s) = (Throw e, s1, ev1) →
  let drop := DropSchemaIfExistsCascade (escapeSchemaName name) in
  ∃ s2 log,
    createTenantSchemaWithMigrations h name s =
      (Throw e, s2, [NewClient] ++ ev1 ++ [Call drop] ++ log ++ [EndClient]) ∧
    match call h drop s1 with
    | (Throw cleanupError, s2', _) =>
        s2 = s2' ∧
        log = [ConsoleError
                 [Str ("Failed to cleanup schema " +:+ name +:+ ":");
                  Err cleanupError]]
    | (_, s2', _) => s2 = s2' ∧ log = []
    end.
Proof.
  intros Hv Hp drop.
  rewrite (createTenant_rethrows h name s s1 e ev1 Hv Hp). cbn zeta. fold drop.
  exists (call h drop s1).1.2, (cleanup_log name (call h drop s1)).
  split; [by rewrite app_nil_r, <- !app_assoc|].
  by destruct (call h drop s1) as [[[[]|ce|c] s2] ev2].
Qed.

(** Three statements in: the schema is made, the journal names a file that
    is not there, the drop succeeds. *)
Lemma provisioning_failure_surfaces_original_witness :
  let drop := DropSchemaIfExistsCascade (escapeSchemaName Demo.TENANT) in
  let tried := provision Demo.host_missing_file Demo.TENANT (fresh_client Demo.fresh) in
  ∃ s2 log,
    createTenantSchemaWithMigrations Demo.host_missing_file Demo.TENANT Demo.fresh =
      (Throw (file_not_found Demo.FILE_0001), s2,
       [NewClient] ++ tried.2 ++ [Call drop] ++ log ++ [EndClient]) ∧
    match call Demo.host_missing_file drop tried.1.2 with
    | (Throw cleanupError, s2', _) =>
        s2 = s2' ∧
        log = [ConsoleError
                 [Str ("Failed to cleanup schema " +:+ Demo.TENANT +:+ ":");
                  Err cleanupError]]
    | (_, s2', _) => s2 = s2' ∧ log = []
    end.
Proof.
  apply (provisioning_failure_surfaces_original Demo.host_missing_file Demo.TENANT
           Demo.fresh).
  - reflexivity.
  - vm_compute. reflexivity.
Defined.

(** The same provisioning on a connection that breaks at the eighth
    statement, the drop: the caller still gets [Migration file not found]. *)
Example cleanup_failure_is_logged :
  let s := Demo.state_of (st_db Demo.fresh)
             (replicate 7 None ++ [Some "connection lost"]) in
  let run := createTenantSchemaWithMigrations Demo.host_missing_file Demo.TENANT s in
  run.1.1 = Throw (file_not_found Demo.FILE_0001) ∧
  ConsoleError
    [Str ("Failed to cleanup schema " +:+ Demo.TENANT +:+ ":");
     Err (Js.Error "connection lost")] ∈ run.2 ∧
  schema_exists (st_db run.1.2) Demo.TENANT = true.
Proof.
  split; [by vm_compute|]. split; [|by vm_compute].
  apply list_elem_of_In. vm_compute. tauto.
Qed.

(** ** Provisioning: the table that landed in [public] *)

Lemma misrouted_note_changes (msg : string) : msg +:+ MISROUTED_NOTE ≠ msg.
Proof.
  intros H. apply (f_equal String.length) in H.
  rewrite app_length_string in H. cbn in H. lia.
Qed.

(** C8. Let the schema be created and the migrations applied, and let
    [dummy_table] be missing from the tenant schema. Then
    [createTenantSchemaWithMigrations] throws: when the table is in [public]
    the missing-table message followed by the note that the table exists in
    the public schema instead, when it is in neither the missing-table
    message alone; the two errors differ. *)
Theorem misrouted_migration_is_distinct (h : host) (name : string)
    (s s1 : state) (ev1 : list event) :
  validateSchemaName name = None →
  create_and_migrate h name (fresh_client s) = (Ok tt, s1, ev1) →
  st_faults s1 = [] →
  table_exists (st_db s1) name DUMMY_TABLE = false →
  let tables :=
    sorted_names (elements (dom (default ∅ (db_schemas (st_db s1) !! name)))) in
  let msg := missing_table_message name tables in
  (table_exists (st_db s1) "public" DUMMY_TABLE = true →
     (createTenantSchemaWithMigrations h name s).1.1 =
       Throw (Js.Error (msg +:+ MISROUTED_NOTE))) ∧
  (table_exists (st_db s1) "public" DUMMY_TABLE = false →
     (createTenantSchemaWithMigrations h name s).1.1 = Throw (Js.Error msg)) ∧
  Js.Error (msg +:+ MISROUTED_NOTE) ≠ Js.Error msg.
Proof.
  intros Hv Hcm Hf Hmiss tables msg.
  assert (∃ evs,
            provision h name (fresh_client s) =
              (Throw (Js.Error
                        (if table_exists (st_db s1) "public" DUMMY_TABLE
                         then msg +:+ MISROUTED_NOTE else msg)), s1, evs))
    as (evs & Hp).
  { unfold provision. erewrite bind_Ok by exact Hcm. unfold verify_tables.
    erewrite bind_Ok;
      [|rewrite call_sound by done; cbn [engine]; by rewrite set_db_same].
    erewrite bind_Ok by reflexivity.
    erewrite bind_Ok;
      [|rewrite call_sound by done; cbn [engine]; by rewrite set_db_same].
    rewrite Hmiss. cbn [negb].
    erewrite bind_Ok;
      [|rewrite call_sound by done; cbn [engine]; by rewrite set_db_same].
    fold tables. fold msg.
    destruct (table_exists (st_db s1) "public" DUMMY_TABLE); cbn; eauto. }
  pose proof (createTenant_rethrows h name s s1 _ evs Hv Hp) as Hc.
  cbn zeta in Hc. rewrite Hc. cbn [fst].
  split; [by intros ->|]. split; [by intros ->|].
  intros [= H]. by apply misrouted_note_changes in H.
Qed.

(** A migration that names [public.dummy_table] is reported as misrouted; a
    provisioning that creates no table at all is reported as missing. *)
Lemma misrouted_migration_is_distinct_witness :
  (createTenantSchemaWithMigrations Demo.host_misrouted Demo.TENANT Demo.fresh).1.1 =
    Throw (Js.Error (missing_table_message Demo.TENANT [MIGRATIONS_TABLE]
                       +:+ MISROUTED_NOTE)) ∧
  (createTenantSchemaWithMigrations Demo.host_empty_journal Demo.TENANT Demo.fresh).1.1 =
    Throw (Js.Error (missing_table_message Demo.TENANT [])).
Proof.
  split.
  - pose (run := create_and_migrate Demo.host_misrouted Demo.TENANT
                   (fresh_client Demo.fresh)).
    destruct (misrouted_migration_is_distinct Demo.host_misrouted Demo.TENANT
                Demo.fresh run.1.2 run.2) as (H & _ & _).
    + reflexivity.
    + vm_compute. reflexivity.
    + reflexivity.
    + vm_compute. reflexivity.
    + apply H. vm_compute. reflexivity.
  - pose (run := create_and_migrate Demo.host_empty_journal Demo.TENANT
                   (fresh_client Demo.fresh)).
    destruct (misrouted_migration_is_distinct Demo.host_empty_journal Demo.TENANT
                Demo.fresh run.1.2 run.2) as (_ & H & _).
    + reflexivity.
    + vm_compute. reflexivity.
    + reflexivity.
    + vm_compute. reflexivity.
    + apply H. vm_compute. reflexivity.
Defined.

(** ** Fleet migration *)

Lemma migrate_one_run (h : host) (name : string) (results : migrate_results)
    (s : state) :
  ∃ evs,
    migrate_one h name results s =
      (Ok (tally results [(name, (createTenantSchemaWithMigrations h name s).1.1)]),
       (createTenantSchemaWithMigrations h name s).1.2, evs) ∧
    ∀ c, (createTenantSchemaWithMigrations h name s).1.1 ≠ Exit c.
Proof.
  pose proof (no_exit_createTenantSchemaWithMigrations h name s) as Hne.
  unfold migrate_one, try_catch, bind, console_log, console_error, emit, ret, tally.
  destruct (createTenantSchemaWithMigrations h name s) as [[[[]|e|c] s1] e1];
    cbn [fst snd List.filter succeeded failure_entry omap list_omap length].
  - rewrite ?Nat.add_0_r, ?Nat.add_1_r, ?app_nil_r.
    eexists. split; [reflexivity|done].
  - rewrite ?Nat.add_0_r, ?Nat.add_1_r, ?app_nil_r.
    eexists. split; [reflexivity|done].
  - by destruct (Hne c s1 e1).
Qed.

Lemma tally_cons (results : migrate_results) a l :
  tally (tally results [a]) l = tally results (a :: l).
Proof.
  unfold tally. cbn [success failures errors List.filter omap list_omap].
  destruct (succeeded a), (failure_entry a); cbn [length app];
    f_equal; rewrite <- ?app_assoc; cbn [app]; try lia; done.
Qed.

Lemma migrate_loop_run (h : host) (schemas : list string) :
  ∀ results s,
    ∃ s' evs,
      migrate_loop h schemas results s =
        (Ok (tally results (attempts h schemas s)), s', evs) ∧
      length (List.filter succeeded (attempts h schemas s)) +
        length (omap failure_entry (attempts h schemas s)) = length schemas.
Proof.
  induction schemas as [|name rest IH]; intros results s.
  - cbn. unfold tally. cbn. rewrite !Nat.add_0_r, app_nil_r.
    destruct results. eauto.
  - cbn [migrate_loop attempts].
    destruct (migrate_one_run h name results s) as (e1 & Hone & Hne).
    erewrite bind_Ok by exact Hone.
    destruct (IH (tally results [(name, (createTenantSchemaWithMigrations h name s).1.1)])
                (createTenantSchemaWithMigrations h name s).1.2)
      as (s' & e2 & -> & Hlen).
    rewrite tally_cons. do 2 eexists. split; [done|].
    cbn [List.filter omap list_omap length].
    destruct (succeeded _) eqn:Hs, (failure_entry _) eqn:Hf;
      unfold succeeded, failure_entry in Hs, Hf; cbn [fst snd] in Hs, Hf;
      destruct ((createTenantSchemaWithMigrations h name s).1.1) as [[]|e|c] eqn:Hr;
      try done; cbn [length]; try lia; by destruct (Hne c).
Qed.

(** The turn of the loop with its state and all it sends and prints: the
    call of [createTenantSchemaWithMigrations] is made, whatever the turns
    before it did, and what it throws ends in the report. *)
Lemma migrate_one_exact (h : host) (name : string) (results : migrate_results)
    (s : state) :
  let run := createTenantSchemaWithMigrations h name s in
  migrate_one h name results s =
    (Ok (tally results [(name, run.1.1)]), run.1.2,
     [ConsoleLog [Str ("Migrating schema: " +:+ name)]] ++ run.2 ++
     attempt_line name run.1.1).
Proof.
  cbn zeta.
  pose proof (no_exit_createTenantSchemaWithMigrations h name s) as Hne.
  unfold migrate_one, try_catch, bind, console_log, console_error, emit, ret, tally.
  destruct (createTenantSchemaWithMigrations h name s) as [[[[]|e|c] s1] e1];
    cbn [fst snd List.filter succeeded failure_entry omap list_omap length
         attempt_line].
  - rewrite ?Nat.add_0_r, ?Nat.add_1_r, ?app_nil_r. done.
  - rewrite ?Nat.add_0_r, ?Nat.add_1_r, ?app_nil_r. cbn [app]. done.
  - by destruct (Hne c s1 e1).
Qed.

Lemma migrate_loop_exact (h : host) (schemas : list string) :
  ∀ results s,
    migrate_loop h schemas results s =
      (Ok (tally results (attempts h schemas s)), attempts_end h schemas s,
       attempts_log h schemas s).
Proof.
  induction schemas as [|name rest IH]; intros results s.
  - cbn. unfold tally. cbn. rewrite !Nat.add_0_r, app_nil_r. by destruct results.
  - cbn [migrate_loop attempts attempts_end attempts_log].
    erewrite bind_Ok by apply migrate_one_exact.
    rewrite IH, tally_cons. by rewrite <- !app_assoc.
Qed.

(** Every attempt is the call for its name, from the state the attempts
    before it left. *)
Lemma attempts_lookup (h : host) (schemas : list string) :
  ∀ s i name,
    schemas !! i = Some name →
    attempts h schemas s !! i =
      Some (name,
            (createTenantSchemaWithMigrations h name
               (attempts_end h (take i schemas) s)).1.1).
Proof.
  induction schemas as [|n rest IH]; intros s i name Hi; [done|].
  destruct i as [|i]; cbn in Hi |- *; [by injection Hi as ->|].
  by apply IH.
Qed.

(** C6. Once the registry has been read, [migrateAllTenantSchemas] returns
    normally whatever happens to the schemas: each registered schema is
    attempted in turn with [createTenantSchemaWithMigrations], from the
    state the previous attempt left, whether that attempt returned or threw.
    The state the function ends in and everything it sends and prints are
    those of these attempts; the report counts the attempts that returned,
    lists the schema and the message of each attempt that threw, in order,
    and its two counts add up to the number of registered schemas. *)
Theorem migrateAll_isolates_failures (h : host) (s s0 : state)
    (schemas : list string) (ev0 : list event) :
  call h SelectSchemaTracker (fresh_client s) = (Ok schemas, s0, ev0) →
  ∃ r,
    migrateAllTenantSchemas h s =
      (Ok r, attempts_end h schemas s0,
       [NewClient] ++ ev0 ++
       (if decide (schemas = [])
        then [ConsoleLog [Str "No tenant schemas found in schema_tracker"]]
        else
          [ConsoleLog [Str ("Found " +:+ pretty (length schemas) +:+
                            " tenant schema(s) to migrate")]] ++
          attempts_log h schemas s0 ++
          [ConsoleLog [Str ("Migration summary: " +:+ pretty (success r) +:+
                            " succeeded, " +:+ pretty (failures r) +:+ " failed")]]) ++
       [EndClient]) ∧
    (∀ i name,
       schemas !! i = Some name →
       attempts h schemas s0 !! i =
         Some (name,
               (createTenantSchemaWithMigrations h name
                  (attempts_end h (take i schemas) s0)).1.1)) ∧
    success r = length (List.filter succeeded (attempts h schemas s0)) ∧
    errors r = omap failure_entry (attempts h schemas s0) ∧
    failures r = length (errors r) ∧
    success r + failures r = length schemas ∧
    (attempts h schemas s0).*1 = schemas.
Proof.
  intros Hsel. unfold migrateAllTenantSchemas.
  unfold bind at 1. cbn [createPostgresClient]. fold (fresh_client s).
  unfold try_finally, client_end, emit.
  assert ((attempts h schemas s0).*1 = schemas) as Hnames.
  { clear Hsel. revert s0. induction schemas as [|n rest IH]; intros s0; [done|].
    cbn. by rewrite IH. }
  erewrite bind_Ok by exact Hsel.
  destruct (length schemas =? 0) eqn:Hlen.
  - apply Nat.eqb_eq, length_zero_iff_nil in Hlen. subst schemas.
    erewrite bind_Ok by reflexivity. cbn [ret].
    exists {| success := 0; failures := 0; errors := [] |}.
    rewrite decide_True by done.
    split; [by rewrite <- !app_assoc|]. cbn. done.
  - assert (schemas ≠ []) as Hne by (by intros ->).
    destruct (migrate_loop_run h schemas {| success := 0; failures := 0; errors := [] |} s0)
      as (s' & e2 & _ & Hcount).
    erewrite bind_Ok by reflexivity. erewrite bind_Ok by apply migrate_loop_exact.
    exists (tally {| success := 0; failures := 0; errors := [] |}
              (attempts h schemas s0)).
    rewrite decide_False by done.
    split.
    { erewrite bind_Ok by reflexivity. cbn [ret]. by rewrite <- !app_assoc. }
    split; [apply attempts_lookup|].
    cbn [success failures errors tally app].
    repeat split; try done; lia.
Qed.

(** A registered tenant that is behind, and a journal whose second file is
    missing: the attempt is recorded as a failure, and its cleanup has
    dropped the schema of the tenant. *)
Example failed_catch_up_drops_schema :
  let run := migrateAllTenantSchemas Demo.host_missing_file Demo.half_migrated in
  schema_exists (st_db Demo.half_migrated) Demo.TENANT = true ∧
  run.1.1 =
    Ok {| success := 0; failures := 1;
          errors := [(Demo.TENANT, Js.message (file_not_found Demo.FILE_0001))] |} ∧
  schema_exists (st_db run.1.2) Demo.TENANT = false.
Proof. vm_compute. repeat split. Qed.

(** Three registered tenants, the connection failing on the second: the
    first and the third have their table at the end, the second is listed
    with its error. *)
Lemma migrateAll_isolates_failures_witness :
  ∃ r s' evs,
    migrateAllTenantSchemas Demo.host_full Demo.fleet = (Ok r, s', evs) ∧
    success r = 2 ∧
    errors r = [("tenant_b", "connection lost")] ∧
    failures r = 1 ∧
    success r + failures r = 3 ∧
    table_exists (st_db s') "tenant_a" DUMMY_TABLE = true ∧
    schema_exists (st_db s') "tenant_b" = false ∧
    table_exists (st_db s') "tenant_c" DUMMY_TABLE = true ∧
    applied_tags (st_db s') "tenant_c" = Demo.SEQUENCE.
Proof.
  pose (first := call Demo.host_full SelectSchemaTracker (fresh_client Demo.fleet)).
  destruct (migrateAll_isolates_failures Demo.host_full Demo.fleet first.1.2
              ["tenant_a"; "tenant_b"; "tenant_c"] first.2)
    as (r & Hrun & _ & Hs & He & Hf & Hsum & _).
  - vm_compute. reflexivity.
  - exists r. do 2 eexists. split; [exact Hrun|].
    rewrite Hf, He, Hs. vm_compute. repeat split; reflexivity.
Defined.

(** ** The health check of a registered schema *)

Ltac split_call h :=
  match goal with
  | |- context [call h ?c ?s] =>
      destruct (call_cases h c s) as [(? & ? & ->)|(? & ? & ->)]
  end.

(** The inner [try] never throws: it falls through with the results
    untouched or continues with one more unhealthy entry. *)
Lemma migration_status_run (h : host) (expected : list string) (name : string)
    (results : health_results) (s : state) :
  ∃ fl r s' evs,
    migration_status h expected name results s = (Ok (fl, r), s', evs) ∧
    ((fl = FallThrough ∧ r = results) ∨
     (fl = Continue ∧ ∃ issue, r = push_unhealthy name issue results)).
Proof.
  unfold migration_status, try_catch, bind, tableExistsInSchema,
    getAppliedMigrations, console_log, emit, ret, when.
  split_call h; cbn -[call]; [|by eauto 10].
  match goal with |- context [negb ?b] => destruct b end; cbn -[call];
    [|by eauto 10].
  split_call h; cbn -[call]; [|by eauto 10].
  match goal with |- context [if ?b then _ else _] => destruct b end;
    cbn -[call]; [by eauto 10|].
  match goal with |- context [if ?b then _ else _] => destruct b end;
    cbn -[call]; by eauto 10.
Qed.

(** One turn of the loop adds exactly one entry: the schema is healthy, or
    it is unhealthy with one issue. *)
Lemma check_schema_run (h : host) (expected : list string) (name : string)
    (results : health_results) (s : state) :
  ∃ r s' evs,
    check_schema h expected name results s = (Ok r, s', evs) ∧
    (r = push_healthy name results ∨
     ∃ issue, r = push_unhealthy name issue results).
Proof.
  unfold check_schema, try_catch, bind at 1, schemaExistsInDatabase, console_log,
    emit, ret.
  split_call h; cbn -[call migration_status bind]; [|by eauto 10].
  match goal with |- context [negb ?b] => destruct b end;
    cbn -[call migration_status bind]; [|by eauto 10].
  unfold bind at 1, setSearchPath.
  split_call h; cbn -[call migration_status bind]; [|by eauto 10].
  unfold bind at 1, tableExistsInSchema.
  split_call h; cbn -[call migration_status bind]; [|by eauto 10].
  match goal with |- context [negb ?b] => destruct b end;
    cbn -[call migration_status bind]; [|by eauto 10].
  unfold bind.
  match goal with |- context [migration_status h expected name results ?st] =>
    destruct (migration_status_run h expected name results st)
      as (fl & r & s' & evs & -> & [[-> ->]|[-> [issue ->]]])
  end; cbn; eauto 10.
Qed.

(** On a sound connection the turn reports what the four checks of the
    specification give, in their order. *)
Lemma check_schema_sound (h : host) (expected : list string) (name : string)
    (results : health_results) (s : state) :
  st_faults s = [] →
  Pg.identifier (escapeSchemaName name) = Some name →
  ∃ s' evs,
    check_schema h expected name results s =
      (Ok (report name (audit_schema (st_db s) expected name) results), s', evs).
Proof.
  intros Hf Hid. unfold check_schema, try_catch, schemaExistsInDatabase, audit_schema.
  unfold bind at 1. rewrite call_sound by done. cbn [engine]. rewrite set_db_same.
  destruct (schema_exists (st_db s) name); cbn [negb]; [|cbn; eauto].
  unfold bind at 1, setSearchPath. rewrite call_sound by done.
  rewrite engine_set_search_path by done.
  set (sA := set_db (set_search_path [name; "public"] (st_db s)) s).
  assert (st_faults sA = []) as HfA by done.
  unfold bind at 1, tableExistsInSchema. rewrite call_sound by done.
  cbn [engine]. rewrite set_db_same.
  change (table_exists (st_db sA) name DUMMY_TABLE)
    with (table_exists (st_db s) name DUMMY_TABLE).
  destruct (table_exists (st_db s) name DUMMY_TABLE); cbn [negb]; [|cbn; eauto].
  unfold bind at 1, migration_status, try_catch, tableExistsInSchema,
    getAppliedMigrations.
  unfold bind at 1. rewrite call_sound by done. cbn [engine]. rewrite set_db_same.
  change (table_exists (st_db sA) name MIGRATIONS_TABLE)
    with (bool_decide (is_Some (tracking (st_db s) name))).
  destruct (tracking (st_db s) name) as [rows|] eqn:Hrows; cbn [negb bool_decide];
    [|cbn; eauto].
  rewrite bool_decide_eq_true_2 by eauto. cbn [negb].
  unfold bind at 1. rewrite call_sound by done.
  rewrite engine_select_hashes by done.
  change (tracking (st_db sA) name) with (tracking (st_db s) name).
  rewrite Hrows, set_db_same.
  destruct (missing_of expected rows.*1) as [|m ms] eqn:Hm;
    destruct (extra_of expected rows.*1) as [|x xs] eqn:Hx;
    try (cbn; by eauto).
  destruct (length expected); cbn; eauto.
Qed.

(** A tracking table that has every expected tag but one, and no other. *)
Lemma one_missing (expected applied : list string) (tag : string) :
  NoDup expected → tag ∈ expected →
  (∀ m, m ∈ applied ↔ m ∈ expected ∧ m ≠ tag) →
  missing_of expected applied = [tag] ∧ extra_of expected applied = [].
Proof.
  intros Hnd Htag Happ. split.
  - unfold missing_of. clear -Hnd Htag Happ.
    assert (∀ m, m ∈ expected →
                 negb (Js.includes applied m) = bool_decide (m = tag)) as Hone.
    { intros m Hm. destruct (Js.includes applied m) eqn:Hin; cbn [negb].
      - apply includes_true, Happ in Hin as [_ Hne].
        by rewrite bool_decide_eq_false_2.
      - destruct (decide (m = tag)) as [->|Hne]; [by rewrite bool_decide_eq_true_2|].
        assert (m ∈ applied) as Hin'%includes_true by (by apply Happ).
        congruence. }
    clear Happ. induction Hnd as [|x l Hx Hnd IH]; [by apply elem_of_nil in Htag|].
    cbn [List.filter]. rewrite Hone by left.
    assert (∀ m, m ∈ l → negb (Js.includes applied m) = bool_decide (m = tag))
      as Hone' by (intros m Hm; apply Hone; by right).
    destruct (decide (x = tag)) as [->|Hne].
    + rewrite bool_decide_eq_true_2 by done. f_equal.
      apply filter_none. intros m Hm%list_elem_of_In. rewrite Hone' by done.
      apply bool_decide_eq_false_2. by intros ->.
    + rewrite bool_decide_eq_false_2 by done. apply IH; [|done].
      apply elem_of_cons in Htag as [->|]; done.
  - unfold extra_of. apply filter_none. intros m Hm%list_elem_of_In.
    apply Happ in Hm as [Hm _]. apply includes_true in Hm. by rewrite Hm.
Qed.

(** *** The older copy of the turn *)

Lemma legacy_migration_status_run (h : host) (name : string)
    (results : health_results) (s : state) :
  ∃ fl r s' evs,
    Legacy.migration_status h name results s = (Ok (fl, r), s', evs) ∧
    ((fl = FallThrough ∧ r = results) ∨
     (fl = Continue ∧ ∃ issue, r = push_unhealthy name issue results)).
Proof.
  unfold Legacy.migration_status, try_catch, bind, console_log, emit, ret.
  split_call h; cbn -[call]; [|by eauto 10].
  match goal with |- context [negb ?b] => destruct b end; cbn -[call];
    [|by eauto 10].
  split_call h; cbn -[call]; by eauto 10.
Qed.

Lemma legacy_check_schema_run (h : host) (name : string)
    (results : health_results) (s : state) :
  ∃ r s' evs,
    Legacy.check_schema h name results s = (Ok r, s', evs) ∧
    (r = push_healthy name results ∨
     ∃ issue, r = push_unhealthy name issue results).
Proof.
  unfold Legacy.check_schema, try_catch, bind at 1, console_log, emit, ret.
  split_call h; cbn -[call Legacy.migration_status bind]; [|by eauto 10].
  match goal with |- context [negb ?b] => destruct b end;
    cbn -[call Legacy.migration_status bind]; [|by eauto 10].
  unfold bind at 1, setSearchPath.
  split_call h; cbn -[call Legacy.migration_status bind]; [|by eauto 10].
  unfold bind at 1.
  split_call h; cbn -[call Legacy.migration_status bind]; [|by eauto 10].
  match goal with |- context [negb ?b] => destruct b end;
    cbn -[call Legacy.migration_status bind]; [|by eauto 10].
  unfold bind.
  match goal with |- context [Legacy.migration_status h name results ?st] =>
    destruct (legacy_migration_status_run h name results st)
      as (fl & r & s' & evs & -> & [[-> ->]|[-> [issue ->]]])
  end; cbn; eauto 10.
Qed.

(** On a sound connection the older copy reports what the first three
    checks give: it counts the rows of the tracking table and goes on. *)
Lemma legacy_check_schema_sound (h : host) (name : string)
    (results : health_results) (s : state) :
  st_faults s = [] →
  Pg.identifier (escapeSchemaName name) = Some name →
  Pg.identifier (Legacy.raw_quoted name) = Some name →
  ∃ s' evs,
    Legacy.check_schema h name results s =
      (Ok (report name (legacy_audit (st_db s) name) results), s', evs).
Proof.
  intros Hf Hid Hraw. unfold Legacy.check_schema, try_catch, legacy_audit.
  unfold bind at 1. rewrite call_sound by done. cbn [engine]. rewrite set_db_same.
  destruct (schema_exists (st_db s) name); cbn [negb]; [|cbn; eauto].
  unfold bind at 1, setSearchPath. rewrite call_sound by done.
  rewrite engine_set_search_path by done.
  set (sA := set_db (set_search_path [name; "public"] (st_db s)) s).
  assert (st_faults sA = []) as HfA by done.
  unfold bind at 1. rewrite call_sound by done. cbn [engine]. rewrite set_db_same.
  change (table_exists (st_db sA) name DUMMY_TABLE)
    with (table_exists (st_db s) name DUMMY_TABLE).
  destruct (table_exists (st_db s) name DUMMY_TABLE); cbn [negb]; [|cbn; eauto].
  unfold bind at 1, Legacy.migration_status, try_catch.
  unfold bind at 1. rewrite call_sound by done. cbn [engine]. rewrite set_db_same.
  change (table_exists (st_db sA) name MIGRATIONS_TABLE)
    with (table_exists (st_db s) name MIGRATIONS_TABLE).
  destruct (table_exists (st_db s) name MIGRATIONS_TABLE) eqn:Hm; cbn [negb];
    [|cbn; eauto].
  unfold bind at 1. rewrite call_sound by done.
  cbn [engine]. unfold with_ident. rewrite Hraw.
  change (tracking (st_db sA) name) with (tracking (st_db s) name).
  unfold table_exists in Hm. apply bool_decide_eq_true in Hm as [rows Hrows].
  unfold tracking. rewrite Hrows. cbn. eauto.
Qed.

Lemma legacy_audit_existence (d : database) (name : string) (rows : list migration_row) :
  schema_exists d name = true →
  table_exists d name DUMMY_TABLE = true →
  tracking d name = Some rows →
  legacy_audit d name = None.
Proof.
  intros Hs Ht Hrows. unfold legacy_audit. rewrite Hs, Ht. cbn [negb].
  unfold table_exists. unfold tracking in Hrows. rewrite Hrows.
  by rewrite bool_decide_eq_true_2.
Qed.

(** C4. A turn of the health check over a registered schema adds exactly
    one entry to the report, a healthy one or an unhealthy one with a single
    issue. On a sound connection the entry is the one the checks of the
    specification give in their order: existence of the schema, then of
    [dummy_table], then of the tracking table, then the comparison of the
    applied tags with the tags of the journal. In particular a schema
    whose tracking table has every expected tag but one, and no other,
    is reported with a migration mismatch that names that tag as missing
    and no extra tag. The older copy of the script
    ([db/scripts/health-check.ts]) adds one entry each turn as well, and on a
    sound connection it is the one the first three checks give: it counts
    the rows of the tracking table without comparing them, and reports a
    schema that has the schema, [dummy_table] and the tracking table
    healthy, whatever tags are recorded. *)
Theorem check_schema_classifies (h : host) (expected : list string)
    (name : string) (results : health_results) (s : state) :
  ((∃ r s' evs,
      check_schema h expected name results s = (Ok r, s', evs) ∧
      (r = push_healthy name results ∨
       ∃ issue, r = push_unhealthy name issue results)) ∧
   (st_faults s = [] →
    Pg.identifier (escapeSchemaName name) = Some name →
    (∃ s' evs,
       check_schema h expected name results s =
         (Ok (report name (audit_schema (st_db s) expected name) results), s', evs)) ∧
    ∀ rows tag,
      schema_exists (st_db s) name = true →
      table_exists (st_db s) name DUMMY_TABLE = true →
      tracking (st_db s) name = Some rows →
      NoDup expected → tag ∈ expected →
      (∀ m, m ∈ rows.*1 ↔ m ∈ expected ∧ m ≠ tag) →
      audit_schema (st_db s) expected name = Some (MigrationMismatch [tag] []) ∧
      ∃ s' evs,
        check_schema h expected name results s =
          (Ok (push_unhealthy name
                 ("Migration mismatch: Missing migrations: " +:+ tag) results),
           s', evs))) ∧
  ((∃ r s' evs,
      Legacy.check_schema h name results s = (Ok r, s', evs) ∧
      (r = push_healthy name results ∨
       ∃ issue, r = push_unhealthy name issue results)) ∧
   (st_faults s = [] →
    Pg.identifier (escapeSchemaName name) = Some name →
    Pg.identifier (Legacy.raw_quoted name) = Some name →
    (∃ s' evs,
       Legacy.check_schema h name results s =
         (Ok (report name (legacy_audit (st_db s) name) results), s', evs)) ∧
    ∀ rows,
      schema_exists (st_db s) name = true →
      table_exists (st_db s) name DUMMY_TABLE = true →
      tracking (st_db s) name = Some rows →
      ∃ s' evs,
        Legacy.check_schema h name results s =
          (Ok (push_healthy name results), s', evs))).
Proof.
  split; (split; [first [apply check_schema_run|apply legacy_check_schema_run]|]).
  - intros Hf Hid.
    pose proof (check_schema_sound h expected name results s Hf Hid) as Hsound.
    split; [done|]. intros rows tag Hs Ht Hrows Hnd Htag Happ.
    destruct (one_missing expected rows.*1 tag Hnd Htag Happ) as [Hm Hx].
    assert (audit_schema (st_db s) expected name = Some (MigrationMismatch [tag] []))
      as Haudit.
    { unfold audit_schema. by rewrite Hs, Ht, Hrows, Hm, Hx. }
    split; [done|]. by rewrite Haudit in Hsound.
  - intros Hf Hid Hraw.
    pose proof (legacy_check_schema_sound h name results s Hf Hid Hraw) as Hsound.
    split; [done|]. intros rows Hs Ht Hrows.
    by rewrite (legacy_audit_existence _ _ rows Hs Ht Hrows) in Hsound.
Qed.

Lemma check_schema_classifies_witness :
  (audit_schema (st_db Demo.half_migrated) Demo.SEQUENCE Demo.TENANT =
     Some (MigrationMismatch ["0001_description"] []) ∧
   ∃ s' evs,
     check_schema Demo.host_full Demo.SEQUENCE Demo.TENANT Demo.NO_RESULTS
       Demo.half_migrated =
       (Ok (push_unhealthy Demo.TENANT
              ("Migration mismatch: Missing migrations: " +:+ "0001_description")
              Demo.NO_RESULTS), s', evs)) ∧
  ∃ s' evs,
    Legacy.check_schema Demo.host_full Demo.TENANT Demo.NO_RESULTS
      Demo.half_migrated =
      (Ok (push_healthy Demo.TENANT Demo.NO_RESULTS), s', evs).
Proof.
  destruct (check_schema_classifies Demo.host_full Demo.SEQUENCE Demo.TENANT
              Demo.NO_RESULTS Demo.half_migrated) as [[_ H] [_ L]].
  split.
  - destruct H as [_ H]; [reflexivity|reflexivity|].
    apply (H [Demo.ROW_0000] "0001_description").
    + reflexivity.
    + reflexivity.
    + reflexivity.
    + by apply (bool_decide_unpack _).
    + by apply (bool_decide_unpack _).
    + intros m. cbn. rewrite !elem_of_cons, !elem_of_nil. unfold Demo.SEQUENCE.
      rewrite !elem_of_cons, !elem_of_nil. split.
      * intros [->|[]]. split; [by left|done].
      * intros [[->|[->|[]]] Hne]; [by left|done].
  - destruct L as [_ L]; [reflexivity|reflexivity|reflexivity|].
    apply (L [Demo.ROW_0000]); reflexivity.
Defined.

(** The tracking table of the tenant lacks exactly the second tag of the
    journal and holds no other. The older copy of the script makes no fourth
    check: it sends its count and reports the schema healthy, where the
    comparison gives a migration mismatch. *)
Lemma legacy_check_does_not_compare :
  let run :=
    Legacy.check_schema Demo.host_full Demo.TENANT Demo.NO_RESULTS
      Demo.half_migrated in
  journal_of Demo.host_full Demo.FOLDER = Some Demo.SEQUENCE ∧
  applied_tags (st_db Demo.half_migrated) Demo.TENANT = ["0000_init"] ∧
  audit_schema (st_db Demo.half_migrated) Demo.SEQUENCE Demo.TENANT =
    Some (MigrationMismatch ["0001_description"] []) ∧
  run.1.1 = Ok (push_healthy Demo.TENANT Demo.NO_RESULTS) ∧
  unhealthySchemas (push_healthy Demo.TENANT Demo.NO_RESULTS) = [] ∧
  calls_of run.2 =
    [SchemaExists Demo.TENANT; SetSearchPath (escapeSchemaName Demo.TENANT);
     TableExists Demo.TENANT DUMMY_TABLE; TableExists Demo.TENANT MIGRATIONS_TABLE;
     CountMigrations (Legacy.raw_quoted Demo.TENANT)].
Proof. vm_compute. repeat split. Qed.

(** ** The orphan scan *)

Lemma orphan_fold (tracked all : list string) :
  ∀ results,
    let r := fold_left
               (λ r schema_name,
                  if negb (Js.includes tracked schema_name)
                  then push_orphaned schema_name r else r) all results in
    orphanedSchemas r =
      orphanedSchemas results ++
      List.filter (λ n, negb (Js.includes tracked n)) all ∧
    healthySchemas r = healthySchemas results ∧
    unhealthySchemas r = unhealthySchemas results ∧
    totalSchemas r = totalSchemas results.
Proof.
  induction all as [|n all IH]; intros results; cbn zeta.
  - cbn. by rewrite app_nil_r.
  - cbn [fold_left List.filter].
    destruct (negb (Js.includes tracked n)).
    + destruct (IH (push_orphaned n results)) as (-> & -> & -> & ->).
      cbn. by rewrite <- app_assoc.
    + apply IH.
Qed.

Lemma for_each_console_log {A} (f : A → list console_arg) (l : list A) (s : state) :
  for_each (λ x, console_log (f x)) l s = (Ok tt, s, (λ x, ConsoleLog (f x)) <$> l).
Proof.
  induction l as [|x l IH]; [done|]. cbn [for_each]. unfold bind.
  cbn [console_log emit]. by rewrite IH.
Qed.

(** The scan is its query followed by the fold over the answer; what it
    prints afterwards does not change the report. *)
Lemma orphan_scan_by_query (h : host) (tracked : list string)
    (results : health_results) (s : state) :
  match call h ListOrphanCandidates s with
  | (Ok all, s1, _) =>
      ∃ evs,
        orphan_scan h tracked results s =
          (Ok (fold_left
                 (λ r schema_name,
                    if negb (Js.includes tracked schema_name)
                    then push_orphaned schema_name r else r) all results),
           s1, evs)
  | (Throw e, s1, _) => ∃ evs, orphan_scan h tracked results s = (Throw e, s1, evs)
  | (Exit _, _, _) => False
  end.
Proof.
  unfold orphan_scan.
  destruct (call_cases h ListOrphanCandidates s) as [(all & s1 & Hc)|(e & s1 & Hc)];
    rewrite Hc; erewrite bind_Ok by reflexivity.
  - erewrite bind_Ok by exact Hc. cbn zeta. unfold bind.
    destruct (0 <? length _).
    + cbn [console_log emit]. rewrite for_each_console_log. cbn. eauto.
    + cbn. eauto.
  - erewrite bind_Throw by exact Hc. eauto.
Qed.

Lemma sorted_names_elem (l : list string) (n : string) :
  n ∈ sorted_names l ↔ n ∈ l.
Proof. unfold sorted_names. by rewrite merge_sort_Permutation. Qed.

(** On a sound connection the scan reports the schemas of the engine that
    pass the filter of its query and are not registered. *)
Lemma orphan_scan_sound (h : host) (tracked : list string)
    (results : health_results) (s : state) :
  st_faults s = [] →
  ∃ r evs,
    orphan_scan h tracked results s = (Ok r, s, evs) ∧
    healthySchemas r = healthySchemas results ∧
    unhealthySchemas r = unhealthySchemas results ∧
    ∀ n, n ∈ orphanedSchemas r ↔
         n ∈ orphanedSchemas results ∨
         (schema_exists (st_db s) n = true ∧ orphan_candidate n = true ∧
          n ∉ tracked).
Proof.
  intros Hf. pose proof (orphan_scan_by_query h tracked results s) as Hq.
  rewrite call_sound in Hq by done. cbn [engine] in Hq. rewrite set_db_same in Hq.
  destruct Hq as (evs & Hrun).
  match type of Hrun with context [fold_left ?f ?all results] =>
    destruct (orphan_fold tracked all results) as (Ho & Hh & Hu & _) end.
  do 2 eexists. split; [exact Hrun|]. split; [done|]. split; [done|].
  intros n. rewrite Ho, elem_of_app.
  apply or_iff_compat_l.
  rewrite list_elem_of_In, filter_In, <- list_elem_of_In, list_elem_of_filter,
    sorted_names_elem, elem_of_elements, elem_of_dom, negb_true_iff.
  unfold schema_exists. rewrite bool_decide_eq_true.
  assert (Js.includes tracked n = false ↔ n ∉ tracked) as ->.
  { rewrite <- includes_true. by destruct (Js.includes tracked n). }
  tauto.
Qed.

(** The filter of the query leaves out every name that begins with [pg]
    and has a third character, whatever that character is. *)
Lemma like_pg_any (c : ascii) (r : string) :
  Pg.like (String "p" (String "g" (String c r))) ORPHAN_NOT_LIKE = true.
Proof.
  unfold Pg.like, ORPHAN_NOT_LIKE. rewrite !chars_string.
  cbn -[Js.chars]. induction (Js.chars r) as [|d l IH]; [done|]. exact IH.
Qed.

(** So no schema with such a name is ever reported as orphaned, registered
    or not. *)
Lemma pg_named_never_orphaned (h : host) (tracked : list string)
    (results : health_results) (s : state) (c : ascii) (r : string) :
  st_faults s = [] →
  let name := String "p" (String "g" (String c r)) in
  name ∉ orphanedSchemas results →
  ∃ res evs,
    orphan_scan h tracked results s = (Ok res, s, evs) ∧
    name ∉ orphanedSchemas res.
Proof.
  intros Hf name Hnot.
  destruct (orphan_scan_sound h tracked results s Hf) as (res & evs & Hrun & _ & _ & Hin).
  exists res, evs. split; [done|]. rewrite Hin. intros [?|(_ & Hc & _)]; [done|].
  unfold orphan_candidate in Hc. subst name. rewrite like_pg_any in Hc.
  by rewrite andb_false_r in Hc.
Qed.

(** The loop gives every registered name its entry, healthy or unhealthy. *)
Lemma check_loop_covers (h : host) (expected tracked : list string) :
  ∀ results s,
    ∃ r s' evs,
      check_loop h expected tracked results s = (Ok r, s', evs) ∧
      healthySchemas r ++ (unhealthySchemas r).*1 ≡ₚ
        (healthySchemas results ++ (unhealthySchemas results).*1) ++ tracked ∧
      orphanedSchemas r = orphanedSchemas results.
Proof.
  induction tracked as [|name rest IH]; intros results s.
  - do 3 eexists. split; [done|]. by rewrite app_nil_r.
  - cbn [check_loop].
    destruct (check_schema_run h expected name results s)
      as (r1 & s1 & e1 & Hone & Hr1).
    erewrite bind_Ok by exact Hone.
    destruct (IH r1 s1) as (r & s' & e2 & -> & Hperm & Ho).
    do 3 eexists. split; [done|]. rewrite Hperm, Ho.
    destruct Hr1 as [->|[issue ->]]; cbn [healthySchemas unhealthySchemas
      orphanedSchemas push_healthy push_unhealthy]; split; try done.
    + rewrite <- !app_assoc. cbn [app]. by solve_Permutation.
    + rewrite fmap_app, <- !app_assoc. cbn [app fmap list_fmap fst].
      by solve_Permutation.
Qed.

(** The registered name whose schema is gone is reported, with the issue
    that the schema does not exist. *)
Lemma dangling_entry_reported (h : host) (expected : list string) (name : string)
    (results : health_results) (s : state) :
  st_faults s = [] →
  schema_exists (st_db s) name = false →
  ∃ s' evs,
    check_schema h expected name results s =
      (Ok (push_unhealthy name ISSUE_NO_SCHEMA results), s', evs).
Proof.
  intros Hf Hs. unfold check_schema, try_catch, schemaExistsInDatabase.
  unfold bind at 1. rewrite call_sound by done. cbn [engine]. rewrite set_db_same, Hs.
  cbn. eauto.
Qed.

(** C7 fails on the code for a schema named [pgboss]: it exists in the
    engine, is not registered, is not one of the excluded names and does not
    begin with [pg_], and the audit does not list it as orphaned (it lists
    [legacy_tenant] only). The registered [tenant_003], whose schema does
    not exist, is reported with the schema-does-not-exist issue. *)
Theorem orphan_scan_hides_pg_named_schema :
  let run := healthCheck_results Demo.host_full Demo.audited in
  schema_exists (st_db Demo.audited) "pgboss" = true ∧
  Js.includes (db_tracker (st_db Demo.audited)) "pgboss" = false ∧
  Js.includes ORPHAN_EXCLUDED "pgboss" = false ∧
  String.prefix "pg_" "pgboss" = false ∧
  run.1.1 =
    Ok {| totalSchemas := 3;
          healthySchemas := ["tenant_001"];
          unhealthySchemas :=
            [("tenant_002",
              "Migration mismatch: Missing migrations: 0001_description");
             ("tenant_003", ISSUE_NO_SCHEMA)];
          orphanedSchemas := ["legacy_tenant"] |}.
Proof. vm_compute. repeat split. Qed.

(** The script ends with exit code 1 on that installation. *)
Example healthCheck_exit_code :
  (healthCheck Demo.host_full Demo.audited).1.1 = Exit 1.
Proof. vm_compute. reflexivity. Qed.

(** * Further properties *)

(** ** Quoting *)

Lemma chars_inj (a b : string) : Js.chars a = Js.chars b → a = b.
Proof. intros H. by rewrite <- (of_chars a), <- (of_chars b), H. Qed.

(** X1. Two names never get the same SQL token. *)
Theorem escapeSchemaName_injective (a b : string) :
  a ≠ b → escapeSchemaName a ≠ escapeSchemaName b.
Proof.
  intros Hab.
  destruct (decide (a = "public")) as [->|Ha], (decide (b = "public")) as [->|Hb].
  - done.
  - rewrite (escapeSchemaName_quoted b) by done. discriminate.
  - rewrite (escapeSchemaName_quoted a) by done. discriminate.
  - rewrite !escapeSchemaName_quoted by done. intros [= H].
    apply (f_equal Js.chars) in H. rewrite !chars_app in H.
    change (Js.chars (String dquote EmptyString)) with [dquote] in H.
    pose proof (unquote_escaped dquote a) as Ua.
    rewrite H, unquote_escaped in Ua. injection Ua as Ua.
    by apply chars_inj in Ua.
Qed.

Lemma escapeSchemaName_injective_witness :
  escapeSchemaName "tenant_001" ≠ escapeSchemaName "tenant_002" ∧
  escapeSchemaName "public" ≠ escapeSchemaName "PUBLIC".
Proof. split; apply escapeSchemaName_injective; discriminate. Defined.

(** What the engine reads between a pair of quotes is never longer than
    what was written, and as long only when no quote was written. *)
Lemma unquote_shrinks (q : ascii) (n : nat) :
  ∀ s l, length s ≤ n → Pg.unquote q (s ++ [q]) = Some l →
         length l ≤ length s ∧
         (existsb (Ascii.eqb q) s = true → length l < length s).
Proof.
  induction n as [n IH] using lt_wf_ind. intros s l Hn Hu.
  destruct s as [|c r].
  - cbn in Hu. rewrite Ascii.eqb_refl in Hu. injection Hu as <-. by split.
  - cbn [app Pg.unquote] in Hu. destruct (Ascii.eqb c q) eqn:Hc.
    + destruct r as [|d r2]; cbn [app] in Hu.
      { by rewrite Ascii.eqb_refl in Hu. }
      destruct (Ascii.eqb d q); [|done].
      destruct (Pg.unquote q (r2 ++ [q])) as [l'|] eqn:Hu'; [|done].
      injection Hu as <-. cbn in Hn.
      destruct (IH (length r2) ltac:(lia) r2 l' ltac:(lia) Hu') as [Hle _].
      cbn. split; [lia|]. intros _. lia.
    + destruct (Pg.unquote q (r ++ [q])) as [l'|] eqn:Hu'; [|done].
      injection Hu as <-. cbn in Hn.
      destruct (IH (length r) ltac:(lia) r l' ltac:(lia) Hu') as [Hle Hlt].
      cbn. rewrite Ascii.eqb_sym, Hc. cbn. split; [lia|].
      intros Hq. apply Hlt in Hq. lia.
Qed.

(** X2. The [INSERT] of [applyMigrations] writes the tag between single quotes
    as it is: the engine records exactly the tag if and only if the tag
    holds no single quote. *)
Theorem hash_literal_reads_back_iff (tag : string) :
  Pg.literal (hash_literal tag) = Some tag ↔ quote_free tag.
Proof.
  split; [|apply literal_hash].
  unfold Pg.literal, hash_literal, quote_free.
  rewrite chars_string, Ascii.eqb_refl, chars_app.
  change (Js.chars (String Pg.squote EmptyString)) with [Pg.squote].
  destruct (Pg.unquote Pg.squote (Js.chars tag ++ [Pg.squote])) as [l|] eqn:Hu;
    [|done].
  cbn. intros [= Hl].
  destruct (unquote_shrinks Pg.squote _ _ _ (Nat.le_refl _) Hu) as [_ Hlt].
  destruct (existsb (Ascii.eqb Pg.squote) (Js.chars tag)) eqn:Hq; [|done].
  specialize (Hlt eq_refl).
  apply (f_equal Js.chars) in Hl. unfold Js.chars in Hl at 1.
  rewrite list_ascii_of_string_of_list_ascii in Hl. rewrite Hl in Hlt. lia.
Qed.

(** A tag with a single quote in it is not recorded as it is. *)
Lemma hash_literal_reads_back_iff_witness :
  Pg.literal (hash_literal "0000_init") = Some "0000_init" ∧
  Pg.literal (hash_literal "it's") ≠ Some "it's".
Proof.
  split.
  - by apply (hash_literal_reads_back_iff "0000_init").
  - intros H. apply (hash_literal_reads_back_iff "it's") in H. discriminate.
Defined.

(** ** The filter of the orphan query *)

Lemma eqb_true (a b : ascii) : Ascii.eqb a b = true → a = b.
Proof. apply Ascii.eqb_eq. Qed.

(** [LIKE 'pg_%'] holds of exactly the names that begin with [pg] and have
    a third character. *)
Lemma like_pg_chars (l : list ascii) :
  Pg.like_chars (Js.chars ORPHAN_NOT_LIKE) l =
    match l with
    | a :: b :: c :: r => Ascii.eqb "p" a && Ascii.eqb "g" b
    | _ => false
    end.
Proof.
  change (Js.chars ORPHAN_NOT_LIKE) with ["p"; "g"; "_"; "%"]%char.
  destruct l as [|a [|b [|c r]]]; cbn [Pg.like_chars];
    change (Ascii.eqb "p" "%") with false; change (Ascii.eqb "g" "%") with false;
    change (Ascii.eqb "_" "%") with false; change (Ascii.eqb "%" "%") with true;
    change (Ascii.eqb "p" "_") with false; change (Ascii.eqb "g" "_") with false;
    change (Ascii.eqb "_" "_") with true; cbn [orb andb]; try done.
  - by rewrite andb_false_r.
  - by rewrite !andb_false_r.
  - match goal with
    | |- _ && (_ && ?skip r) = _ =>
        assert (skip r = true) as ->
          by (clear; induction r as [|d r IH]; [done|exact IH])
    end.
    by rewrite andb_true_r.
Qed.

Lemma like_pg_iff (n : string) :
  Pg.like n ORPHAN_NOT_LIKE = true ↔
  ∃ c r, n = String "p" (String "g" (String c r)).
Proof.
  split; [|intros (c & r & ->); apply like_pg_any].
  unfold Pg.like. rewrite like_pg_chars.
  destruct n as [|a [|b [|c r]]]; rewrite ?chars_string; try done.
  intros [Ha Hb]%andb_true_iff.
  apply eqb_true in Ha as <-. apply eqb_true in Hb as <-. eauto.
Qed.

(** ** Events and data of a computation *)

Section Within.

Context (P : event → Prop) (R : relation state) `{!PreOrder R}.

Lemma within_ret {A} (a : A) : within P R (ret a).
Proof. intros s. split; [constructor|reflexivity]. Qed.
Lemma within_throw {A} (e : Js.error) : within P R (@throw A e).
Proof. intros s. split; [constructor|reflexivity]. Qed.
Lemma within_exit {A} (c : Z) : within P R (@process_exit A c).
Proof. intros s. split; [constructor|reflexivity]. Qed.
Lemma within_Date_now : within P R Date_now.
Proof. intros s. split; [constructor|reflexivity]. Qed.
Lemma within_emit (e : event) : P e → within P R (emit e).
Proof. intros He s. split; [by repeat constructor|reflexivity]. Qed.

Lemma within_bind {A B} (m : M A) (k : A → M B) :
  within P R m → (∀ a, within P R (k a)) → within P R (bind m k).
Proof.
  intros Hm Hk s. unfold bind. destruct (Hm s) as [H1 H2].
  destruct (m s) as [[[a|e|c] s1] e1]; [|done..].
  destruct (Hk a s1) as [H3 H4]. destruct (k a s1) as [[r s2] e2].
  cbn [fst snd] in *. split; [by apply Forall_app|by etrans].
Qed.

Lemma within_try_catch {A} (m : M A) (handler : Js.error → M A) :
  within P R m → (∀ e, within P R (handler e)) → within P R (try_catch m handler).
Proof.
  intros Hm Hh s. unfold try_catch. destruct (Hm s) as [H1 H2].
  destruct (m s) as [[[a|e|c] s1] e1]; [done| |done].
  destruct (Hh e s1) as [H3 H4]. destruct (handler e s1) as [[r s2] e2].
  cbn [fst snd] in *. split; [by apply Forall_app|by etrans].
Qed.

Lemma within_try_finally {A} (m : M A) (f : M unit) :
  within P R m → within P R f → within P R (try_finally m f).
Proof.
  intros Hm Hf s. unfold try_finally. destruct (Hm s) as [H1 H2].
  destruct (m s) as [[[a|e|c] s1] e1]; [| |done];
    (destruct (Hf s1) as [H3 H4]; destruct (f s1) as [[[[]|e'|c'] s2] e2];
     cbn [fst snd] in *; (split; [by apply Forall_app|by etrans])).
Qed.

Lemma within_when (b : bool) (m : M unit) : within P R m → within P R (when b m).
Proof. destruct b; [done|]. intros _. apply within_ret. Qed.

Lemma within_for_each {A} (f : A → M unit) (l : list A) :
  (∀ x, within P R (f x)) → within P R (for_each f l).
Proof.
  intros Hf. induction l as [|x l IH]; cbn [for_each]; [apply within_ret|].
  apply within_bind; [apply Hf|by intros ?].
Qed.

Lemma within_call (h : host) (c : command) :
  P (Call c) →
  (∀ s d, d = st_db s ∨ (∃ r, engine h c (st_db s) = inr (r, d)) →
          R s (set_db d (set_faults (tail (st_faults s)) s))) →
  within P R (call h c).
Proof.
  intros Hc Heng s. unfold call.
  destruct (st_faults s) as [|[msg|] fs] eqn:Hf;
    try (destruct (engine h c (st_db s)) as [e|[r d]] eqn:He);
    cbn [fst snd]; (split; [by repeat constructor|]);
    try (specialize (Heng s d); rewrite Hf in Heng; apply Heng; eauto);
    specialize (Heng s (st_db s)); rewrite Hf in Heng; apply Heng; by left.
Qed.

Lemma within_createPostgresClient :
  P NewClient → (∀ s, R s (fresh_client s)) → within P R createPostgresClient.
Proof. intros Hn Hr s. split; [by repeat constructor|apply Hr]. Qed.

Lemma within_readFileSync (h : host) (p : string) : within P R (readFileSync h p).
Proof.
  unfold readFileSync. destruct (files h !! p); [apply within_ret|apply within_throw].
Qed.

Lemma within_read_journal (h : host) (p : string) :
  within P R (read_journal_entries h p).
Proof.
  unfold read_journal_entries. destruct (files h !! p) as [f|]; [|apply within_throw].
  destruct (file_journal f); [apply within_ret|apply within_throw].
Qed.

Lemma within_try_finally_exits {A} (m : M A) (f : M unit) :
  within P R m → always_exits m → within P R (try_finally m f).
Proof.
  intros Hm He s. unfold try_finally. destruct (Hm s) as [H1 H2].
  destruct (He s) as [c Hc].
  by destruct (m s) as [[[a|e|c'] s1] e1].
Qed.

End Within.

Lemma never_returns_bind {A B} (m : M A) (k : A → M B) :
  (∀ a, never_returns (k a)) → never_returns (bind m k).
Proof.
  intros Hk s b. unfold bind. destruct (m s) as [[[a|e|c] s1] e1]; [|done..].
  specialize (Hk a s1 b). by destruct (k a s1) as [[r s2] e2].
Qed.

Lemma never_returns_exit {A} (c : Z) : never_returns (@process_exit A c).
Proof. by intros s a. Qed.

Lemma always_exits_handleScriptError {A} (error : Js.error) (context : string) :
  always_exits (@handleScriptError A error context).
Proof. intros s. by exists 1%Z. Qed.

Lemma always_exits_try_catch {A} (m : M A) (handler : Js.error → M A) :
  never_returns m → (∀ e, always_exits (handler e)) →
  always_exits (try_catch m handler).
Proof.
  intros Hm Hh s. unfold try_catch. specialize (Hm s).
  destruct (m s) as [[[a|e|c] s1] e1]; [by destruct (Hm a)| |by exists c].
  destruct (Hh e s1) as [c Hc]. destruct (handler e s1) as [[r s2] e2].
  by exists c.
Qed.

#[export] Instance undisturbed_preorder : PreOrder undisturbed.
Proof.
  split; [by repeat split|].
  intros s1 s2 s3 [[H1 H2] H3] [[H4 H5] H6]. repeat split; [congruence..|auto].
Qed.

#[export] Instance any_state_preorder : PreOrder any_state.
Proof. by split. Qed.

(** [tac] settles what is asked of an event or of the effect of a
    statement. *)
Ltac within_step tac :=
  first
    [ match goal with |- PreOrder _ => exact _ end
    | apply within_bind; [exact _ .. | | intros ?]
    | apply within_try_catch; [exact _ .. | | intros ?]
    | apply within_try_finally
    | apply within_when
    | apply within_for_each; [exact _ .. | intros ?]
    | apply within_ret | apply within_throw | apply within_exit
    | apply within_Date_now | apply within_readFileSync
    | apply within_read_journal
    | apply within_emit; [exact _ .. | tac]
    | match goal with
      | |- within _ _ (call ?h ?c) =>
          apply (within_call _ _ h c); [exact _ .. | tac | intros ? ? ?; tac]
      end
    | apply within_createPostgresClient; [exact _ .. | tac | intros ?; tac]
    | progress (unfold console_log, console_warn, console_error, client_end,
                setSearchPath, schemaExistsInDatabase, tableExistsInSchema,
                getAppliedMigrations, getExpectedMigrations, handleScriptError)
    | match goal with
      | |- within _ _ (if ?b then _ else _) => destruct b
      | |- within _ _ (match ?x with _ => _ end) => destruct x
      end ].

Ltac within_with tac := repeat within_step tac.

(** ** [applyMigrations]: what it sends *)

Lemma applier_event_apply_loop (h : host) esc folder lp applied migs k :
  within (λ e, applier_event e = true) any_state
    (apply_loop h esc folder lp applied migs k).
Proof.
  revert k. induction migs as [|tag rest IH]; intros k; cbn [apply_loop];
    repeat first [apply IH | within_step ltac:(first [done | exact I])].
Qed.

Lemma applier_event_applyMigrations (h : host) n folder lp :
  within (λ e, applier_event e = true) any_state (applyMigrations h n folder lp).
Proof.
  unfold applyMigrations.
  repeat first [apply applier_event_apply_loop | within_step ltac:(first [done | exact I])].
Qed.




(** ** [tableExists] and [checkMigrations] of [shared/db-utils] *)

Lemma tableExists_run (h : host) (c : connection)
    (schemaName tableName : string) (s : state) :
  tableExists h c schemaName tableName s =
    (Ok (table_found s schemaName tableName), set_faults (tail (st_faults s)) s,
     [Call (TableExists schemaName tableName)]).
Proof.
  unfold tableExists, try_catch, table_found, call.
  by destruct c; cbn [isPostgresClient]; destruct (st_faults s) as [|[msg|] fs].
Qed.

(** X6. [tableExists] never throws, with either kind of connection: it sends
    its one query and answers whether the table is there, and [false] when
    the query fails. *)
Theorem tableExists_swallows_errors (h : host) (c : connection)
    (schemaName tableName : string) (s : state) :
  tableExists h c schemaName tableName s =
    (Ok (table_found s schemaName tableName), set_faults (tail (st_faults s)) s,
     [Call (TableExists schemaName tableName)]) ∧
  (table_found s schemaName tableName = true →
   table_exists (st_db s) schemaName tableName = true) ∧
  (st_faults s = [] →
   table_found s schemaName tableName = table_exists (st_db s) schemaName tableName).
Proof.
  split; [apply tableExists_run|]. unfold table_found.
  by destruct (st_faults s) as [|[msg|] fs].
Qed.

(** X7. [checkMigrations] returns, silently, exactly when [tableExists] answers
    [true]; otherwise it prints the command to run and exits with code 1.
    It never throws, and its [catch] block is never entered: the line
    [Error checking migrations:] is never printed. *)
Theorem checkMigrations_exits_unless_table (h : host) (c : connection)
    (schemaName tableName migrationCommand : string) (s : state) :
  ∃ evs,
    checkMigrations h c schemaName tableName migrationCommand s =
      (if table_found s schemaName tableName then Ok tt else Exit 1,
       set_faults (tail (st_faults s)) s, evs) ∧
    (table_found s schemaName tableName = true →
     evs = [Call (TableExists schemaName tableName)]) ∧
    (table_found s schemaName tableName = false →
     ConsoleError [Str ("   " +:+ migrationCommand)] ∈ evs) ∧
    ∀ e, ConsoleError [Str "Error checking migrations:"; Err e] ∉ evs.
Proof.
  unfold checkMigrations, try_catch, bind.
  rewrite tableExists_run.
  destruct (table_found s schemaName tableName); cbn.
  - eexists. split; [done|]. split; [done|]. split; [done|].
    intros e. rewrite !elem_of_cons, elem_of_nil. intuition discriminate.
  - eexists. split; [done|]. split; [done|]. split.
    + intros _. rewrite !elem_of_cons. auto 10.
    + intros e. rewrite !elem_of_cons, elem_of_nil. intuition discriminate.
Qed.

(** ** The scripts: how they end *)

Lemma no_exit_exit_free {A} (m : M A) (s : state) :
  no_exit m → ∀ c, (m s).1.1 ≠ Exit c.
Proof.
  intros Hne c Hc. destruct (m s) as [[r s1] e1] eqn:Hm. cbn in Hc. subst r.
  by apply Hne in Hm.
Qed.

Lemma attempts_no_exit (h : host) (schemas : list string) :
  ∀ s, Forall (λ a, ∀ c, a.2 ≠ Exit c) (attempts h schemas s).
Proof.
  induction schemas as [|name rest IH]; intros s; cbn [attempts]; constructor.
  - apply no_exit_exit_free, no_exit_createTenantSchemaWithMigrations.
  - apply IH.
Qed.

Lemma failures_none (l : list (string * outcome unit)) :
  Forall (λ a, ∀ c, a.2 ≠ Exit c) l →
  omap failure_entry l = [] ↔ Forall (λ a, succeeded a = true) l.
Proof.
  induction 1 as [|[name r] l Hr _ IH]; [done|]. cbn [omap list_omap].
  unfold failure_entry at 1, succeeded at 1. cbn [fst snd] in *.
  destruct r as [[]|e|c]; [|by split; [|intros ?%Forall_inv]|by destruct (Hr c)].
  rewrite IH. split; [by constructor|by intros ?%Forall_inv_tail].
Qed.

(** What [migrateAllTenantSchemas] returns, by the answer to its first
    query. *)
Lemma migrateAll_run (h : host) (s : state) :
  match call h SelectSchemaTracker (fresh_client s) with
  | (Ok schemas, s0, ev0) =>
      ∃ s' evs,
        migrateAllTenantSchemas h s =
          (Ok (tally {| success := 0; failures := 0; errors := [] |}
                 (attempts h schemas s0)), s', evs)
  | (Throw e, s0, ev0) =>
      migrateAllTenantSchemas h s = (Throw e, s0, [NewClient] ++ ev0 ++ [EndClient])
  | (Exit _, _, _) => False
  end.
Proof.
  destruct (call_cases h SelectSchemaTracker (fresh_client s))
    as [(schemas & s0 & Hc)|(e & s0 & Hc)]; rewrite Hc;
    unfold migrateAllTenantSchemas; unfold bind at 1; cbn [createPostgresClient];
    fold (fresh_client s); unfold try_finally, client_end, emit.
  - erewrite bind_Ok by exact Hc. destruct (length schemas =? 0) eqn:Hlen.
    + apply Nat.eqb_eq, length_zero_iff_nil in Hlen. subst schemas. cbn. eauto.
    + destruct (migrate_loop_run h schemas
                  {| success := 0; failures := 0; errors := [] |} s0)
        as (s' & e2 & Hloop & _).
      erewrite bind_Ok by reflexivity. erewrite bind_Ok by exact Hloop. cbn. eauto.
  - erewrite bind_Throw by exact Hc. done.
Qed.

Lemma for_each_console_error {A} (f : A → list console_arg) (l : list A) (s : state) :
  for_each (λ x, console_error (f x)) l s = (Ok tt, s, (λ x, ConsoleError (f x)) <$> l).
Proof.
  induction l as [|x l IH]; [done|]. cbn [for_each]. unfold bind.
  cbn [console_error emit]. by rewrite IH.
Qed.

(** X8. [main] of [migrate-tenants] always ends the process. The exit code is 0
    exactly when the registry was read and every registered schema was
    provisioned without an error (none registered included); otherwise it is
    1, and each schema whose attempt threw has its line on the error
    console, with the message of what was thrown. *)
Theorem migrate_tenants_main_exit_code (h : host) (s : state) :
  ∃ code s' evs,
    migrate_tenants_main h s = (Exit code, s', evs) ∧
    (code = 0 ∨ code = 1)%Z ∧
    (code = 0%Z ↔
     ∃ schemas s0 ev0,
       call h SelectSchemaTracker (fresh_client s) = (Ok schemas, s0, ev0) ∧
       Forall (λ a, succeeded a = true) (attempts h schemas s0)) ∧
    ∀ schemas s0 ev0 name e,
      call h SelectSchemaTracker (fresh_client s) = (Ok schemas, s0, ev0) →
      (name, Throw e) ∈ attempts h schemas s0 →
      ConsoleError [Str ("  - " +:+ name +:+ ": " +:+ Js.message e)] ∈ evs.
Proof.
  unfold migrate_tenants_main. erewrite bind_Ok by reflexivity.
  unfold try_catch. pose proof (migrateAll_run h s) as Hrun.
  destruct (call h SelectSchemaTracker (fresh_client s))
    as [[[schemas|e|c] s0] ev0] eqn:Hcall; [| |done].
  - destruct Hrun as (s' & evs & Hrun). unfold bind at 1. rewrite Hrun.
    cbn [failures tally success errors app Nat.add].
    pose proof (failures_none _ (attempts_no_exit h schemas s0)) as Hnone.
    destruct (omap failure_entry (attempts h schemas s0)) as [|f fs] eqn:Hf.
    + cbn [length Nat.ltb Nat.leb].
      exists 0%Z.
      destruct (length (List.filter succeeded (attempts h schemas s0)) =? 0);
        cbn; do 2 eexists; (split; [done|]); (split; [by left|]);
        (split; [split; [intros _; exists schemas, s0, ev0; split; [done|];
                          by apply Hnone|done]|]);
        intros ? ? ? name e [= <- <- <-] Hin;
        apply proj1 in Hnone; specialize (Hnone eq_refl);
        rewrite Forall_forall in Hnone; by specialize (Hnone _ Hin).
    + cbn [length Nat.ltb Nat.leb]. unfold bind.
      cbn [console_error emit]. rewrite for_each_console_error.
      remember (_ <$> (f :: fs)) as lines eqn:Hlines. cbn.
      exists 1%Z. do 2 eexists. split; [done|]. split; [by right|]. split.
      * split; [done|]. intros (? & ? & ? & [= <- <- <-] & Hall).
        by apply Hnone in Hall.
      * intros ? ? ? name e [= <- <- <-] Hin.
        assert (ConsoleError [Str ("  - " +:+ name +:+ ": " +:+ Js.message e)]
                  ∈ lines) as Hline.
        { rewrite Hlines, <- Hf.
          apply (list_elem_of_fmap_2
                   (λ x : string * string,
                      ConsoleError [Str ("  - " +:+ x.1 +:+ ": " +:+ x.2)])
                   _ (name, Js.message e)).
          apply list_elem_of_omap. exists (name, Throw e). by split. }
        rewrite !elem_of_cons, !elem_of_app, !elem_of_cons, !elem_of_app. tauto.
  - unfold bind at 1. rewrite Hrun. cbn. exists 1%Z. do 2 eexists. split; [done|].
    split; [by right|]. split; [|done]. split; [done|]. by intros (? & ? & ? & ? & _).
Qed.

(** ** [healthCheck]: what it may do, and how it ends *)

Lemma engine_audit (h : host) (c : command) (d d' : database) (r : reply c) :
  audit_event (Call c) = true → engine h c d = inr (r, d') → same_data d d'.
Proof.
  destruct c; try done; intros _; cbn [engine]; unfold with_ident;
    repeat case_match; try done; intros [= _ <-]; by split.
Qed.

Ltac audit_side :=
  first
    [ done
    | match goal with
      | H : _ ∨ _ |- undisturbed _ _ =>
          destruct H as [->|[? H]];
          [split; [by split|by intros ->]
          |split; [by refine (engine_audit _ _ _ _ _ _ H)|by intros ->]]
      | |- undisturbed _ (fresh_client _) => by split
      end ].

Lemma audit_event_check_schema (h : host) expected name results :
  within (λ e, audit_event e = true) undisturbed
    (check_schema h expected name results).
Proof. unfold check_schema, migration_status. within_with audit_side. Qed.

Lemma audit_event_check_loop (h : host) expected tracked :
  ∀ results,
    within (λ e, audit_event e = true) undisturbed
      (check_loop h expected tracked results).
Proof.
  induction tracked as [|name rest IH]; intros results; cbn [check_loop];
    repeat first [apply IH | apply audit_event_check_schema | within_step audit_side].
Qed.

Lemma audit_event_healthCheck (h : host) :
  within (λ e, audit_event e = true) undisturbed (healthCheck h).
Proof.
  unfold healthCheck.
  apply within_bind; [exact _ .. | within_with audit_side | intros ?].
  apply within_try_finally_exits; [exact _ .. | | ].
  - unfold healthCheck_results, orphan_scan, print_summary.
    repeat first [apply audit_event_check_loop | within_step audit_side].
  - apply always_exits_try_catch;
      [|intros e; apply always_exits_handleScriptError].
    apply never_returns_bind. intros results.
    apply never_returns_bind. intros ?.
    destruct (_ || _); [apply never_returns_exit|].
    apply never_returns_bind. intros ?. apply never_returns_exit.
Qed.

(** X11. The health check reads and reports: whatever the state and the faults
    of the connection, it sends only queries and [SET search_path], it
    leaves every schema, table, tracking row and the registry as they were,
    and it never ends its client. *)
Theorem healthCheck_read_only (h : host) (s : state) :
  let run := healthCheck h s in
  Forall (λ e, audit_event e = true) run.2 ∧
  db_schemas (st_db run.1.2) = db_schemas (st_db s) ∧
  db_tracker (st_db run.1.2) = db_tracker (st_db s) ∧
  EndClient ∉ run.2.
Proof.
  cbn zeta. destruct (audit_event_healthCheck h s) as [Hev [[Hs Ht] _]].
  repeat split; try done. intros Hin. rewrite Forall_forall in Hev.
  by apply Hev in Hin.
Qed.

Ltac no_exit_calls :=
  repeat first
    [ match goal with |- no_exit (call ?h ?c) => exact (no_exit_call h c) end
    | no_exit_step ].

Lemma no_exit_check_loop (h : host) expected tracked :
  ∀ results, no_exit (check_loop h expected tracked results).
Proof.
  induction tracked as [|name rest IH]; intros results; cbn [check_loop];
    unfold check_schema, migration_status; no_exit_calls.
Qed.

#[export] Hint Resolve no_exit_check_loop : no_exit.

Lemma no_exit_healthCheck_results (h : host) : no_exit (healthCheck_results h).
Proof.
  unfold healthCheck_results, orphan_scan, getExpectedMigrations. no_exit_calls.
Qed.

Lemma print_summary_run (results : health_results) (s : state) :
  ∃ evs, print_summary results s = (Ok tt, s, evs).
Proof.
  unfold print_summary, when.
  destruct (0 <? length (unhealthySchemas results)),
    (0 <? length (orphanedSchemas results));
    unfold bind; rewrite ?for_each_console_log;
    cbn [console_log emit ret]; rewrite ?for_each_console_log; eauto.
Qed.

Lemma ltb_length_nil {A} (l : list A) : (0 <? length l) = false ↔ l = [].
Proof. by destruct l. Qed.

(** X12. [healthCheck] always ends the process: with code 0 exactly when the
    audit completed and found no unhealthy and no orphaned schema, and with
    code 1 otherwise (an audit that threw included). *)
Theorem healthCheck_exit_status (h : host) (s : state) :
  ∃ code s' evs,
    healthCheck h s = (Exit code, s', evs) ∧
    (code = 0 ∨ code = 1)%Z ∧
    (code = 0%Z ↔
     ∃ r s1 e1,
       healthCheck_results h (fresh_client s) = (Ok r, s1, e1) ∧
       unhealthySchemas r = [] ∧ orphanedSchemas r = []).
Proof.
  unfold healthCheck. unfold bind at 1. cbn [createPostgresClient].
  fold (fresh_client s). unfold try_finally, try_catch.
  pose proof (no_exit_healthCheck_results h (fresh_client s)) as Hne.
  destruct (healthCheck_results h (fresh_client s)) as [[[r|e|c] s1] e1] eqn:Hr.
  - erewrite bind_Ok by exact Hr.
    destruct (print_summary_run r s1) as (e2 & Hp). erewrite bind_Ok by exact Hp.
    destruct (0 <? length (unhealthySchemas r)) eqn:Hu;
      [|destruct (0 <? length (orphanedSchemas r)) eqn:Ho]; cbn.
    + exists 1%Z. do 2 eexists. split; [done|]. split; [by right|].
      split; [done|]. intros (? & ? & ? & [= <- <- <-] & Hun & _).
      by rewrite Hun in Hu.
    + exists 1%Z. do 2 eexists. split; [done|]. split; [by right|].
      split; [done|]. intros (? & ? & ? & [= <- <- <-] & _ & Hor).
      by rewrite Hor in Ho.
    + exists 0%Z. do 2 eexists. split; [done|]. split; [by left|].
      split; [|done]. intros _. exists r, s1, e1.
      by rewrite <- !ltb_length_nil.
  - erewrite bind_Throw by exact Hr. cbn. exists 1%Z. do 2 eexists.
    split; [done|]. split; [by right|].
    split; [done|]. by intros (? & ? & ? & ? & _).
  - by destruct (Hne c s1 e1).
Qed.

(** ** [migratePublic] *)

(** X10. [migratePublic] never throws. When [applyMigrations] on the schema
    [public] returns, the script ends its client and returns; when it
    throws, the script exits with code 1 and the client is never ended. *)
Theorem migratePublic_never_throws (h : host) (s : state) :
  let applied :=
    applyMigrations h "public" (public_migrations_folder h) "  " (fresh_client s) in
  ∃ evs,
    migratePublic h s =
      (match applied.1.1 with Ok _ => Ok tt | _ => Exit 1 end, applied.1.2, evs) ∧
    (EndClient ∈ evs ↔ applied.1.1 = Ok tt).
Proof.
  cbn zeta. unfold migratePublic. unfold bind at 1. cbn [createPostgresClient].
  fold (fresh_client s). unfold try_finally, try_catch.
  erewrite bind_Ok by reflexivity.
  pose proof (no_exit_applyMigrations h "public" (public_migrations_folder h) "  "
                (fresh_client s)) as Hne.
  destruct (applier_event_applyMigrations h "public" (public_migrations_folder h)
              "  " (fresh_client s)) as [Hev _].
  assert (EndClient ∉ (applyMigrations h "public" (public_migrations_folder h) "  "
                         (fresh_client s)).2) as Hend.
  { intros Hin. rewrite Forall_forall in Hev. by apply Hev in Hin. }
  unfold bind.
  destruct (applyMigrations h "public" (public_migrations_folder h) "  "
              (fresh_client s)) as [[[[]|e|c] s1] e1]; cbn [fst snd] in *.
  - cbn. eexists. split; [done|]. split; [done|]. intros _.
    rewrite !elem_of_cons, !elem_of_app, !elem_of_cons. auto 10.
  - cbn. eexists. split; [done|]. split; [|done].
    rewrite !elem_of_cons, !elem_of_app, !elem_of_cons, elem_of_nil.
    intuition discriminate.
  - by destruct (Hne c s1 e1).
Qed.

(** ** [withTenant]: the tenant context *)

Lemma test_seq_excludes (q : ascii) (tests : list (ascii → bool)) :
  Forall (λ t, t q = false) tests →
  ∀ l, Regex.test_seq tests l = true → existsb (Ascii.eqb q) l = false.
Proof.
  induction 1 as [|t tests Ht _ IH]; intros [|c l]; cbn; try done.
  intros [Hc Hl]%andb_true_iff. rewrite (IH _ Hl), orb_false_r.
  destruct (Ascii.eqb q c) eqn:Hq; [|done].
  apply Ascii.eqb_eq in Hq as <-. congruence.
Qed.

Lemma uuid_quote_free (tenantId : string) :
  UUID_REGEX_test tenantId = true → quote_free tenantId.
Proof.
  apply test_seq_excludes. unfold UUID_REGEX. cbn [repeat app].
  repeat constructor.
Qed.

(** X17. The statement [SET LOCAL app.tenant_id = '...'] is built by pasting the
    tenant id between single quotes. For every id that passes [UUID_REGEX]
    the literal so written denotes exactly that id: nothing of the id can
    close the quote. *)
Theorem withTenant_literal_denotes_id (tenantId : string) :
  UUID_REGEX_test tenantId = true →
  Pg.literal (tenant_literal tenantId) = Some tenantId.
Proof. intros Hu. apply (literal_hash tenantId), uuid_quote_free, Hu. Qed.

Lemma withTenant_literal_denotes_id_witness :
  Pg.literal (tenant_literal "11111111-1111-4111-8111-111111111111") =
    Some "11111111-1111-4111-8111-111111111111".
Proof.
  apply (withTenant_literal_denotes_id "11111111-1111-4111-8111-111111111111").
  reflexivity.
Defined.

Lemma call_SetLocalTenant (h : host) (lit : string) (s : state) :
  call h (SetLocalTenant lit) s =
    (match st_faults s with Some msg :: _ => Throw (Js.Error msg) | _ => Ok tt end,
     set_faults (tail (st_faults s)) s, [Call (SetLocalTenant lit)]).
Proof. unfold call. by destruct (st_faults s) as [|[msg|] fs]. Qed.

(** X18. For a valid tenant id, [withTenant] hands the transaction of the
    library one callback: the statement [SET LOCAL app.tenant_id = '<id>']
    followed by the operation. From whatever state the callback is run, the
    statement is the first thing it sends. If the statement fails, the
    operation is not started and the callback throws the error of the
    statement. If it succeeds, the operation starts from the state right
    after it, and the callback ends as the operation ends: with its outcome
    and its state, its events being the statement followed by those of the
    operation. Nothing is said of what the transaction does around its
    callback. *)
Theorem withTenant_operation_in_scope {T} (h : host) (tenantId : string)
    (operation : M T) (s : state) :
  UUID_REGEX_test tenantId = true →
  let set_local := SetLocalTenant (tenant_literal tenantId) in
  let callback := (do! call h set_local in operation) in
  withTenant h tenantId operation s = transaction h callback s ∧
  ∀ s1 : state,
    let s2 := set_faults (tail (st_faults s1)) s1 in
    match st_faults s1 with
    | Some msg :: _ => callback s1 = (Throw (Js.Error msg), s2, [Call set_local])
    | _ =>
        callback s1 =
          ((operation s2).1.1, (operation s2).1.2, [Call set_local] ++ (operation s2).2)
    end.
Proof.
  intros Hu. cbn zeta. split; [unfold withTenant; by rewrite Hu|].
  intros s1. unfold bind. rewrite call_SetLocalTenant.
  destruct (st_faults s1) as [|[msg|] fs]; [|done|];
    by destruct (operation _) as [[r s3] e3].
Qed.

Lemma withTenant_operation_in_scope_witness :
  let id := "11111111-1111-4111-8111-111111111111" in
  let set_local := SetLocalTenant (tenant_literal id) in
  let callback := (do! call Demo.host_full set_local in ret 7) in
  let broken := Demo.state_of (st_db Demo.fresh) [Some "connection lost"] in
  withTenant Demo.host_full id (ret 7) Demo.fresh =
    transaction Demo.host_full callback Demo.fresh ∧
  callback broken =
    (Throw (Js.Error "connection lost"), Demo.state_of (st_db Demo.fresh) [],
     [Call set_local]) ∧
  callback Demo.fresh = (Ok 7, Demo.fresh, [Call set_local]).
Proof.
  destruct (withTenant_operation_in_scope Demo.host_full
              "11111111-1111-4111-8111-111111111111" (ret 7) Demo.fresh eq_refl)
    as [H1 H2].
  split; [exact H1|]. split.
  - exact (H2 (Demo.state_of (st_db Demo.fresh) [Some "connection lost"])).
  - exact (H2 Demo.fresh).
Defined.

(** ** The audit: which schemas it reports *)

(** X16. On a sound connection the orphan scan reports exactly the schemas of
    the engine that are not registered, are none of the six names the query
    lists, and do not begin with [pg] followed by a further character. *)
Theorem orphan_scan_reports_exactly (h : host) (tracked : list string)
    (results : health_results) (s : state) :
  st_faults s = [] →
  orphanedSchemas results = [] →
  ∃ r evs,
    orphan_scan h tracked results s = (Ok r, s, evs) ∧
    ∀ n, n ∈ orphanedSchemas r ↔
         schema_exists (st_db s) n = true ∧ (n ∉ tracked) ∧
         (n ∉ ORPHAN_EXCLUDED) ∧
         ¬ (∃ c rest, n = String "p" (String "g" (String c rest))).
Proof.
  intros Hf Hnone.
  destruct (orphan_scan_sound h tracked results s Hf) as (r & evs & Hrun & _ & _ & Hin).
  exists r, evs. split; [done|]. intros n. rewrite Hin, Hnone, elem_of_nil.
  unfold orphan_candidate. rewrite andb_true_iff, !negb_true_iff.
  rewrite <- like_pg_iff.
  assert (Js.includes ORPHAN_EXCLUDED n = false ↔ n ∉ ORPHAN_EXCLUDED) as ->.
  { rewrite <- includes_true. by destruct (Js.includes ORPHAN_EXCLUDED n). }
  assert (Pg.like n ORPHAN_NOT_LIKE = false ↔ ¬ (Pg.like n ORPHAN_NOT_LIKE = true)) as ->.
  { by destruct (Pg.like n ORPHAN_NOT_LIKE). }
  tauto.
Qed.

Lemma orphan_scan_reports_exactly_witness :
  ∃ r evs,
    orphan_scan Demo.host_full (db_tracker (st_db Demo.audited)) Demo.NO_RESULTS
      Demo.audited = (Ok r, Demo.audited, evs) ∧
    ∀ n, n ∈ orphanedSchemas r ↔
         schema_exists (st_db Demo.audited) n = true ∧
         (n ∉ db_tracker (st_db Demo.audited)) ∧
         (n ∉ ORPHAN_EXCLUDED) ∧
         ¬ (∃ c rest, n = String "p" (String "g" (String c rest))).
Proof.
  apply (orphan_scan_reports_exactly Demo.host_full
           (db_tracker (st_db Demo.audited)) Demo.NO_RESULTS Demo.audited);
    reflexivity.
Defined.

(** The comparison of the applied tags with the expected ones is a
    comparison of sets: nothing is missing and nothing is extra exactly
    when the two lists have the same members, in whatever order and however
    often. *)
Lemma no_mismatch_iff (expected applied : list string) :
  missing_of expected applied = [] ∧ extra_of expected applied = [] ↔
  (∀ m, m ∈ expected ↔ m ∈ applied).
Proof.
  assert (∀ a b : list string,
            List.filter (λ m, negb (Js.includes b m)) a = [] ↔
            (∀ m, m ∈ a → m ∈ b))
    as Hsub.
  { intros a b. induction a as [|x a IH]; cbn [List.filter].
    - split; [|done]. intros _ m Hm. by apply elem_of_nil in Hm.
    - destruct (Js.includes b x) eqn:Hx; cbn [negb].
      + rewrite IH. apply includes_true in Hx. split.
        * intros H m [->|Hm]%elem_of_cons; auto.
        * intros H m Hm. apply H. by right.
      + split; [done|]. intros H. assert (x ∈ b) as Hb by (apply H; by left).
        apply includes_true in Hb. congruence. }
  unfold missing_of, extra_of. rewrite !Hsub. split.
  - intros [H1 H2] m. split; auto.
  - intros H. split; intros m; apply H.
Qed.

Lemma push_healthy_not_unhealthy (name issue : string) (results : health_results) :
  push_unhealthy name issue results ≠ push_healthy name results.
Proof.
  intros H. apply (f_equal (λ r, length (healthySchemas r))) in H.
  cbn in H. rewrite length_app in H. cbn in H. lia.
Qed.

(** X15. On a sound connection a registered schema is reported healthy exactly
    when the schema exists, [dummy_table] and the tracking table exist in
    it, and the tags recorded in the tracking table are, as a set, the tags
    of the journal. *)
Theorem check_schema_healthy_iff (h : host) (expected : list string)
    (name : string) (results : health_results) (s : state) :
  st_faults s = [] →
  Pg.identifier (escapeSchemaName name) = Some name →
  ∃ r s' evs,
    check_schema h expected name results s = (Ok r, s', evs) ∧
    (r = push_healthy name results ↔
     schema_exists (st_db s) name = true ∧
     table_exists (st_db s) name DUMMY_TABLE = true ∧
     ∃ rows, tracking (st_db s) name = Some rows ∧
             ∀ m, m ∈ expected ↔ m ∈ rows.*1).
Proof.
  intros Hf Hid.
  destruct (check_schema_sound h expected name results s Hf Hid) as (s' & evs & Hrun).
  do 3 eexists. split; [exact Hrun|]. unfold audit_schema.
  destruct (schema_exists (st_db s) name); cbn [negb report];
    [|split; [by intros ?%push_healthy_not_unhealthy|by intros [? _]]].
  destruct (table_exists (st_db s) name DUMMY_TABLE); cbn [negb report];
    [|split; [by intros ?%push_healthy_not_unhealthy|by intros (_ & ? & _)]].
  destruct (tracking (st_db s) name) as [rows|]; cbn [report];
    [|split; [by intros ?%push_healthy_not_unhealthy|by intros (_ & _ & ? & ? & _)]].
  pose proof (no_mismatch_iff expected rows.*1) as Hset.
  destruct (missing_of expected rows.*1) as [|m ms];
    destruct (extra_of expected rows.*1) as [|x xs]; cbn [report].
  - split; [|done]. intros _. do 2 (split; [done|]). exists rows.
    split; [done|]. by apply Hset.
  - split; [by intros ?%push_healthy_not_unhealthy|].
    intros (_ & _ & ? & [= <-] & H). by apply Hset in H as [_ ?].
  - split; [by intros ?%push_healthy_not_unhealthy|].
    intros (_ & _ & ? & [= <-] & H). by apply Hset in H as [? _].
  - split; [by intros ?%push_healthy_not_unhealthy|].
    intros (_ & _ & ? & [= <-] & H). by apply Hset in H as [? _].
Qed.

(** The second entry of the journal recorded before the first, and twice. *)
Lemma check_schema_healthy_iff_witness :
  let s :=
    Demo.state_of
      (Demo.db_of
         [("public", []);
          (Demo.TENANT, [("dummy_table", []);
                         (MIGRATIONS_TABLE,
                          [Demo.ROW_0001; Demo.ROW_0000; Demo.ROW_0001])])]
         [Demo.TENANT]) [] in
  ∃ r s' evs,
    check_schema Demo.host_full Demo.SEQUENCE Demo.TENANT Demo.NO_RESULTS s
      = (Ok r, s', evs) ∧
    (r = push_healthy Demo.TENANT Demo.NO_RESULTS ↔
     schema_exists (st_db s) Demo.TENANT = true ∧
     table_exists (st_db s) Demo.TENANT DUMMY_TABLE = true ∧
     ∃ rows, tracking (st_db s) Demo.TENANT = Some rows ∧
             ∀ m, m ∈ Demo.SEQUENCE ↔ m ∈ rows.*1).
Proof.
  cbn zeta.
  apply (check_schema_healthy_iff Demo.host_full Demo.SEQUENCE Demo.TENANT
           Demo.NO_RESULTS); reflexivity.
Defined.

Lemma check_loop_total (h : host) (expected tracked : list string) :
  ∀ results s r s' evs,
    check_loop h expected tracked results s = (Ok r, s', evs) →
    totalSchemas r = totalSchemas results.
Proof.
  induction tracked as [|name rest IH]; intros results s r s' evs Hrun.
  - by injection Hrun as <- _ _.
  - cbn [check_loop] in Hrun.
    apply bind_Ok_inv in Hrun as (r1 & s1 & e1 & e2 & Hone & Hrest & _).
    apply IH in Hrest. rewrite Hrest.
    destruct (check_schema_run h expected name results s)
      as (r1' & ? & ? & Hone' & Hr1).
    rewrite Hone in Hone'. injection Hone' as <- _ _.
    by destruct Hr1 as [->|[issue ->]].
Qed.

(** X13. When the audit completes, every registered name has been classified
    exactly once, as healthy or as unhealthy, so that the total is the sum
    of the two counts; and no schema reported as orphaned is among the
    classified ones. *)
Theorem healthCheck_results_accounts (h : host) (s s' : state)
    (r : health_results) (evs : list event) :
  healthCheck_results h s = (Ok r, s', evs) →
  ∃ tracked s0,
    call h SelectSchemaTracker s = (Ok tracked, s0, [Call SelectSchemaTracker]) ∧
    healthySchemas r ++ (unhealthySchemas r).*1 ≡ₚ tracked ∧
    totalSchemas r = length (healthySchemas r) + length (unhealthySchemas r) ∧
    ∀ n, n ∈ orphanedSchemas r →
         (n ∉ healthySchemas r) ∧ (n ∉ (unhealthySchemas r).*1).
Proof.
  intros Hrun. unfold healthCheck_results in Hrun.
  apply bind_Ok_inv in Hrun as ([] & ? & ? & ? & [= <- <-] & Hrun & ->).
  apply bind_Ok_inv in Hrun as (tracked & s0 & ? & ? & Hsel & Hrun & ->).
  exists tracked, s0.
  assert (call h SelectSchemaTracker s = (Ok tracked, s0, [Call SelectSchemaTracker]))
    as Hsel'.
  { destruct (call_Ok_inv _ _ _ _ _ _ Hsel) as (? & _ & _ & ->). exact Hsel. }
  split; [exact Hsel'|].
  apply bind_Ok_inv in Hrun as ([] & ? & ? & ? & [= <- <-] & Hrun & ->).
  apply bind_Ok_inv in Hrun as (expected & s1 & ? & ? & _ & Hrun & ->).
  apply bind_Ok_inv in Hrun as (r1 & s2 & ? & ? & Hloop & Hscan & ->).
  pose proof (check_loop_total _ _ _ _ _ _ _ _ Hloop) as Htotal.
  destruct (check_loop_covers h expected tracked
              {| totalSchemas := length tracked; healthySchemas := [];
                 unhealthySchemas := []; orphanedSchemas := [] |} s1)
    as (r1' & ? & ? & Hloop' & Hperm & Horph).
  rewrite Hloop in Hloop'. injection Hloop' as <- _ _.
  cbn [healthySchemas unhealthySchemas orphanedSchemas totalSchemas app fmap
       list_fmap] in Hperm, Horph, Htotal.
  match type of Hscan with orphan_scan h ?tr ?r0 ?st = _ =>
    pose proof (orphan_scan_by_query h tr r0 st) as Hq;
    destruct (call h ListOrphanCandidates st) as [[[all|e|c] s3] e3]
  end; [|destruct Hq as (? & Hq); by rewrite Hq in Hscan|done].
  destruct Hq as (? & Hq). rewrite Hq in Hscan. injection Hscan as <- _ _.
  destruct (orphan_fold tracked all r1) as (Ho & Hh & Hu & Ht).
  rewrite Hh, Hu, Ht, Ho, Horph, Htotal. cbn [app].
  split; [exact Hperm|]. split.
  - rewrite <- Hperm, length_app, length_fmap. done.
  - intros n [_ Hn]%list_elem_of_In%filter_In.
    assert (n ∉ tracked) as Hnot.
    { rewrite <- includes_true. apply negb_true_iff in Hn. congruence. }
    rewrite <- Hperm, elem_of_app in Hnot. tauto.
Qed.

Lemma healthCheck_results_accounts_witness :
  ∃ r tracked,
    (healthCheck_results Demo.host_full Demo.audited).1.1 = Ok r ∧
    healthySchemas r ++ (unhealthySchemas r).*1 ≡ₚ tracked ∧
    totalSchemas r = length (healthySchemas r) + length (unhealthySchemas r) ∧
    ∀ n, n ∈ orphanedSchemas r →
         (n ∉ healthySchemas r) ∧ (n ∉ (unhealthySchemas r).*1).
Proof.
  destruct (healthCheck_results Demo.host_full Demo.audited)
    as [[r s'] evs] eqn:Hrun.
  assert (∃ r0, r = Ok r0) as [r0 ->].
  { apply (f_equal (λ x, x.1.1)) in Hrun. cbn [fst] in Hrun. rewrite <- Hrun.
    vm_compute. by eexists. }
  destruct (healthCheck_results_accounts _ _ _ _ _ Hrun)
    as (tracked & s0 & _ & H1 & H2 & H3).
  exists r0, tracked. split; [reflexivity|]. split; [exact H1|].
  split; [exact H2|exact H3].
Defined.

(** ** Provisioning: what a success means *)

Lemma within_mono {A} (P Q : event → Prop) (R : relation state) (m : M A) :
  (∀ e, P e → Q e) → within P R m → within Q R m.
Proof.
  intros HPQ Hm s. destruct (Hm s) as [H1 H2]. split; [|done].
  eapply Forall_impl; [exact H1|done].
Qed.

Lemma not_a_drop_provision (h : host) (name : string) :
  within not_a_drop any_state (provision h name).
Proof.
  unfold provision, create_and_migrate, verify_tables.
  repeat first
    [ apply (within_mono (λ e, applier_event e = true));
        [by intros [[]| | | | |] ? ?|apply applier_event_applyMigrations]
    | within_step ltac:(first [done | exact I]) ].
Qed.

Lemma cleanup_never_returns (h : host) (name : string) (error : Js.error) :
  never_returns (cleanup_and_rethrow h name error).
Proof.
  intros s a. unfold cleanup_and_rethrow, bind, try_catch.
  by destruct (call_cases h (DropSchemaIfExistsCascade (escapeSchemaName name)) s)
    as [([] & s1 & ->)|(e & s1 & ->)].
Qed.

Lemma table_exists_schema (d : database) (n t : string) :
  table_exists d n t = true → schema_exists d n = true.
Proof.
  unfold table_exists, schema_exists, find_table.
  intros [rows H]%bool_decide_eq_true. apply bool_decide_eq_true.
  by destruct (db_schemas d !! n).
Qed.

(** X19. When [createTenantSchemaWithMigrations] returns, the name had passed
    [validateSchemaName], the schema exists and holds [dummy_table], no
    [DROP SCHEMA] was sent, and the client it made first was ended last:
    whatever the faults of the connection, a return means a verified
    tenant. *)
Theorem createTenant_success_means_verified (h : host) (name : string)
    (s s' : state) (evs : list event) :
  createTenantSchemaWithMigrations h name s = (Ok tt, s', evs) →
  validateSchemaName name = None ∧
  schema_exists (st_db s') name = true ∧
  table_exists (st_db s') name DUMMY_TABLE = true ∧
  Forall not_a_drop evs ∧
  head evs = Some NewClient ∧ last evs = Some EndClient.
Proof.
  intros Hrun. unfold createTenantSchemaWithMigrations in Hrun.
  destruct (validateSchemaName name) as [e|]; [done|]. split; [done|].
  unfold bind at 1 in Hrun. cbn [createPostgresClient] in Hrun.
  fold (fresh_client s) in Hrun. unfold try_finally, try_catch in Hrun.
  destruct (not_a_drop_provision h name (fresh_client s)) as [Hev _].
  destruct (provision h name (fresh_client s)) as [[[[]|e|c] s1] e1] eqn:Hp.
  - cbn in Hrun. injection Hrun as <- <-. cbn [snd] in Hev.
    assert (table_exists (st_db s1) name DUMMY_TABLE = true) as Ht.
    { unfold provision in Hp.
      apply bind_Ok_inv in Hp as ([] & s2 & ? & ? & _ & Hv & _).
      unfold verify_tables in Hv.
      apply bind_Ok_inv in Hv as (tables & s3 & ? & ? & _ & Hv & _).
      apply bind_Ok_inv in Hv as ([] & ? & ? & ? & [= <- <-] & Hv & _).
      apply bind_Ok_inv in Hv as (tableCheck & s4 & ? & ? & Hcall & Hv & _).
      destruct tableCheck; cbn [negb] in Hv.
      - injection Hv as <-.
        apply call_Ok_inv in Hcall as (d & Heng & -> & _).
        cbn [engine] in Heng. injection Heng as Ht <-. exact Ht.
      - apply bind_Ok_inv in Hv as (publicTableCheck & ? & ? & ? & _ & Hv & _).
        by destruct publicTableCheck. }
    split; [by eapply table_exists_schema|]. split; [done|]. split.
    + apply Forall_cons. split; [done|]. apply Forall_app. split; [done|].
      by repeat constructor.
    + split; [done|]. rewrite app_comm_cons. apply last_snoc.
  - pose proof (cleanup_never_returns h name e s1) as Hnever.
    destruct (cleanup_and_rethrow h name e s1) as [[[[]|e'|c] s2] e2];
      cbn in Hrun; try done. by destruct (Hnever tt).
  - done.
Qed.

Lemma createTenant_success_means_verified_witness :
  let run := createTenantSchemaWithMigrations Demo.host_full Demo.TENANT Demo.fresh in
  validateSchemaName Demo.TENANT = None ∧
  schema_exists (st_db run.1.2) Demo.TENANT = true ∧
  table_exists (st_db run.1.2) Demo.TENANT DUMMY_TABLE = true ∧
  Forall not_a_drop run.2 ∧
  head run.2 = Some NewClient ∧ last run.2 = Some EndClient.
Proof.
  cbn zeta.
  apply (createTenant_success_means_verified Demo.host_full Demo.TENANT Demo.fresh).
  vm_compute. reflexivity.
Defined.

(** ** Provisioning again *)

Lemma createTenant_noop_run (h : host) (name : string) (seq : list string)
    (s : state) :
  st_faults s = [] →
  journal_of h (tenant_migrations_folder h) = Some seq →
  provisioned h seq (st_db s) name →
  ∃ evs,
    createTenantSchemaWithMigrations h name s =
      (Ok tt, set_db (set_search_path [name; "public"] (st_db s)) s, evs) ∧
    scripts_of evs = [] ∧ inserts_of evs = [].
Proof.
  intros Hf Hj (Hv & Ht & Htr & Hall).
  destruct (validated_name name Hv) as (Hst & _ & _).
  pose proof (identifier_escaped name Hst) as Hid.
  pose proof (table_exists_schema _ _ _ Ht) as Hs.
  unfold createTenantSchemaWithMigrations. rewrite Hv.
  unfold bind at 1. cbn [createPostgresClient]. fold (fresh_client s).
  unfold try_finally, try_catch, client_end, emit.
  assert (st_faults (fresh_client s) = []) as Hf0 by done.
  assert (∃ evs,
            provision h name (fresh_client s) =
              (Ok tt,
               set_db (set_search_path [name; "public"] (st_db (fresh_client s)))
                 (fresh_client s), evs) ∧
            scripts_of evs = [] ∧ inserts_of evs = []) as (e1 & -> & Hs1 & Hi1).
  { unfold provision, create_and_migrate.
    assert (call h (CreateSchemaIfNotExists (escapeSchemaName name)) (fresh_client s)
              = (Ok tt, fresh_client s, [Call (CreateSchemaIfNotExists (escapeSchemaName name))]))
      as Hcreate.
    { rewrite call_sound by done. cbn [engine]. unfold with_ident. rewrite Hid.
      unfold schema_exists in Hs. apply bool_decide_eq_true in Hs as [sc Hsc].
      change (db_schemas (st_db (fresh_client s))) with (db_schemas (st_db s)).
      rewrite Hsc. by rewrite set_db_same. }
    destruct (applyMigrations_nothing_pending h name (tenant_migrations_folder h)
                "  " seq Hid Hj (fresh_client s) Hf0 Htr Hall)
      as (e2 & Happly & Hc2).
    erewrite bind_Ok by (unfold bind; rewrite Hcreate, Happly; reflexivity).
    set (sA := set_db (set_search_path [name; "public"] (st_db (fresh_client s)))
                 (fresh_client s)).
    assert (st_faults sA = []) as HfA by done.
    unfold verify_tables.
    erewrite bind_Ok;
      [|rewrite call_sound by done; cbn [engine]; by rewrite set_db_same].
    erewrite bind_Ok by reflexivity.
    erewrite bind_Ok;
      [|rewrite call_sound by done; cbn [engine]; by rewrite set_db_same].
    change (table_exists (st_db sA) name DUMMY_TABLE)
      with (table_exists (st_db s) name DUMMY_TABLE).
    rewrite Ht. cbn [negb ret]. eexists. split; [done|].
    unfold scripts_of, inserts_of.
    rewrite !calls_of_app, Hc2. cbn. by destruct (decide (seq = [])). }
  cbn. eexists. split; [done|].
  change (NewClient :: e1 ++ [EndClient]) with ([NewClient] ++ e1 ++ [EndClient]).
  rewrite !scripts_of_app, !inserts_of_app, Hs1, Hi1. done.
Qed.


(** X20. Provisioning a tenant that is already provisioned changes nothing. If
    the schema holds [dummy_table], every entry of the journal is recorded
    in its tracking table and has its file, then on a sound connection
    [createTenantSchemaWithMigrations] returns having executed no script
    and inserted no record, and the schemas, their tables and rows and the
    registry are what they were. *)
Theorem createTenant_again_is_noop (h : host) (name : string) (seq : list string)
    (s : state) :
  validateSchemaName name = None →
  st_faults s = [] →
  journal_of h (tenant_migrations_folder h) = Some seq →
  table_exists (st_db s) name DUMMY_TABLE = true →
  (seq ≠ [] → is_Some (tracking (st_db s) name)) →
  Forall (λ tag, existsSync h (migration_path (tenant_migrations_folder h) tag) = true ∧
                 Js.includes (applied_tags (st_db s) name) tag = true) seq →
  ∃ s' evs,
    createTenantSchemaWithMigrations h name s = (Ok tt, s', evs) ∧
    scripts_of evs = [] ∧ inserts_of evs = [] ∧
    db_schemas (st_db s') = db_schemas (st_db s) ∧
    db_tracker (st_db s') = db_tracker (st_db s).
Proof.
  intros Hv Hf Hj Ht Htr Hall.
  destruct (createTenant_noop_run h name seq s Hf Hj) as (evs & Hrun & Hs & Hi);
    [done|].
  by exists (set_db (set_search_path [name; "public"] (st_db s)) s), evs.
Qed.

Lemma createTenant_again_is_noop_witness :
  ∃ s' evs,
    createTenantSchemaWithMigrations Demo.host_full "tenant_001" Demo.audited
      = (Ok tt, s', evs) ∧
    scripts_of evs = [] ∧ inserts_of evs = [] ∧
    db_schemas (st_db s') = db_schemas (st_db Demo.audited) ∧
    db_tracker (st_db s') = db_tracker (st_db Demo.audited).
Proof.
  apply (createTenant_again_is_noop Demo.host_full "tenant_001" Demo.SEQUENCE
           Demo.audited).
  - reflexivity.
  - reflexivity.
  - reflexivity.
  - reflexivity.
  - intros _. vm_compute. by eexists.
  - repeat constructor.
Defined.

(** ** The audit as a function of the database *)

Lemma audit_schema_ext (d d' : database) (expected : list string) (name : string) :
  db_schemas d' = db_schemas d →
  audit_schema d' expected name = audit_schema d expected name.
Proof.
  intros H. unfold audit_schema, schema_exists, table_exists, tracking, find_table.
  by rewrite H.
Qed.

Lemma expected_run (h : host) (folder : string) (s : state) :
  ∃ evs,
    try_catch
      (let! expectedMigrations := getExpectedMigrations h folder in
       do! console_log
             [Str ("Expected tenant migrations: " +:+
                   pretty (length expectedMigrations))] in
       do! console_log
             [Str (if 0 <? length expectedMigrations
                   then "  " +:+ Js.join ", " expectedMigrations
                   else "  (no migrations)")] in
       ret expectedMigrations)
      (λ error,
         do! console_warn
               [Str ("Warning: Could not read migration journal: " +:+
                     Js.message error)] in
         ret []) s =
    (Ok (default [] (journal_of h folder)), s, evs).
Proof.
  unfold try_catch, bind, getExpectedMigrations, journal_of, existsSync,
    read_journal_entries.
  destruct (files h !! _) as [f|]; cbn; [|eauto].
  destruct (file_journal f) as [entries|]; cbn; eauto.
Qed.

Lemma check_loop_sound (h : host) (expected : list string) (d0 : database)
    (tracked : list string) :
  Forall (λ n, Pg.identifier (escapeSchemaName n) = Some n) tracked →
  ∀ results s,
    st_faults s = [] → db_schemas (st_db s) = db_schemas d0 →
    ∃ s' evs,
      check_loop h expected tracked results s =
        (Ok {| totalSchemas := totalSchemas results;
               healthySchemas :=
                 healthySchemas results ++ List.filter (healthy_in d0 expected) tracked;
               unhealthySchemas :=
                 unhealthySchemas results ++ omap (issue_in d0 expected) tracked;
               orphanedSchemas := orphanedSchemas results |}, s', evs) ∧
      undisturbed s s'.
Proof.
  induction 1 as [|name rest Hid _ IH]; intros results s Hf Hd.
  - cbn. rewrite !app_nil_r. destruct results. by do 2 eexists.
  - cbn [check_loop].
    destruct (check_schema_sound h expected name results s Hf Hid)
      as (s1 & e1 & Hone).
    destruct (audit_event_check_schema h expected name results s) as [_ Hund].
    rewrite Hone in Hund. cbn [fst snd] in Hund. destruct Hund as [[Hs1 Ht1] Hf1].
    erewrite bind_Ok by exact Hone.
    rewrite (audit_schema_ext d0 (st_db s)) by done.
    destruct (IH (report name (audit_schema d0 expected name) results) s1)
      as (s' & e2 & -> & [[Hs2 Ht2] Hf2]); [auto|congruence|].
    do 2 eexists. split.
    + f_equal. f_equal. f_equal. cbn [List.filter omap list_omap].
      unfold healthy_in at 2, issue_in at 2.
      destruct (audit_schema d0 expected name); cbn;
        by rewrite <- ?app_assoc.
    + repeat split; [congruence..|auto].
Qed.

(** X14. On a sound connection, with registered names the engine can read,
    [healthCheck] computes the audit of the database: its report lists as
    healthy the registered names whose four checks pass, in the order of
    the registry, as unhealthy the others with the issue of their first
    failed check, and as orphaned the unregistered schemas that pass the
    filter of the query. The expected tags are those of the journal, and
    none when the journal is missing or does not parse. *)
Theorem healthCheck_results_is_audit (h : host) (s : state) :
  st_faults s = [] →
  Forall (λ n, Pg.identifier (escapeSchemaName n) = Some n) (db_tracker (st_db s)) →
  ∃ s' evs,
    healthCheck_results h s =
      (Ok (audit_all (st_db s)
             (default [] (journal_of h (tenant_migrations_folder h)))
             (db_tracker (st_db s))), s', evs).
Proof.
  intros Hf Hid. unfold healthCheck_results.
  erewrite bind_Ok by reflexivity.
  erewrite bind_Ok; [|rewrite call_sound by done; cbn [engine]; by rewrite set_db_same].
  erewrite bind_Ok by reflexivity.
  destruct (expected_run h (tenant_migrations_folder h) s) as (e3 & Hexp).
  erewrite bind_Ok by exact Hexp.
  destruct (check_loop_sound h (default [] (journal_of h (tenant_migrations_folder h)))
              (st_db s) (db_tracker (st_db s)) Hid
              {| totalSchemas := length (db_tracker (st_db s)); healthySchemas := [];
                 unhealthySchemas := []; orphanedSchemas := [] |} s Hf eq_refl)
    as (s1 & e4 & Hloop & [[Hs1 Ht1] Hf1]).
  erewrite bind_Ok by exact Hloop. specialize (Hf1 Hf).
  match goal with |- context [orphan_scan h ?tr ?r0 s1] =>
    pose proof (orphan_scan_by_query h tr r0 s1) as Hq end.
  rewrite call_sound in Hq by done. cbn [engine] in Hq. rewrite set_db_same in Hq.
  destruct Hq as (e5 & ->).
  do 2 eexists. f_equal. f_equal. f_equal.
  match goal with |- fold_left ?f ?all ?r0 = _ =>
    destruct (orphan_fold (db_tracker (st_db s)) all r0) as (Ho & Hh & Hu & Ht);
    destruct (fold_left f all r0) as [t hl ul ol]
  end.
  cbn [totalSchemas healthySchemas unhealthySchemas orphanedSchemas app] in *.
  rewrite Hs1 in Ho. unfold audit_all. by subst.
Qed.

Lemma healthCheck_results_is_audit_witness :
  ∃ s' evs,
    healthCheck_results Demo.host_full Demo.audited =
      (Ok (audit_all (st_db Demo.audited)
             (default [] (journal_of Demo.host_full
                            (tenant_migrations_folder Demo.host_full)))
             (db_tracker (st_db Demo.audited))), s', evs).
Proof.
  apply (healthCheck_results_is_audit Demo.host_full Demo.audited).
  - reflexivity.
  - repeat constructor.
Defined.

(** ** Edges of the fleet migration and of the journal *)

(** X9. When the registry cannot be read, [migrateAllTenantSchemas] throws the
    error of the query once its client is ended; when the registry is
    empty, it returns a report of zero successes and zero failures. In both
    cases no schema is touched: the query is the only statement sent. *)
Theorem migrateAll_nothing_to_do (h : host) (s s0 : state) (ev0 : list event) :
  (∀ e, call h SelectSchemaTracker (fresh_client s) = (Throw e, s0, ev0) →
        migrateAllTenantSchemas h s =
          (Throw e, s0, [NewClient; Call SelectSchemaTracker; EndClient])) ∧
  (call h SelectSchemaTracker (fresh_client s) = (Ok [], s0, ev0) →
   migrateAllTenantSchemas h s =
     (Ok {| success := 0; failures := 0; errors := [] |}, s0,
      [NewClient; Call SelectSchemaTracker;
       ConsoleLog [Str "No tenant schemas found in schema_tracker"]; EndClient])).
Proof.
  assert (∀ r, call h SelectSchemaTracker (fresh_client s) = (r, s0, ev0) →
               ev0 = [Call SelectSchemaTracker]) as Hev.
  { intros r Hc.
    by destruct (call_cases h SelectSchemaTracker (fresh_client s))
      as [(? & ? & Hc')|(? & ? & Hc')]; rewrite Hc' in Hc; injection Hc as _ _ <-. }
  split.
  - intros e Hc. pose proof (Hev _ Hc) as ->.
    unfold migrateAllTenantSchemas. unfold bind at 1. cbn [createPostgresClient].
    fold (fresh_client s). unfold try_finally.
    erewrite bind_Throw by exact Hc. done.
  - intros Hc. pose proof (Hev _ Hc) as ->.
    unfold migrateAllTenantSchemas. unfold bind at 1. cbn [createPostgresClient].
    fold (fresh_client s). unfold try_finally.
    erewrite bind_Ok by exact Hc. done.
Qed.

Lemma migrateAll_nothing_to_do_witness :
  migrateAllTenantSchemas Demo.host_full Demo.fresh =
    (Ok {| success := 0; failures := 0; errors := [] |}, Demo.fresh,
     [NewClient; Call SelectSchemaTracker;
      ConsoleLog [Str "No tenant schemas found in schema_tracker"]; EndClient]).
Proof.
  apply (migrateAll_nothing_to_do Demo.host_full Demo.fresh Demo.fresh
           [Call SelectSchemaTracker]).
  reflexivity.
Defined.

(** X5. Without a journal file neither reader goes on. [getExpectedMigrations]
    throws [Migration journal not found] at once; [applyMigrations] throws
    the same error after it has set and shown the search path, so the
    search path of the connection is changed although nothing was applied. *)
Theorem journal_missing (h : host) (n folder lp : string) (s : state) :
  let journalPath := path_join (path_join folder "meta") "_journal.json" in
  files h !! journalPath = None →
  getExpectedMigrations h folder s = (Throw (journal_not_found journalPath), s, []) ∧
  (st_faults s = [] → Pg.identifier (escapeSchemaName n) = Some n →
   ∃ evs,
     applyMigrations h n folder lp s =
       (Throw (journal_not_found journalPath),
        set_db (set_search_path [n; "public"] (st_db s)) s, evs) ∧
     calls_of evs = [SetSearchPath (escapeSchemaName n); ShowSearchPath]).
Proof.
  cbn zeta. intros Hnone. split.
  - unfold getExpectedMigrations, existsSync. rewrite Hnone.
    rewrite bool_decide_eq_false_2 by (by intros [? ?]). done.
  - intros Hf Hid. unfold applyMigrations.
    set (sA := set_db (set_search_path [n; "public"] (st_db s)) s).
    assert (st_faults sA = []) as HfA by done.
    erewrite bind_Ok;
      [|rewrite call_sound by done; by rewrite engine_set_search_path]. fold sA.
    erewrite bind_Ok; [|rewrite call_sound by done; cbn [engine]; by rewrite set_db_same].
    match goal with |- context [when ?b (console_log ?a)] =>
      destruct (when_calls b a sA) as (e3 & Hw3 & Hc3 & _) end.
    erewrite bind_Ok by exact Hw3.
    unfold existsSync. rewrite Hnone.
    rewrite bool_decide_eq_false_2 by (by intros [? ?]). cbn [negb throw].
    eexists. split; [done|]. rewrite !calls_of_app, Hc3. done.
Qed.

Lemma journal_missing_witness :
  let h := {| files := ∅; cwd := "/app"; exec_script := Demo.exec |} in
  let journalPath := path_join (path_join Demo.FOLDER "meta") "_journal.json" in
  getExpectedMigrations h Demo.FOLDER Demo.ready =
    (Throw (journal_not_found journalPath), Demo.ready, []) ∧
  (st_faults Demo.ready = [] →
   Pg.identifier (escapeSchemaName Demo.TENANT) = Some Demo.TENANT →
   ∃ evs,
     applyMigrations h Demo.TENANT Demo.FOLDER "  " Demo.ready =
       (Throw (journal_not_found journalPath),
        set_db (set_search_path [Demo.TENANT; "public"] (st_db Demo.ready))
          Demo.ready, evs) ∧
     calls_of evs = [SetSearchPath (escapeSchemaName Demo.TENANT); ShowSearchPath]).
Proof.
  cbn zeta.
  apply (journal_missing {| files := ∅; cwd := "/app"; exec_script := Demo.exec |}
           Demo.TENANT Demo.FOLDER "  " Demo.ready).
  reflexivity.
Defined.

(** ** The older copy of the health check *)

Lemma raw_quoted_validated (name : string) :
  validateSchemaName name = None → Legacy.raw_quoted name = escapeSchemaName name.
Proof.
  intros Hv. destruct (validated_name name Hv) as (_ & Hp & Hq).
  rewrite escapeSchemaName_quoted by done. unfold Legacy.raw_quoted.
  by rewrite replaceAll_absent.
Qed.

(** X22. On a sound connection, for a name [validateSchemaName] accepts, the
    older copy of the health check reports what the first three checks
    give: that the schema, [dummy_table] and the tracking table exist. It
    counts the rows of the tracking table and does not look at them, so a
    schema the current check reports healthy is healthy for the older copy
    too, whatever the journal. *)
Theorem legacy_check_stops_at_existence (h : host) (name : string)
    (results : health_results) (s : state) :
  st_faults s = [] →
  validateSchemaName name = None →
  (∃ s' evs,
     Legacy.check_schema h name results s =
       (Ok (report name (legacy_audit (st_db s) name) results), s', evs)) ∧
  ∀ expected,
    audit_schema (st_db s) expected name = None →
    legacy_audit (st_db s) name = None.
Proof.
  intros Hf Hv. destruct (validated_name name Hv) as (Hst & _ & _).
  pose proof (identifier_escaped name Hst) as Hid.
  pose proof (raw_quoted_validated name Hv) as Hraw.
  split.
  - apply legacy_check_schema_sound; [done|done|by rewrite Hraw].
  - intros expected Ha. unfold audit_schema in Ha. unfold legacy_audit.
    destruct (schema_exists (st_db s) name); [|done].
    destruct (table_exists (st_db s) name DUMMY_TABLE); [|done]. cbn [negb] in *.
    destruct (tracking (st_db s) name) as [rows|] eqn:Hrows; [|done].
    unfold table_exists. unfold tracking in Hrows. rewrite Hrows.
    by rewrite bool_decide_eq_true_2.
Qed.

Lemma legacy_check_stops_at_existence_witness :
  (∃ s' evs,
     Legacy.check_schema Demo.host_full Demo.TENANT Demo.NO_RESULTS
       Demo.half_migrated =
       (Ok (push_healthy Demo.TENANT Demo.NO_RESULTS), s', evs)) ∧
  ∀ expected,
    audit_schema (st_db Demo.half_migrated) expected Demo.TENANT = None →
    legacy_audit (st_db Demo.half_migrated) Demo.TENANT = None.
Proof.
  apply (legacy_check_stops_at_existence Demo.host_full Demo.TENANT
           Demo.NO_RESULTS Demo.half_migrated); reflexivity.
Defined.

(** ** From provisioning to the audit *)

Section Applied.

Context (h : host) (n folder lp : string) (seq : list string).
Hypothesis Hident : Pg.identifier (escapeSchemaName n) = Some n.
Hypothesis Hjournal : journal_of h folder = Some seq.
Hypothesis Hne : seq ≠ [].
Hypothesis Htags : Forall quote_free seq.
Hypothesis Hscripts :
  ∀ sql d d', exec_script h sql d = inr d' → tracking d' n = tracking d n.

(** What the tracking table holds once [applyMigrations] has returned. *)
Lemma applyMigrations_Ok_tags (s s1 : state) (evs1 : list event) :
  applyMigrations h n folder lp s = (Ok tt, s1, evs1) →
  ∃ rows, tracking (st_db s1) n = Some rows ∧
          rows.*1 = applied_tags (st_db s) n ++ pending (st_db s) n seq.
Proof.
  intros Hrun.
  destruct (journal_of_read _ _ _ Hjournal) as [Hex Hread]. cbn zeta in Hex, Hread.
  unfold applyMigrations in Hrun.
  apply bind_Ok_inv in Hrun as ([] & ? & ? & ? & Hset & Hrun & ->).
  apply call_Ok_inv in Hset as (dA & Heng & -> & ->).
  rewrite engine_set_search_path in Heng by done. injection Heng as <-.
  apply bind_Ok_inv in Hrun as (sp & ? & ? & ? & Hshow & Hrun & ->).
  apply call_Ok_inv in Hshow as (dB & Heng & -> & ->).
  cbn [engine st_db set_db] in Heng. injection Heng as <- <-.
  apply bind_Ok_inv in Hrun as ([] & ? & e3 & ? & Hw & Hrun & ->).
  match type of Hw with when ?b (console_log ?a) ?st = _ =>
    destruct (when_calls b a st) as (e3' & Hw' & _) end.
  rewrite Hw' in Hw. injection Hw as <- <-.
  rewrite Hex in Hrun. cbn [negb] in Hrun.
  apply bind_Ok_inv in Hrun as (migs & ? & ? & ? & Hrd & Hrun & ->).
  rewrite Hread in Hrd. injection Hrd as <- <- <-.
  destruct (length seq =? 0) eqn:Hlen.
  { by apply Nat.eqb_eq, length_zero_iff_nil in Hlen. }
  apply bind_Ok_inv in Hrun as ([] & ? & ? & ? & Hcreate & Hrun & ->).
  apply call_Ok_inv in Hcreate as (dC & Heng & -> & ->).
  rewrite engine_create_table in Heng by done.
  cbn [st_db set_db set_faults set_schemas set_search_path db_schemas] in Heng.
  apply bind_Ok_inv in Hrun as (applied & ? & ? & ? & Hsel & Hrun & ->).
  apply call_Ok_inv in Hsel as (dD & Heng' & -> & ->).
  rewrite engine_select_hashes in Heng' by done. cbn [st_db set_db] in Heng'.
  assert (∃ rows, tracking dC n = Some rows ∧
                  rows.*1 = applied_tags (st_db s) n) as (rows & Hrows & Happ).
  { unfold applied_tags, tracking, find_table.
    destruct (db_schemas (st_db s) !! n) as [sc|] eqn:Hsc; [|done]. cbn.
    destruct (sc !! MIGRATIONS_TABLE) as [rows|] eqn:Hmig.
    - injection Heng as <-. exists rows. unfold tracking, find_table. cbn.
      by rewrite Hsc.
    - injection Heng as <-. exists []. split; [|done].
      change (tracking (set_schemas (insert n (<[MIGRATIONS_TABLE := []]> sc))
                          (set_search_path [n; "public"] (st_db s))) n = Some []).
      apply tracking_insert. }
  rewrite Hrows in Heng'. injection Heng' as <- <-. rewrite Happ in Hrun.
  apply bind_Ok_inv in Hrun as (k' & s' & e5 & e6 & Hloop & Hrun & ->).
  eapply apply_loop_Ok in Hloop
    as (_ & _ & _ & _ & added & Hadd & Hadded);
    [|done|done|done|cbn [st_db set_db]; exact Hrows].
  match type of Hrun with when ?b (console_log ?a) ?st = _ =>
    pose proof (when_calls b a st) as (e6' & Hw6 & _) end.
  rewrite Hw6 in Hrun. injection Hrun as Hs1 _. subst s'.
  exists (rows ++ added). split; [done|].
  by rewrite fmap_app, Happ, Hadded.
Qed.

End Applied.

Lemma verify_tables_Ok_inv (h : host) (name : string) (s s' : state)
    (evs : list event) :
  verify_tables h name s = (Ok tt, s', evs) →
  db_schemas (st_db s') = db_schemas (st_db s) ∧
  table_exists (st_db s') name DUMMY_TABLE = true.
Proof.
  intros Hv. unfold verify_tables in Hv.
  apply bind_Ok_inv in Hv as (tables & s3 & ? & ? & Hlist & Hv & _).
  apply call_Ok_inv in Hlist as (d1 & Heng1 & -> & _).
  cbn [engine] in Heng1. injection Heng1 as _ <-.
  apply bind_Ok_inv in Hv as ([] & ? & ? & ? & [= <- <-] & Hv & _).
  apply bind_Ok_inv in Hv as (tableCheck & s4 & ? & ? & Hcall & Hv & _).
  apply call_Ok_inv in Hcall as (d2 & Heng2 & -> & _).
  cbn [engine st_db set_db] in Heng2. injection Heng2 as Ht <-.
  destruct tableCheck; cbn [negb] in Hv.
  - injection Hv as <-. by split.
  - apply bind_Ok_inv in Hv as (publicTableCheck & ? & ? & ? & _ & Hv & _).
    by destruct publicTableCheck.
Qed.

(** X21. A tenant that [createTenantSchemaWithMigrations] has just provisioned
    passes the audit, provided no tag of the journal holds a single quote.
    Let the call return for a journal of at least one entry, all of whose
    tags are free of single quotes, the migration texts leaving the tracking
    table of the schema alone, and let the tracking table have held no tag
    outside the journal before. Then the four checks of the health check
    pass on the state the call left, and on a sound connection a turn of
    [healthCheck] over the name reports it healthy. *)
Theorem provisioned_tenant_is_healthy (h : host) (name : string)
    (seq : list string) (s s' : state) (evs : list event) :
  createTenantSchemaWithMigrations h name s = (Ok tt, s', evs) →
  journal_of h (tenant_migrations_folder h) = Some seq →
  seq ≠ [] →
  Forall quote_free seq →
  (∀ sql d d', exec_script h sql d = inr d' → tracking d' name = tracking d name) →
  (∀ m, m ∈ applied_tags (st_db s) name → m ∈ seq) →
  audit_schema (st_db s') seq name = None ∧
  (st_faults s' = [] →
   ∀ results, ∃ s'' evs',
     check_schema h seq name results s' = (Ok (push_healthy name results), s'', evs')).
Proof.
  intros Hrun Hj Hne Hq Hscr Hold.
  unfold createTenantSchemaWithMigrations in Hrun.
  destruct (validateSchemaName name) as [e|] eqn:Hv; [done|].
  destruct (validated_name name Hv) as (Hst & _ & _).
  pose proof (identifier_escaped name Hst) as Hid.
  unfold bind at 1 in Hrun. cbn [createPostgresClient] in Hrun.
  fold (fresh_client s) in Hrun. unfold try_finally, try_catch in Hrun.
  destruct (provision h name (fresh_client s)) as [[[[]|e|c] s1] e1] eqn:Hp.
  2:{ pose proof (cleanup_never_returns h name e s1) as Hnever.
      destruct (cleanup_and_rethrow h name e s1) as [[[[]|e'|c] s2] e2];
        cbn in Hrun; try done. by destruct (Hnever tt). }
  2:{ done. }
  cbn in Hrun. injection Hrun as <- _.
  unfold provision, create_and_migrate in Hp.
  apply bind_Ok_inv in Hp as ([] & s2 & ? & ? & Hcm & Hver & _).
  apply bind_Ok_inv in Hcm as ([] & sA & ? & ? & Hcreate & Happly & _).
  apply call_Ok_inv in Hcreate as (dA & Heng & -> & _).
  cbn [engine] in Heng. unfold with_ident in Heng. rewrite Hid in Heng.
  assert (applied_tags dA name = applied_tags (st_db s) name) as Hsame.
  { change (db_schemas (st_db (fresh_client s))) with (db_schemas (st_db s)) in Heng.
    unfold applied_tags, tracking, find_table.
    destruct (db_schemas (st_db s) !! name) as [sc|] eqn:Hsc;
      injection Heng as <-; cbn; [by rewrite Hsc|].
    rewrite lookup_insert_eq. cbn. by rewrite lookup_empty. }
  destruct (applyMigrations_Ok_tags h name (tenant_migrations_folder h) "  " seq
              Hid Hj Hne Hq Hscr _ _ _ Happly) as (rows & Hrows & Htags).
  cbn [st_db set_db] in Htags. rewrite Hsame in Htags.
  destruct (verify_tables_Ok_inv _ _ _ _ _ Hver) as [Hdb Ht].
  assert (tracking (st_db s1) name = Some rows) as Hrows'.
  { unfold tracking, find_table in *. by rewrite Hdb. }
  assert (audit_schema (st_db s1) seq name = None) as Haudit.
  { unfold audit_schema.
    rewrite (table_exists_schema _ _ _ Ht), Ht, Hrows'. cbn [negb].
    assert (missing_of seq rows.*1 = [] ∧ extra_of seq rows.*1 = []) as [-> ->];
      [|done].
    apply no_mismatch_iff. intros m. rewrite Htags, elem_of_app. split.
    - intros Hm. destruct (Js.includes (applied_tags dA name) m) eqn:Hin.
      + left. rewrite <- Hsame. by apply includes_true.
      + right. unfold pending. apply list_elem_of_In, filter_In.
        split; [by apply list_elem_of_In|]. cbn [st_db set_db]. by rewrite Hin.
    - intros [Hm|Hm]; [by apply Hold|].
      unfold pending in Hm. by apply list_elem_of_In, filter_In, proj1,
        list_elem_of_In in Hm. }
  split; [done|]. intros Hf results.
  destruct (check_schema_sound h seq name results s1 Hf Hid) as (s'' & evs' & Hck).
  rewrite Haudit in Hck. eauto.
Qed.

Lemma provisioned_tenant_is_healthy_witness :
  let run := createTenantSchemaWithMigrations Demo.host_full Demo.TENANT Demo.fresh in
  audit_schema (st_db run.1.2) Demo.SEQUENCE Demo.TENANT = None ∧
  (st_faults run.1.2 = [] →
   ∀ results, ∃ s'' evs',
     check_schema Demo.host_full Demo.SEQUENCE Demo.TENANT results run.1.2 =
       (Ok (push_healthy Demo.TENANT results), s'', evs')).
Proof.
  cbn zeta.
  apply (provisioned_tenant_is_healthy Demo.host_full Demo.TENANT Demo.SEQUENCE
           Demo.fresh _ (createTenantSchemaWithMigrations Demo.host_full
                           Demo.TENANT Demo.fresh).2).
  - vm_compute. reflexivity.
  - reflexivity.
  - discriminate.
  - repeat constructor.
  - apply demo_exec_keeps_tracking.
  - intros m Hm. vm_compute in Hm. by apply elem_of_nil in Hm.
Defined.

(** X4. What [applyMigrations] records, [getAppliedMigrations] reads back: once
    a call over a journal of at least one entry has returned, the hashes
    read on a sound connection are the tags that were recorded before,
    followed by the tags the call applied, in the order of the journal. *)
Theorem applied_migrations_read_back (h : host) (n folder lp : string)
    (seq : list string) (s s1 : state) (evs1 : list event) :
  Pg.identifier (escapeSchemaName n) = Some n →
  journal_of h folder = Some seq →
  seq ≠ [] →
  Forall quote_free seq →
  (∀ sql d d', exec_script h sql d = inr d' → tracking d' n = tracking d n) →
  applyMigrations h n folder lp s = (Ok tt, s1, evs1) →
  st_faults s1 = [] →
  getAppliedMigrations h n s1 =
    (Ok (applied_tags (st_db s) n ++ pending (st_db s) n seq), s1,
     [Call (SelectHashes (escapeSchemaName n))]).
Proof.
  intros Hid Hj Hne Hq Hscr Hrun Hf.
  destruct (applyMigrations_Ok_tags h n folder lp seq Hid Hj Hne Hq Hscr _ _ _ Hrun)
    as (rows & Hrows & Htags).
  unfold getAppliedMigrations. rewrite call_sound by done.
  rewrite engine_select_hashes by done. by rewrite Hrows, Htags, set_db_same.
Qed.

Lemma applied_migrations_read_back_witness :
  let run := applyMigrations Demo.host_full Demo.TENANT Demo.FOLDER "  " Demo.ready in
  getAppliedMigrations Demo.host_full Demo.TENANT run.1.2 =
    (Ok (applied_tags (st_db Demo.ready) Demo.TENANT ++
         pending (st_db Demo.ready) Demo.TENANT Demo.SEQUENCE), run.1.2,
     [Call (SelectHashes (escapeSchemaName Demo.TENANT))]).
Proof.
  cbn zeta.
  apply (applied_migrations_read_back Demo.host_full Demo.TENANT Demo.FOLDER "  "
           Demo.SEQUENCE Demo.ready _
           (applyMigrations Demo.host_full Demo.TENANT Demo.FOLDER "  "
              Demo.ready).2).
  - reflexivity.
  - reflexivity.
  - discriminate.
  - repeat constructor.
  - apply demo_exec_keeps_tracking.
  - vm_compute. reflexivity.
  - vm_compute. reflexivity.
Defined.

(** ** Names that provisioning accepts *)

(** X23. A name [validateSchemaName] accepts is written by [escapeSchemaName]
    between double quotes as it is, no character doubled, and the engine
    reads the token back as that very name: not folded to lower case, not
    cut, and never the unquoted [public]. *)
Theorem validated_name_is_quoted_verbatim (name : string) :
  validateSchemaName name = None →
  escapeSchemaName name = String dquote (name +:+ String dquote EmptyString) ∧
  Pg.identifier (escapeSchemaName name) = Some name ∧
  Js.toLowerCase name ≠ "public".
Proof.
  intros Hv. destruct (validated_name name Hv) as (Hst & _ & _).
  split; [symmetry; apply (raw_quoted_validated name Hv)|].
  split; [by apply identifier_escaped|].
  unfold validateSchemaName in Hv.
  destruct (Js.truthy name); [|done]. cbn [negb] in Hv.
  destruct (63 <? Js.length name); [done|].
  destruct (IDENT_REGEX_test name); [|done]. cbn [negb] in Hv.
  destruct (Js.includes reservedKeywords (Js.toLowerCase name)) eqn:Hr; [done|].
  intros Heq. rewrite Heq in Hr. done.
Qed.

Lemma validated_name_is_quoted_verbatim_witness :
  escapeSchemaName "Tenant_A" =
    String dquote ("Tenant_A" +:+ String dquote EmptyString) ∧
  Pg.identifier (escapeSchemaName "Tenant_A") = Some "Tenant_A" ∧
  Js.toLowerCase "Tenant_A" ≠ "public".
Proof. apply (validated_name_is_quoted_verbatim "Tenant_A"). reflexivity. Defined.


(** ** Migrating a fleet that is up to date *)

Lemma provisioned_ext (h : host) (seq : list string) (d d' : database)
    (name : string) :
  db_schemas d' = db_schemas d → provisioned h seq d name → provisioned h seq d' name.
Proof.
  intros H. unfold provisioned, table_exists, applied_tags, tracking, find_table.
  by rewrite H.
Qed.

Lemma migrate_loop_noop (h : host) (seq : list string) (d0 : database)
    (schemas : list string) :
  journal_of h (tenant_migrations_folder h) = Some seq →
  Forall (provisioned h seq d0) schemas →
  ∀ results s,
    st_faults s = [] → db_schemas (st_db s) = db_schemas d0 →
    ∃ s' evs,
      migrate_loop h schemas results s =
        (Ok {| success := success results + length schemas;
               failures := failures results; errors := errors results |},
         s', evs) ∧
      undisturbed s s' ∧ scripts_of evs = [] ∧ inserts_of evs = [].
Proof.
  intros Hj. induction 1 as [|name rest Hname _ IH]; intros results s Hf Hd.
  - cbn. rewrite Nat.add_0_r. destruct results. do 2 eexists.
    split; [done|]. by repeat split.
  - cbn [migrate_loop length].
    destruct (createTenant_noop_run h name seq s Hf Hj) as (e1 & Hrun & Hs1 & Hi1).
    { by apply (provisioned_ext h seq d0). }
    assert (∃ evs,
              migrate_one h name results s =
                (Ok {| success := S (success results); failures := failures results;
                       errors := errors results |},
                 set_db (set_search_path [name; "public"] (st_db s)) s, evs) ∧
              scripts_of evs = [] ∧ inserts_of evs = []) as (e2 & Hone & Hs2 & Hi2).
    { unfold migrate_one, try_catch, bind. cbn [console_log emit]. rewrite Hrun.
      cbn. eexists. split; [done|].
      change (?a :: e1 ++ ?b) with ([a] ++ e1 ++ b).
      by rewrite !scripts_of_app, !inserts_of_app, Hs1, Hi1. }
    erewrite bind_Ok by exact Hone.
    destruct (IH {| success := S (success results); failures := failures results;
                    errors := errors results |}
                (set_db (set_search_path [name; "public"] (st_db s)) s))
      as (s' & e3 & -> & [[Hs3 Ht3] Hf3] & Hs4 & Hi4); [done|done|].
    do 2 eexists. split; [|split].
    + cbn [success failures errors]. rewrite Nat.add_succ_r. reflexivity.
    + repeat split; [done..|auto].
    + by rewrite !scripts_of_app, !inserts_of_app, Hs2, Hi2, Hs4, Hi4.
Qed.

(** X24. Migrating a fleet that is up to date changes nothing. When every
    registered tenant is provisioned (a valid name, [dummy_table] in its
    schema, every entry of the journal with its file and its record), then
    on a sound connection [migrateAllTenantSchemas] reports one success per
    registered tenant and no failure, executes no script, inserts no
    record, and leaves schemas, rows and registry as they were. *)
Theorem migrateAll_up_to_date_is_noop (h : host) (seq : list string) (s : state) :
  st_faults s = [] →
  journal_of h (tenant_migrations_folder h) = Some seq →
  Forall (provisioned h seq (st_db s)) (db_tracker (st_db s)) →
  ∃ s' evs,
    migrateAllTenantSchemas h s =
      (Ok {| success := length (db_tracker (st_db s)); failures := 0; errors := [] |},
       s', evs) ∧
    scripts_of evs = [] ∧ inserts_of evs = [] ∧
    db_schemas (st_db s') = db_schemas (st_db s) ∧
    db_tracker (st_db s') = db_tracker (st_db s).
Proof.
  intros Hf Hj Hall. unfold migrateAllTenantSchemas.
  unfold bind at 1. cbn [createPostgresClient]. fold (fresh_client s).
  unfold try_finally, client_end, emit.
  assert (st_faults (fresh_client s) = []) as Hf0 by done.
  erewrite bind_Ok; [|rewrite call_sound by done; cbn [engine]; by rewrite set_db_same].
  change (db_tracker (st_db (fresh_client s))) with (db_tracker (st_db s)).
  destruct (db_tracker (st_db s)) as [|name rest] eqn:Htr.
  - cbn. do 2 eexists. split; [done|]. by repeat split.
  - rewrite <- Htr in *. destruct (length (db_tracker (st_db s)) =? 0) eqn:Hlen.
    { apply Nat.eqb_eq in Hlen. by rewrite Htr in Hlen. }
    erewrite bind_Ok by reflexivity.
    destruct (migrate_loop_noop h seq (st_db s) (db_tracker (st_db s)) Hj Hall
                {| success := 0; failures := 0; errors := [] |} (fresh_client s)
                Hf0 eq_refl)
      as (s' & e2 & Hloop & [[Hs1 Ht1] _] & Hs2 & Hi2).
    erewrite bind_Ok by exact Hloop. cbn [success failures errors Nat.add].
    erewrite bind_Ok by reflexivity. cbn.
    do 2 eexists. split; [done|].
    split; [|split; [|by split]].
    + change (NewClient :: ?a :: ?b :: (e2 ++ ?c) ++ ?d)
        with ([NewClient; a; b] ++ (e2 ++ c) ++ d).
      by rewrite !scripts_of_app, Hs2.
    + change (NewClient :: ?a :: ?b :: (e2 ++ ?c) ++ ?d)
        with ([NewClient; a; b] ++ (e2 ++ c) ++ d).
      by rewrite !inserts_of_app, Hi2.
Qed.

Lemma migrateAll_up_to_date_is_noop_witness :
  let s :=
    Demo.state_of
      (Demo.db_of
         [("public", []);
          ("tenant_001", [("dummy_table", []);
                          (MIGRATIONS_TABLE, [Demo.ROW_0000; Demo.ROW_0001])]);
          ("tenant_002", [("dummy_table", []);
                          (MIGRATIONS_TABLE, [Demo.ROW_0000; Demo.ROW_0001])])]
         ["tenant_001"; "tenant_002"]) [] in
  ∃ s' evs,
    migrateAllTenantSchemas Demo.host_full s =
      (Ok {| success := 2; failures := 0; errors := [] |}, s', evs) ∧
    scripts_of evs = [] ∧ inserts_of evs = [] ∧
    db_schemas (st_db s') = db_schemas (st_db s) ∧
    db_tracker (st_db s') = db_tracker (st_db s).
Proof.
  cbn zeta.
  apply (migrateAll_up_to_date_is_noop Demo.host_full Demo.SEQUENCE).
  - reflexivity.
  - reflexivity.
  - repeat constructor; try (intros _; vm_compute; by eexists).
Defined.
